(** * REDCap branching logic: parser, substitution and boolean evaluation

    A shallow embedding of [redcap_branch_parser/branching_logic_parser.py]
    and of the part of pyparsing its grammar is built from, followed by the
    properties of the three stages (parse, substitute, evaluate).

    Python text is modelled by [string]: a sequence of characters with code
    points 0..255, compared by code point as Python compares [str]. *)

From Stdlib Require Import Ascii String DecimalString.
From stdpp Require Import gmap strings list.

Local Open Scope string_scope.
Local Open Scope list_scope.
Set Warnings "-register-all".

(** ** Exceptions and fallible results *)

(** The exceptions the code can raise.  [ParseException] is pyparsing's
    syntax error, [KeyError] and [IndexError] are Python's two [LookupError]
    subclasses, [TypeError] is raised by a call with an unbound parameter and
    by an ordering comparison of a [str] with a value that is not one.
    [OutOfFuel] is not a Python exception: it marks a run of the recursive
    descent model that was given too little fuel. *)
Inductive error : Type :=
  | ParseException
  | KeyError
  | IndexError
  | TypeError
  | OutOfFuel.

Inductive result (A : Type) : Type :=
  | Ok (a : A)
  | Err (e : error).
Arguments Ok {A} a.
Arguments Err {A} e.

#[global] Instance result_ret : MRet result := @Ok.
#[global] Instance result_bind : MBind result := λ A B k r,
  match r with
  | Ok a => k a
  | Err e => Err e
  end.

#[global] Instance error_eq_dec : EqDecision error.
Proof. solve_decision. Defined.

(** ** Data model *)

(** [class myField]: a field name, an optional event and an optional
    checkbox option. *)
Record myField : Type := mk_myField {
  field : string;
  event : option string;
  check : option string
}.

(** The values that occur in the list-based trees: nested lists, [myField]
    objects, strings (operators, connectives, literals) and booleans. *)
Inductive node : Type :=
  | NList (l : list node)
  | NField (f : myField)
  | NStr (s : string)
  | NBool (b : bool).

(** [myField.__str__]: the textual form of a field reference.  Python tests
    [self.event] and [self.check] for truth, so [None] and the empty string
    both count as absent. *)
Definition truthy (o : option string) : bool :=
  match o with
  | Some s => negb (String.eqb s "")
  | None => false
  end.

Definition str_opt (o : option string) : string :=
  match o with
  | Some s => s
  | None => "None"
  end.

Definition myField_str (self : myField) : string :=
  let event_string :=
    if truthy (event self) then "[" +:+ str_opt (event self) +:+ "]" else "" in
  let field_string :=
    if truthy (check self)
    then "[" +:+ field self +:+ "(" +:+ str_opt (check self) +:+ ")]"
    else "[" +:+ field self +:+ "]" in
  event_string +:+ field_string.

(** ** Boolean evaluator: [__boolean_expr_evaluate] *)

Module Evaluator.

(** [op_lookup = { 'AND': op.and_, 'OR': op.or_ }]; a missing key raises
    [KeyError]. *)
Definition op_lookup (x : string) : result (bool → bool → bool) :=
  if String.eqb x "AND" then Ok andb
  else if String.eqb x "OR" then Ok orb
  else Err KeyError.

(** [stack.pop()]: removes and returns the last element; [IndexError] on an
    empty list. *)
Definition pop (stack : list bool) : result (bool * list bool) :=
  match reverse stack with
  | [] => Err IndexError
  | x :: r => Ok (x, reverse r)
  end.

(** The state of the loop: the value stack and the pending connective. *)
Definition state : Type := list bool * option (bool → bool → bool).

(** [stack[0]] *)
Definition first (stack : list bool) : result bool :=
  match stack !! 0%nat with
  | Some v => Ok v
  | None => Err IndexError
  end.

(** The [if infix:] block that ends an iteration of the loop. *)
Definition apply_infix (stack : list bool) (infix : option (bool → bool → bool))
  : result state :=
  match infix with
  | Some f =>
      '(left_, stack) ← pop stack;
      '(right_, stack) ← pop stack;
      Ok (stack ++ [f left_ right_], None)
  | None => Ok (stack, None)
  end.

Section loop.
(** The function called on a nested list: the evaluator itself. *)
Variable evaluate : node → result bool.

(** The [for x in expr] loop, returning the stack and the pending
    connective it ends with. *)
Fixpoint loop (expr : list node) (stack : list bool)
    (infix : option (bool → bool → bool)) {struct expr} : result state :=
  match expr with
  | [] => Ok (stack, infix)
  | x :: expr' =>
      match x with
      | NBool b =>
          '(stack, infix) ← apply_infix (stack ++ [b]) infix;
          loop expr' stack infix
      | NList _ =>
          v ← evaluate x;
          '(stack, infix) ← apply_infix (stack ++ [v]) infix;
          loop expr' stack infix
      | NStr s =>
          f ← op_lookup s;
          loop expr' stack (Some f)
      | NField _ =>
          '(stack, infix) ← apply_infix stack infix;
          loop expr' stack infix
      end
  end.
End loop.

(** The method applied to an arbitrary value.  The recursion descends through
    the nested lists.  For completeness the other values are given what Python
    does with them: a boolean or a [myField] cannot be iterated over, and the
    characters of a string are looked up in [op_lookup], which has no
    one-character key. *)
Fixpoint evaluate_value (expr : node) : result bool :=
  match expr with
  | NList l =>
      '(stack, _) ← loop evaluate_value l [] None;
      first stack
  | NStr "" => Err IndexError
  | NStr _ => Err KeyError
  | NBool _ | NField _ => Err TypeError
  end.

(** [__boolean_expr_evaluate(expr: list) -> bool] *)
Definition boolean_expr_evaluate (expr : list node) : result bool :=
  evaluate_value (NList expr).

(** The loop of the evaluator on its own: the stack and pending connective
    at the point of [return stack[0]]. *)
Definition run : list node → list bool → option (bool → bool → bool) → result state :=
  loop evaluate_value.

End Evaluator.

(** ** Substitution stage: [__redcap_lookup] and [__field_value_lookup] *)

(** What a data source may hold under a field name: text, or an integer
    (which [str] renders in decimal). *)
Inductive pyvalue : Type :=
  | PyStr (s : string)
  | PyInt (z : Z).

(** Python's [str] on these values. *)
Definition str (v : pyvalue) : string :=
  match v with
  | PyStr s => s
  | PyInt z => NilZero.string_of_int (Z.to_int z)
  end.

Module Substitution.

(** [__redcap_lookup]: [str(data_df[str(field_name)])].  Subscripting with an
    unknown name raises [KeyError]. *)
Definition redcap_lookup (field_name : string) (data_df : gmap string pyvalue)
  : result string :=
  match data_df !! field_name with
  | Some v => Ok (str v)
  | None => Err KeyError
  end.

(** The functions of the [operator] module applied to a [str] on the left.
    Equality with a value that is not a [str] is [False]; an ordering
    comparison with one raises [TypeError]. *)
Definition eq (a : string) (b : node) : result bool :=
  match b with
  | NStr s => Ok (String.eqb a s)
  | _ => Ok false
  end.

Definition ne (a : string) (b : node) : result bool :=
  match b with
  | NStr s => Ok (negb (String.eqb a s))
  | _ => Ok true
  end.

Definition ordering (test : comparison → bool) (a : string) (b : node)
  : result bool :=
  match b with
  | NStr s => Ok (test (String.compare a s))
  | _ => Err TypeError
  end.

Definition lt := ordering (λ c, match c with Lt => true | _ => false end).
Definition gt := ordering (λ c, match c with Gt => true | _ => false end).
Definition le := ordering (λ c, match c with Gt => false | _ => true end).
Definition ge := ordering (λ c, match c with Lt => false | _ => true end).

(** [op_lookup[key]]: a list cannot be hashed ([TypeError]); any other key
    that is not one of the six symbols is missing ([KeyError]). *)
Definition op_lookup (key : node) : result (string → node → result bool) :=
  match key with
  | NStr "=" => Ok eq
  | NStr "<>" => Ok ne
  | NStr "<" => Ok lt
  | NStr ">" => Ok gt
  | NStr "<=" => Ok le
  | NStr ">=" => Ok ge
  | NList _ => Err TypeError
  | _ => Err KeyError
  end.

(** [results[i]] *)
Definition item (results : list node) (i : nat) : result node :=
  match results !! i with
  | Some x => Ok x
  | None => Err IndexError
  end.

(** [result in ['AND', 'OR']] *)
Definition is_connective (result : node) : bool :=
  match result with
  | NStr s => String.eqb s "AND" || String.eqb s "OR"
  | _ => false
  end.

Section loop.
(** The function called on a nested list: the substitution itself. *)
Variable lookup : node → result (list node).
Variable data_df : gmap string pyvalue.
(** The list the loop enumerates, kept for [results[index + 1]] and
    [results[index + 2]]. *)
Variable results : list node.

(** [for index, result in enumerate(results)], at position [index] with
    [rest] still to visit.  The two [print] calls of the [myField] branch
    write to standard output only and are left out. *)
Fixpoint loop (index : nat) (rest : list node) (scratch : list node)
    {struct rest} : result (list node) :=
  match rest with
  | [] => Ok scratch
  | result :: rest' =>
      match result with
      | NList _ =>
          inner_layer ← lookup result;
          match inner_layer with
          | [x] => loop (S index) rest' (scratch ++ [x])
          | _ => loop (S index) rest' (scratch ++ [NList inner_layer])
          end
      | NField f =>
          let field_name := field f in
          key ← item results (index + 1);
          operator ← op_lookup key;
          expected ← item results (index + 2);
          field_value ← redcap_lookup field_name data_df;
          field_result ← operator field_value expected;
          Ok (scratch ++ [NBool field_result])
      | _ =>
          if is_connective result
          then loop (S index) rest' (scratch ++ [result])
          else loop (S index) rest' scratch
      end
  end.
End loop.

(** The method applied to an arbitrary value.  The recursion descends through
    the nested lists.  For completeness the other values are given what Python
    does with them: a boolean or a [myField] cannot be enumerated, and the
    characters of a string are neither lists, fields nor connectives. *)
Fixpoint lookup_value (data_df : gmap string pyvalue) (results : node)
  : result (list node) :=
  match results with
  | NList l => loop (lookup_value data_df) data_df l 0 l []
  | NStr _ => Ok []
  | NBool _ | NField _ => Err TypeError
  end.

(** [__field_value_lookup(results, data_df)] *)
Definition field_value_lookup (results : list node)
    (data_df : gmap string pyvalue) : result (list node) :=
  lookup_value data_df (NList results).

End Substitution.

(** ** The pyparsing elements the grammar is built from

    A parser element is a function from the parsing position to a token list
    and the position after the match, or to an exception.  The position is
    the text still to read together with the character just before it (which
    [Keyword] inspects); the column a [ParseException] reports is not
    modelled.  Whitespace is skipped in front of every terminal: pyparsing
    also skips it in front of compound elements, which changes nothing since
    their first terminal skips the same characters. *)

Module PP.

Record pstate : Type := mk_pstate {
  prev : option ascii;
  rest : string
}.

Definition parser (A : Type) : Type := pstate → result (A * pstate).

(** *** Character classes *)

Definition in_range (lo hi : N) (c : ascii) : bool :=
  ((lo <=? N_of_ascii c) && (N_of_ascii c <=? hi))%N.

Definition is_upper : ascii → bool := in_range 65 90.
Definition is_lower : ascii → bool := in_range 97 122.
Definition is_digit : ascii → bool := in_range 48 57.

(** [pp.alphanums] *)
Definition alphanums (c : ascii) : bool := is_upper c || is_lower c || is_digit c.

(** [ParserElement.DEFAULT_WHITE_CHARS]: space, newline, tab, carriage
    return. *)
Definition white_chars (c : ascii) : bool :=
  Ascii.eqb c " " || Ascii.eqb c "010" || Ascii.eqb c "009" || Ascii.eqb c "013".

(** [Keyword.DEFAULT_KEYWORD_CHARS = alphanums + "_$"] *)
Definition keyword_chars (c : ascii) : bool :=
  alphanums c || Ascii.eqb c "_" || Ascii.eqb c "$".

(** [c.upper()] on the letters a..z. *)
Definition upper (c : ascii) : ascii :=
  if is_lower c then ascii_of_N (N_of_ascii c - 32) else c.

(** *** Text helpers *)

(** The longest prefix of characters satisfying [f], and what follows it. *)
Fixpoint span (f : ascii → bool) (s : string) : string * string :=
  match s with
  | String c s' =>
      if f c then let '(w, r) := span f s' in (String c w, r) else ("", s)
  | "" => ("", "")
  end.

(** The last character of [s], or [d] when [s] is empty. *)
Fixpoint last_char (d : option ascii) (s : string) : option ascii :=
  match s with
  | String c s' => last_char (Some c) s'
  | "" => d
  end.

(** [s.startswith(p)], with [fold] applied to the characters of [s] first
    ([id], or [upper] for a caseless match). *)
Fixpoint starts_with (fold : ascii → ascii) (p s : string) : bool :=
  match p, s with
  | "", _ => true
  | String a p', String b s' => Ascii.eqb a (fold b) && starts_with fold p' s'
  | String _ _, "" => false
  end.

(** [str.expandtabs()] with the default tab size 8: a tab becomes the spaces
    that reach the next multiple of 8 columns; a newline or carriage return
    restarts the column count. *)
Fixpoint expandtabs_from (column : nat) (s : string) : string :=
  match s with
  | "" => ""
  | String c s' =>
      if Ascii.eqb c "009" then
        let incr := (8 - column mod 8)%nat in
        String.concat "" (replicate incr " ") +:+ expandtabs_from (column + incr) s'
      else if Ascii.eqb c "010" || Ascii.eqb c "013" then
        String c (expandtabs_from 0 s')
      else String c (expandtabs_from (S column) s')
  end.

Definition expandtabs : string → string := expandtabs_from 0.

(** The whitespace escapes [QuotedString] converts when it unquotes: the two
    characters backslash and t, n, f or r become a tab, newline, form feed
    or carriage return. *)
Fixpoint convert_whitespace_escapes (s : string) : string :=
  match s with
  | String "\" (String "t" s') => String "009" (convert_whitespace_escapes s')
  | String "\" (String "n" s') => String "010" (convert_whitespace_escapes s')
  | String "\" (String "f" s') => String "012" (convert_whitespace_escapes s')
  | String "\" (String "r" s') => String "013" (convert_whitespace_escapes s')
  | String c s' => String c (convert_whitespace_escapes s')
  | "" => ""
  end.

(** *** Terminals *)

(** [preParse]: skip the whitespace in front of a terminal. *)
Fixpoint skip_whitespace (p : option ascii) (s : string) : pstate :=
  match s with
  | String c s' =>
      if white_chars c then skip_whitespace (Some c) s' else mk_pstate p s
  | "" => mk_pstate p ""
  end.

Definition preParse (st : pstate) : pstate := skip_whitespace (prev st) (rest st).

(** Move [n] characters forward. *)
Fixpoint advance (n : nat) (st : pstate) : pstate :=
  match n, rest st with
  | S n', String c s' => advance n' (mk_pstate (Some c) s')
  | _, _ => st
  end.

(** [Word(chars)]: one or more characters of [chars]. *)
Definition Word (chars : ascii → bool) : parser (list string) := λ st,
  let st := preParse st in
  match span chars (rest st) with
  | ("", _) => Err ParseException
  | (w, r) => Ok ([w], mk_pstate (last_char None w) r)
  end.

(** [Literal(match_string)] *)
Definition Literal (match_string : string) : parser (list string) := λ st,
  let st := preParse st in
  if starts_with id match_string (rest st)
  then Ok ([match_string], advance (String.length match_string) st)
  else Err ParseException.

(** [QuotedString(quote_char, end_quote_char)] with one-character quotes, no
    escape character and [multiline=False]: the opening quote, any characters
    other than the closing quote, newline and carriage return, and the
    closing quote.  The token is the text between the quotes with the
    whitespace escapes converted. *)
Definition QuotedString (quote_char end_quote_char : ascii)
  : parser (list string) := λ st,
  let st := preParse st in
  match rest st with
  | String c s =>
      if Ascii.eqb c quote_char then
        let '(body, r) :=
          span (λ c, negb (Ascii.eqb c end_quote_char || Ascii.eqb c "010"
                           || Ascii.eqb c "013")) s in
        match r with
        | String e r' =>
            if Ascii.eqb e end_quote_char
            then Ok ([convert_whitespace_escapes body],
                     mk_pstate (Some end_quote_char) r')
            else Err ParseException
        | "" => Err ParseException
        end
      else Err ParseException
  | "" => Err ParseException
  end.

(** [one_of(strs)]: pyparsing reorders the symbols so that none is masked by
    a shorter one that is its prefix, then matches the first that fits; the
    match is therefore the longest symbol the text starts with. *)
Definition longest_match (strs : list string) (s : string) : option string :=
  foldl (λ best sym,
           if starts_with id sym s then
             match best with
             | Some b =>
                 if (String.length b <? String.length sym)%nat
                 then Some sym else best
             | None => Some sym
             end
           else best) None strs.

Definition oneOf (strs : list string) : parser (list string) := λ st,
  let st := preParse st in
  match longest_match strs (rest st) with
  | Some sym => Ok ([sym], advance (String.length sym) st)
  | None => Err ParseException
  end.

(** [Keyword(match_string)] and, with [caseless], [CaselessKeyword]: the
    text must start with the keyword, must not follow a keyword character
    and must not be followed by one.  The token is [match_string] as it was
    defined, whatever the case of the text. *)
Definition Keyword (caseless : bool) (match_string : string)
  : parser (list string) := λ st,
  let st := preParse st in
  let fold := if caseless then upper else id in
  let st' := advance (String.length match_string) st in
  let before :=
    match prev st with
    | Some c => negb (keyword_chars (fold c))
    | None => true
    end in
  let after :=
    match rest st' with
    | String c _ => negb (keyword_chars (fold c))
    | "" => true
    end in
  if starts_with fold match_string (rest st) && before && after
  then Ok ([match_string], st')
  else Err ParseException.

Definition CaselessKeyword : string → parser (list string) := Keyword true.

(** *** Combinators *)

(** [Suppress(expr)]: match and drop the tokens. *)
Definition Suppress {A B} (expr : parser (list A)) : parser (list B) := λ st,
  '(_, st) ← expr st; Ok ([], st).

(** [a + b] ([And]): one after the other, tokens concatenated. *)
Definition And {A} (a b : parser (list A)) : parser (list A) := λ st,
  '(ta, st) ← a st;
  '(tb, st) ← b st;
  Ok (ta ++ tb, st).

(** [a | b] ([MatchFirst]): the first alternative that matches.  Only a
    [ParseException] makes the next alternative run. *)
Definition MatchFirst {A} (a b : parser A) : parser A := λ st,
  match a st with
  | Err ParseException => b st
  | r => r
  end.

(** [Group(expr)]: the tokens of [expr] as one nested list. *)
Definition Group (expr : parser (list node)) : parser (list node) := λ st,
  '(t, st) ← expr st; Ok ([NList t], st).

(** [Opt(expr)] *)
Definition Opt {A} (expr : parser (list A)) : parser (list A) := λ st,
  match expr st with
  | Err ParseException => Ok ([], st)
  | r => r
  end.

(** [FollowedBy(expr)], as the lookahead of [infix_notation] uses it: match
    [expr] without consuming anything and without tokens. *)
Definition FollowedBy {A B} (expr : parser A) : parser (list B) := λ st,
  '(_, _) ← expr st; Ok ([], st).

(** The repetition of [OneOrMore] after its first match: match [expr] until
    it raises [ParseException].  Every match costs one unit of fuel. *)
Fixpoint many {A} (fuel : nat) (expr : parser (list A)) : parser (list A) :=
  λ st,
  match fuel with
  | O => Err OutOfFuel
  | S fuel =>
      match expr st with
      | Ok (t, st') => '(ts, st'') ← many fuel expr st'; Ok (t ++ ts, st'')
      | Err ParseException => Ok ([], st)
      | Err e => Err e
      end
  end.

(** [expr[1, ...]] ([OneOrMore]) *)
Definition OneOrMore {A} (fuel : nat) (expr : parser (list A))
  : parser (list A) :=
  And expr (many fuel expr).

(** Tokens that are text, as values of a tree. *)
Definition text {A} (expr : parser (list string)) (wrap : string → A)
  : parser (list A) := λ st,
  '(t, st) ← expr st; Ok (map wrap t, st).

(** [expr.set_parse_action(fn)]: the tokens are replaced by the value [fn]
    returns.  An [IndexError] raised inside [fn] is turned into a
    [ParseException] by pyparsing. *)
Definition set_parse_action {A B} (expr : parser (list A))
    (fn : list A → result B) : parser (list B) := λ st,
  '(t, st) ← expr st;
  match fn t with
  | Ok v => Ok ([v], st)
  | Err IndexError => Err ParseException
  | Err e => Err e
  end.

Infix "+++" := And (at level 60, right associativity).
Infix "<|>" := MatchFirst (at level 70, right associativity).

End PP.

(** ** The grammar: [BranchingLogicParser]'s parse actions and
       [__redcap_branching_logic_grammar] *)

Module Grammar.
Import PP.

(** [tokens[i]] on the tokens handed to a parse action. *)
Definition token (tokens : list string) (i : nat) : result string :=
  match tokens !! i with
  | Some t => Ok t
  | None => Err IndexError
  end.

(** [__create_my_field]: [myField(tokens[0])] *)
Definition create_my_field (tokens : list string) : result node :=
  t0 ← token tokens 0;
  Ok (NField (mk_myField t0 None None)).

(** [__create_my_event_field]: [myField(tokens[1], event=tokens[0])] *)
Definition create_my_event_field (tokens : list string) : result node :=
  t1 ← token tokens 1;
  t0 ← token tokens 0;
  Ok (NField (mk_myField t1 (Some t0) None)).

(** [__create_my_check]: [myField(tokens[0], event=None, check=tokens[1])] *)
Definition create_my_check (tokens : list string) : result node :=
  t0 ← token tokens 0;
  t1 ← token tokens 1;
  Ok (NField (mk_myField t0 None (Some t1))).

(** [__create_my_event_check]:
    [myField(tokens[1], event=tokens[0], check=tokens[2])] *)
Definition create_my_event_check (tokens : list string) : result node :=
  t1 ← token tokens 1;
  t0 ← token tokens 0;
  t2 ← token tokens 2;
  Ok (NField (mk_myField t1 (Some t0) (Some t2))).

(** The alphabet of the grammar. *)
Definition alphabet_chars (c : ascii) : bool := alphanums c || Ascii.eqb c "_".
Definition alphabet : parser (list string) := Word alphabet_chars.
Definition lbrace : parser (list string) := Suppress (Literal "[").
Definition rbrace : parser (list string) := Suppress (Literal "]").

(** The operators. *)
Definition operator : parser (list string) :=
  oneOf ["="; "<>"; ">"; ">="; "<"; "<="].
Definition and_ : parser (list string) := CaselessKeyword "AND".
Definition or_ : parser (list string) := CaselessKeyword "OR".
Definition not_ : parser (list string) := Keyword false "!".

(** The variables. *)
Definition variable : parser (list node) :=
  set_parse_action (QuotedString "[" "]") create_my_field.
Definition checkbox : parser (list string) := QuotedString "(" ")".
Definition event : parser (list string) := QuotedString "[" "]".
Definition value : parser (list string) :=
  QuotedString "034" "034" <|> QuotedString "'" "'".

Definition variable_in_check : parser (list node) :=
  set_parse_action (lbrace +++ alphabet +++ checkbox +++ rbrace) create_my_check.
Definition variable_in_event : parser (list node) :=
  set_parse_action (event +++ QuotedString "[" "]") create_my_event_field.
Definition varcheck_in_event : parser (list node) :=
  set_parse_action (event +++ (lbrace +++ alphabet +++ checkbox +++ rbrace))
    create_my_event_check.

(** The expression. *)
Definition field : parser (list node) :=
  varcheck_in_event <|> variable_in_event <|> variable_in_check <|> variable
  <|> text value NStr.
Definition expression : parser (list node) :=
  Group (field +++ text operator NStr +++ text value NStr).

(** *** [pp.infix_notation]

    An operator level is built on the level below it, [lastExpr].  A binary
    left-associative operator gives
    [_FB(lastExpr + opExpr + lastExpr) + Group(lastExpr + (opExpr + lastExpr)[1, ...]) | lastExpr]
    and a unary right-associative one gives
    [_FB(opExpr + thisExpr) + Group(Opt(opExpr) + thisExpr) | lastExpr],
    where [thisExpr] is the level itself.  The lowest level is
    [base_expr | (lpar + ret + rpar)] with [ret] the whole grammar.  Both
    recursive references are [Forward] elements; dereferencing one costs a
    unit of fuel. *)

Inductive opAssoc : Type := LEFT | RIGHT.

Definition out_of_fuel {A} : parser A := λ _, Err OutOfFuel.

Definition binary_left (fuel : nat) (opExpr lastExpr : parser (list node))
  : parser (list node) :=
  (FollowedBy (lastExpr +++ opExpr +++ lastExpr)
   +++ Group (lastExpr +++ OneOrMore fuel (opExpr +++ lastExpr)))
  <|> lastExpr.

Fixpoint unary_right (fuel : nat) (opExpr lastExpr : parser (list node))
  : parser (list node) :=
  let thisExpr :=
    match fuel with
    | O => out_of_fuel
    | S fuel => unary_right fuel opExpr lastExpr
    end in
  (FollowedBy (opExpr +++ thisExpr) +++ Group (Opt opExpr +++ thisExpr))
  <|> lastExpr.

(** The operator levels of [op_list], lowest precedence last.  Only the two
    kinds of operator the grammar uses are modelled. *)
Fixpoint levels (fuel : nat) (lastExpr : parser (list node))
    (op_list : list (parser (list node) * nat * opAssoc))
  : parser (list node) :=
  match op_list with
  | [] => lastExpr
  | (opExpr, arity, assoc) :: op_list =>
      let thisExpr :=
        match arity, assoc with
        | 1%nat, RIGHT => unary_right fuel opExpr lastExpr
        | 2%nat, LEFT => binary_left fuel opExpr lastExpr
        | _, _ => lastExpr
        end in
      levels fuel thisExpr op_list
  end.

Fixpoint infix_notation (fuel : nat) (base_expr : parser (list node))
    (op_list : list (parser (list node) * nat * opAssoc))
  : parser (list node) :=
  let lpar := Suppress (Literal "(") in
  let rpar := Suppress (Literal ")") in
  let ret :=
    match fuel with
    | O => out_of_fuel
    | S fuel => infix_notation fuel base_expr op_list
    end in
  levels fuel (base_expr <|> (lpar +++ ret +++ rpar)) op_list.

(** The grammar [__redcap_branching_logic_grammar] returns. *)
Definition redcap_branching_logic_grammar (fuel : nat) : parser (list node) :=
  infix_notation fuel expression
    [ (text not_ NStr, 1%nat, RIGHT);
      (text operator NStr, 2%nat, LEFT);
      (text and_ NStr, 2%nat, LEFT);
      (text or_ NStr, 2%nat, LEFT) ].

(** [parse_string(instring)] without [parse_all]: tabs are expanded, the
    grammar is matched at the start of the text and whatever follows the
    match is ignored.  The fuel exceeds the length of the text, which bounds
    the number of nested [Forward] references and of repetitions. *)
Definition parse_string (instring : string) : result (list node) :=
  let instring := expandtabs instring in
  '(tokens, _) ← redcap_branching_logic_grammar (S (String.length instring))
                   (mk_pstate None instring);
  Ok tokens.

End Grammar.

(** ** The methods of [BranchingLogicParser] *)

(** [__create_ast_as_list]: [self.grammar.parse_string(input_string).as_list()] *)
Definition create_ast_as_list (input_string : string) : result (list node) :=
  Grammar.parse_string input_string.

Definition substitute := Substitution.field_value_lookup.
Definition evaluate := Evaluator.boolean_expr_evaluate.

(** Python binds the arguments of a call before it runs the body: a call
    that leaves the required parameter [data_df] unbound raises
    [TypeError]. *)
Definition call_field_value_lookup (results : list node)
    (data_df : option (gmap string pyvalue)) : result (list node) :=
  match data_df with
  | Some data_df => Substitution.field_value_lookup results data_df
  | None => Err TypeError
  end.

(** [__parse], exposed as [BranchingLogicParser.parse]: its only parameter is
    the text, and [__field_value_lookup] is called with the tree alone. *)
Definition parse (input_string : string) : result bool :=
  ast_as_list ← create_ast_as_list input_string;
  boolean_expr ← call_field_value_lookup ast_as_list None;
  Evaluator.boolean_expr_evaluate boolean_expr.

(** ** What the specification describes *)

Module Spec.

(** The convenience entry point as the specification words it:
    [parse_and_evaluate(expression_text, data_source)] composes the three
    stages in order. *)
Definition parse_and_evaluate (expression_text : string)
    (data_source : gmap string pyvalue) : result bool :=
  tree ← create_ast_as_list expression_text;
  boolean_tree ← substitute tree data_source;
  evaluate boolean_tree.

(** [AND] is conjunction and [OR] is disjunction. *)
Definition connective (c : string) : option (bool → bool → bool) :=
  if String.eqb c "AND" then Some andb
  else if String.eqb c "OR" then Some orb
  else None.

(** The alternation invariant of a boolean tree: a value, then any number of
    connective and value pairs; a value is a boolean or a nested sequence
    with the same form. *)
Fixpoint alternating (n : node) : bool :=
  match n with
  | NBool _ => true
  | NList (v :: pairs) =>
      alternating v &&
      (fix go (pairs : list node) : bool :=
         match pairs with
         | [] => true
         | NStr c :: v :: pairs =>
             bool_decide (is_Some (connective c)) && alternating v && go pairs
         | _ => false
         end) pairs
  | _ => false
  end.

(** The left-to-right fold of an alternating sequence. *)
Fixpoint fold_value (n : node) : bool :=
  match n with
  | NBool b => b
  | NList (v :: pairs) =>
      (fix go (acc : bool) (pairs : list node) : bool :=
         match pairs with
         | NStr c :: v :: pairs =>
             match connective c with
             | Some f => go (f acc (fold_value v)) pairs
             | None => acc
             end
         | _ => acc
         end) (fold_value v) pairs
  | _ => false
  end.

(** The six comparison operators, as relations on text. *)
Definition compare_text (o : string) (a b : string) : option bool :=
  let c := String.compare a b in
  if String.eqb o "=" then Some (bool_decide (c = Eq))
  else if String.eqb o "<>" then Some (bool_decide (c ≠ Eq))
  else if String.eqb o "<" then Some (bool_decide (c = Lt))
  else if String.eqb o ">" then Some (bool_decide (c = Gt))
  else if String.eqb o "<=" then Some (bool_decide (c ≠ Gt))
  else if String.eqb o ">=" then Some (bool_decide (c ≠ Lt))
  else None.

Definition is_operator (o : string) : bool :=
  bool_decide (o ∈ ["="; "<>"; ">"; ">="; "<"; "<="]).

(** Every character of [s] satisfies [f]. *)
Fixpoint all_chars (f : ascii → bool) (s : string) : bool :=
  match s with
  | String c s' => f c && all_chars f s'
  | "" => true
  end.

(** An identifier: one or more alphanumerics or underscores. *)
Definition identifier (s : string) : bool :=
  negb (String.eqb s "") && all_chars Grammar.alphabet_chars s.

Definition optional_identifier (o : option string) : bool :=
  match o with
  | Some s => identifier s
  | None => true
  end.

(** A field reference whose name and qualifiers are identifiers. *)
Definition field_reference (f : myField) : bool :=
  identifier (field f) && optional_identifier (event f)
  && optional_identifier (check f).

(** Text that can stand between single quotes as it is: no quote, line
    break, tab or backslash. *)
Definition plain_char (c : ascii) : bool :=
  negb (Ascii.eqb c "'" || Ascii.eqb c "010" || Ascii.eqb c "013"
        || Ascii.eqb c "009" || Ascii.eqb c "\").

Definition plain_text : string → bool := all_chars plain_char.

(** A comparison: a field reference, an operator and a literal. *)
Record comparison : Type := mk_comparison {
  lhs : myField;
  op : string;
  literal : string
}.

Definition well_formed (c : comparison) : bool :=
  field_reference (lhs c) && is_operator (op c) && plain_text (literal c).

(** The surface form of a comparison, the field reference written by
    [myField.__str__]. *)
Definition comparison_text (c : comparison) : string :=
  myField_str (lhs c) +:+ op c +:+ "'" +:+ literal c +:+ "'".

(** The leaf triple of a comparison. *)
Definition leaf (c : comparison) : node :=
  NList [NField (lhs c); NStr (op c); NStr (literal c)].

(** The truth of a comparison under a data source that resolves its field. *)
Definition truth (data_source : gmap string pyvalue) (c : comparison)
  : option bool :=
  v ← data_source !! field (lhs c);
  compare_text (op c) (str v) (literal c).

(** The field references of a tree. *)
Fixpoint fields (n : node) : list myField :=
  match n with
  | NField f => [f]
  | NList l => concat (map fields l)
  | _ => []
  end.

(** The shape of the trees the grammar builds: a comparison triple, or a
    list of nested trees and text. *)
Fixpoint parsed (n : node) : bool :=
  match n with
  | NList [NField _; NStr o; NStr _] => is_operator o
  | NList l =>
      forallb (λ x, match x with
                    | NStr _ => true
                    | NList _ => parsed x
                    | _ => false
                    end) l
  | _ => false
  end.

(** The text [A AND B OR C] of three comparisons. *)
Definition and_or_text (a b c : comparison) : string :=
  comparison_text a +:+ " AND " +:+ comparison_text b +:+ " OR "
  +:+ comparison_text c.

End Spec.

(** * Notions used in the proofs *)

Module Proofs.
Import PP.

(** A tree on which the evaluator's loop ends with the fold of the tree as
    the only value on its stack, when the tree is an alternating sequence. *)
Definition evaluates (n : node) : Prop :=
  Spec.alternating n = true →
  match n with
  | NList l => Evaluator.run l [] None = Ok ([Spec.fold_value n], None)
  | _ => True
  end.

(** An element the grammar can leave in a list that is not a comparison
    triple: text, or a nested tree. *)
Definition item_ok (x : node) : bool :=
  match x with
  | NStr _ => true
  | NList _ => Spec.parsed x
  | _ => false
  end.

(** Whether a data source resolves every field reference of a tree. *)
Definition resolves (data : gmap string pyvalue) (n : node) : bool :=
  forallb (λ f, bool_decide (is_Some (data !! field f))) (Spec.fields n).

(** On a tree of the grammar's shape the substitution either succeeds, when
    every field resolves, or fails with [KeyError]. *)
Definition substitutes (data : gmap string pyvalue) (n : node) : Prop :=
  Spec.parsed n = true →
  if resolves data n then ∃ out, Substitution.lookup_value data n = Ok out
  else Substitution.lookup_value data n = Err KeyError.

(** What the substitution loop appends for a nested list: its only element,
    or the list itself. *)
Definition collapse (inner_layer : list node) : node :=
  match inner_layer with
  | [x] => x
  | _ => NList inner_layer
  end.

(** Every token list [p] can return satisfies [Q]. *)
Definition yields {A} (Q : A → Prop) (p : parser A) : Prop :=
  ∀ st t st', p st = Ok (t, st') → Q t.

Definition items (t : list node) : Prop := forallb item_ok t = true.
Definition single (t : list node) : Prop :=
  ∃ n, t = [n] ∧ Spec.parsed n = true.

(** The left-hand atom of a comparison is a field reference or text. *)
Definition atom (t : list node) : Prop :=
  (∃ f, t = [NField f]) ∨ (∃ s, t = [NStr s]).

(** The characters [QuotedString] accepts between its quotes and returns
    unchanged. *)
Definition quotable (e : ascii) (c : ascii) : bool :=
  negb (Ascii.eqb c e || Ascii.eqb c "010" || Ascii.eqb c "013")
  && negb (Ascii.eqb c "\").

(** The first character of an operator. *)
Definition operator_char (c : ascii) : bool :=
  Ascii.eqb c "=" || Ascii.eqb c "<" || Ascii.eqb c ">".

(** Text without a tab, which [expandtabs] leaves as it is. *)
Definition no_tab (s : string) : Prop :=
  Spec.all_chars (λ c, negb (Ascii.eqb c "009")) s = true.

(** The levels [infix_notation] builds for the grammar, lowest first. *)
Definition level0 (fuel : nat) : parser (list node) :=
  Grammar.expression
  <|> (Suppress (Literal "(")
       +++ match fuel with
           | O => Grammar.out_of_fuel
           | S fuel => Grammar.redcap_branching_logic_grammar fuel
           end
       +++ Suppress (Literal ")")).
Definition level1 (fuel : nat) : parser (list node) :=
  Grammar.unary_right fuel (text Grammar.not_ NStr) (level0 fuel).
Definition level2 (fuel : nat) : parser (list node) :=
  Grammar.binary_left fuel (text Grammar.operator NStr) (level1 fuel).
Definition level3 (fuel : nat) : parser (list node) :=
  Grammar.binary_left fuel (text Grammar.and_ NStr) (level2 fuel).
Definition level4 (fuel : nat) : parser (list node) :=
  Grammar.binary_left fuel (text Grammar.or_ NStr) (level3 fuel).

(** What follows a comparison starts no operator. *)
Definition no_operator (r : string) : Prop :=
  Grammar.operator (mk_pstate (Some "'"%char) r) = Err ParseException.
Definition no_and (r : string) : Prop :=
  Grammar.and_ (mk_pstate (Some "'"%char) r) = Err ParseException.
Definition no_or (r : string) : Prop :=
  Grammar.or_ (mk_pstate (Some "'"%char) r) = Err ParseException.

(** The measures of the fuel argument. *)

(** The number of characters still to read. *)
Definition len (st : pstate) : nat := String.length (rest st).

(** On a position with at most [n] characters to read, [p] does not run out
    of fuel and does not move backwards. *)
Definition sound {A} (n : nat) (p : parser A) : Prop :=
  ∀ st, (len st ≤ n)%nat →
    p st ≠ Err OutOfFuel ∧ ∀ t st', p st = Ok (t, st') → (len st' ≤ len st)%nat.

(** A match of [p] reads at least one character. *)
Definition eats {A} (p : parser A) : Prop :=
  ∀ st t st', p st = Ok (t, st') → (len st' < len st)%nat.

(** A terminal never runs out of fuel and reads at least one character. *)
Definition terminal {A} (p : parser A) : Prop := (∀ n, sound n p) ∧ eats p.

(** A match of [p] on at most [n] characters reads at least one. *)
Definition eats_upto {A} (n : nat) (p : parser A) : Prop :=
  ∀ st, (len st ≤ n)%nat →
    ∀ t st', p st = Ok (t, st') → (len st' < len st)%nat.

(** A boolean tree, the input the evaluator is written for: booleans, the
    two connectives and nested boolean trees. *)
Fixpoint boolean_tree (n : node) : bool :=
  match n with
  | NBool _ => true
  | NStr s => String.eqb s "AND" || String.eqb s "OR"
  | NList l => forallb boolean_tree l
  | NField _ => false
  end.

(** An item that is neither a nested list nor a field reference. *)
Definition flat_item (x : node) : bool :=
  match x with
  | NStr _ | NBool _ => true
  | _ => false
  end.

(** The only exception of [p] is the syntax error (or the model's lack of
    fuel). *)
Definition raises_syntax {A} (p : parser A) : Prop :=
  ∀ st e, p st = Err e → e = ParseException ∨ e = OutOfFuel.

(** The first character of [s] that is not whitespace, if there is one:
    where the next terminal starts. *)
Definition next_char (s : string) : option ascii :=
  match rest (skip_whitespace None s) with
  | String c _ => Some c
  | "" => None
  end.

(** The characters an expression can start with. *)
Definition starter (c : ascii) : bool :=
  Ascii.eqb c "[" || Ascii.eqb c "'" || Ascii.eqb c "034" || Ascii.eqb c "("
  || Ascii.eqb c "!".

(** [stops n s]: the text [s] continues no expression of level [n]; it
    starts, after whitespace, with no operator and, from level 3 on, with
    no [AND] and, at level 4, with no [OR]. *)
Definition stops (n : nat) (s : string) : bool :=
  match next_char s with
  | None => true
  | Some c =>
      negb (operator_char c)
      && ((n <? 3)%nat || negb (Ascii.eqb (upper c) "A"))
      && ((n <? 4)%nat || negb (Ascii.eqb (upper c) "O"))
  end.

(** *** Expressions and their text *)

Inductive junction : Type := Conj | Disj.

Definition keyword (k : junction) : string :=
  match k with
  | Conj => "AND"
  | Disj => "OR"
  end.

(** An expression of the branching logic: a comparison, a negation, or two
    or more expressions joined by [AND] or by [OR], the keyword written as
    [w]. *)
Inductive logic : Type :=
  | Cmp (c : Spec.comparison)
  | Neg (e : logic)
  | Chain (k : junction) (w : string) (e : logic) (es : list logic).

(** The operator level of the grammar an expression belongs to. *)
Definition rank (e : logic) : nat :=
  match e with
  | Cmp _ => 0
  | Neg _ => 1
  | Chain Conj _ _ _ => 3
  | Chain Disj _ _ _ => 4
  end.

(** The level of the operands of a keyword. *)
Definition operand_rank (k : junction) : nat :=
  match k with
  | Conj => 2
  | Disj => 3
  end.

(** An operand of level [n] is written in parentheses when its own level
    is higher. *)
Definition wrap (n : nat) (e : logic) (s : string) : string :=
  if (rank e <=? n)%nat then s else "(" +:+ s +:+ ")".

(** The text of an expression. *)
Fixpoint show (e : logic) : string :=
  match e with
  | Cmp c => Spec.comparison_text c
  | Neg e => "!" +:+ wrap 1 e (show e)
  | Chain k w e es =>
      wrap (operand_rank k) e (show e)
      +:+ foldr (λ x s, " " +:+ w +:+ " " +:+ wrap (operand_rank k) x (show x) +:+ s)
            "" es
  end.

(** The tree of an expression: parentheses leave no trace, a chain is one
    flat list. *)
Fixpoint tree_of (e : logic) : node :=
  match e with
  | Cmp c => Spec.leaf c
  | Neg e => NList [NStr "!"; tree_of e]
  | Chain k _ e es =>
      NList (tree_of e
             :: foldr (λ x l, NStr (keyword k) :: tree_of x :: l) [] es)
  end.

Fixpoint uppercase (s : string) : string :=
  match s with
  | String c s' => String (upper c) (uppercase s')
  | "" => ""
  end.

(** Well-formed expressions: well-formed comparisons, chains of two or
    more, keywords in any mix of upper and lower case. *)
Fixpoint well_formed_logic (e : logic) : bool :=
  match e with
  | Cmp c => Spec.well_formed c
  | Neg e => well_formed_logic e
  | Chain k w e es =>
      String.eqb (uppercase w) (keyword k)
      && well_formed_logic e
      && negb (bool_decide (es = []))
      && forallb well_formed_logic es
  end.

(** The boolean the three stages compute for an expression: the
    conjunction or disjunction of the operands of a chain, and for a
    negation the value of its operand (the [!] is dropped by the
    substitution). *)
Fixpoint truth_value (data : gmap string pyvalue) (e : logic) : option bool :=
  match e with
  | Cmp c => Spec.truth data c
  | Neg e => truth_value data e
  | Chain k _ e es =>
      foldl (λ acc x,
               match acc, truth_value data x with
               | Some a, Some b =>
                   Some (match k with Conj => a && b | Disj => a || b end)
               | _, _ => None
               end) (truth_value data e) es
  end.

(** [chain e st ts st' n]: from [st] the element [e] matches [n] times in a
    row, with the tokens [ts], and then fails at [st']. *)
Inductive chain (e : parser (list node)) : pstate → list node → pstate → nat → Prop :=
  | chain_nil st : e st = Err ParseException → chain e st [] st 0
  | chain_cons st t st1 ts st2 n :
      e st = Ok (t, st1) → chain e st1 ts st2 n → chain e st (t ++ ts) st2 (S n).

(** The operator level [n] of the grammar, 0 to 4. *)
Definition level (n fuel : nat) : parser (list node) :=
  match n with
  | 0 => level0 fuel
  | 1 => level1 fuel
  | 2 => level2 fuel
  | 3 => level3 fuel
  | _ => level4 fuel
  end.

(** The parser of a keyword. *)
Definition junction_expr (k : junction) : parser (list node) :=
  match k with
  | Conj => text Grammar.and_ NStr
  | Disj => text Grammar.or_ NStr
  end.

(** The text of the operands of a chain after the first. *)
Definition operands (k : junction) (w : string) (es : list logic) : string :=
  foldr (λ x s, " " +:+ w +:+ " " +:+ wrap (operand_rank k) x (show x) +:+ s) "" es.

(** The tokens of the operands of a chain after the first. *)
Definition operand_trees (k : junction) (es : list logic) : list node :=
  foldr (λ x l, NStr (keyword k) :: tree_of x :: l) [] es.

(** The characters the text of an expression starts with. *)
Definition opening (c : ascii) : Prop :=
  c = "["%char ∨ c = "!"%char ∨ c = "("%char.

(** [parses e]: on the text of [e] the level of the grammar [e] belongs to
    returns the tree of [e] and stops behind the text, when the fuel is at
    least the length of the text.  A negation or comparison is matched by
    the unary level with any fuel [f] of its own. *)
Definition parses (e : logic) : Prop :=
  ∀ fuel st p r,
    (String.length (show e) ≤ fuel)%nat →
    (∀ c, p = Some c → keyword_chars c = false) →
    preParse st = mk_pstate p (show e +:+ r) →
    (∀ f, (rank e ≤ 1)%nat → (String.length (show e) ≤ f)%nat →
       ∃ q, Grammar.unary_right f (text Grammar.not_ NStr) (level0 fuel) st
            = Ok ([tree_of e], mk_pstate q r))
    ∧ ((2 ≤ rank e)%nat → stops (rank e) r = true →
       ∃ q, level (rank e) fuel st = Ok ([tree_of e], mk_pstate q r)).

(** The boolean tree the substitution leaves for an expression: the
    comparisons replaced by their truth, the negations dropped. *)
Fixpoint boolean_of (data : gmap string pyvalue) (e : logic) : node :=
  match e with
  | Cmp c => NBool (default false (Spec.truth data c))
  | Neg e => boolean_of data e
  | Chain k _ e es =>
      NList (boolean_of data e
             :: foldr (λ x l, NStr (keyword k) :: boolean_of data x :: l) [] es)
  end.

(** What [__field_value_lookup] returns on the tree of an expression. *)
Definition substituted (data : gmap string pyvalue) (e : logic) : list node :=
  match e with
  | Chain k _ e es =>
      boolean_of data e
      :: foldr (λ x l, NStr (keyword k) :: boolean_of data x :: l) [] es
  | _ => [boolean_of data e]
  end.

(** Text made of whitespace only. *)
Definition blank : string → bool := Spec.all_chars white_chars.

End Proofs.
Import Proofs.

(** * Properties *)

(** Induction over trees, with the list of children covered by [Forall]. *)
Lemma node_nested_ind (P : node → Prop) :
  (∀ l, Forall P l → P (NList l)) →
  (∀ f, P (NField f)) →
  (∀ s, P (NStr s)) →
  (∀ b, P (NBool b)) →
  ∀ n, P n.
Proof.
  intros HL HF HS HB.
  fix IH 1. intros [l|f|s|b]; [|apply HF|apply HS|apply HB].
  apply HL. induction l as [|x l IHl]; constructor; [apply IH|exact IHl].
Qed.

(** Induction over lists two elements at a time. *)
Lemma list_pair_ind {A} (P : list A → Prop) :
  P [] → (∀ x, P [x]) → (∀ x y l, P l → P (x :: y :: l)) → ∀ l, P l.
Proof.
  intros H0 H1 H2 l.
  assert (P l ∧ ∀ x, P (x :: l)) as [? _]; [|done].
  induction l as [|y l [IH1 IH2]]; split; auto.
Qed.

(** ** The boolean evaluator *)

Section evaluator.
Import Evaluator.

Lemma boolean_expr_evaluate_run expr :
  boolean_expr_evaluate expr = '(stack, _) ← run expr [] None; first stack.
Proof. reflexivity. Qed.

Lemma pop_snoc stack x : pop (stack ++ [x]) = Ok (x, stack).
Proof. unfold pop. by rewrite reverse_snoc, reverse_involutive. Qed.

Lemma pop_nil : pop [] = Err IndexError.
Proof. reflexivity. Qed.

(** A connective is recorded as pending and nothing is pushed. *)
Lemma run_connective c f rest stack infix :
  Spec.connective c = Some f →
  run (NStr c :: rest) stack infix = run rest stack (Some f).
Proof.
  unfold Spec.connective, run. simpl. unfold op_lookup.
  destruct (String.eqb c "AND"); [by intros [= <-]|].
  destruct (String.eqb c "OR"); [by intros [= <-]|done].
Qed.

(** A boolean is pushed when no connective is pending. *)
Lemma run_push b rest stack :
  run (NBool b :: rest) stack None = run rest (stack ++ [b]) None.
Proof. reflexivity. Qed.

(** A boolean pushed while a connective is pending is combined with the
    value under it. *)
Lemma run_reduce b a f rest stack :
  run (NBool b :: rest) (stack ++ [a]) (Some f)
  = run rest (stack ++ [f b a]) None.
Proof.
  unfold run. simpl. rewrite pop_snoc. simpl. by rewrite pop_snoc.
Qed.

(** A nested sequence is evaluated on its own and its result handled as a
    boolean is. *)
Lemma run_nested l v rest stack infix :
  boolean_expr_evaluate l = Ok v →
  run (NList l :: rest) stack infix = run (NBool v :: rest) stack infix.
Proof. unfold run, boolean_expr_evaluate. simpl. by intros ->. Qed.

Lemma connective_comm c f a b : Spec.connective c = Some f → f a b = f b a.
Proof.
  unfold Spec.connective.
  destruct (String.eqb c "AND"); [intros [= <-]; apply andb_comm|].
  destruct (String.eqb c "OR"); [intros [= <-]; apply orb_comm|done].
Qed.

Lemma run_value v rest stack infix :
  evaluates v → Spec.alternating v = true →
  run (v :: rest) stack infix = run (NBool (Spec.fold_value v) :: rest) stack infix.
Proof.
  intros Hv Ha. destruct v as [l| | |b]; try done.
  apply run_nested. rewrite boolean_expr_evaluate_run, (Hv Ha). done.
Qed.

Lemma evaluates_all n : evaluates n.
Proof.
  induction n as [l IH| | |] using node_nested_ind; try done.
  unfold evaluates. destruct l as [|v pairs]; [done|].
  apply Forall_cons in IH as [Hv IH].
  cbn [Spec.alternating Spec.fold_value].
  intros [Ha Hp]%andb_prop.
  rewrite (run_value _ _ _ _ Hv Ha), run_push. simpl app.
  generalize (Spec.fold_value v) as acc. clear v Hv Ha.
  induction pairs as [|x|x y pairs IHp] using list_pair_ind; intros acc.
  - done.
  - by destruct x.
  - destruct x as [| |c|]; try done.
    apply Forall_cons in IH as [_ [Hy IH]%Forall_cons].
    apply andb_prop in Hp as [[Hc Hy']%andb_prop Hp].
    apply bool_decide_eq_true in Hc as [f Hc].
    rewrite (run_connective _ _ _ _ _ Hc), (run_value _ _ _ _ Hy Hy').
    change [acc] with ([] ++ [acc]). rewrite run_reduce. simpl app.
    rewrite Hc, (connective_comm _ _ _ _ Hc). by apply IHp.
Qed.

End evaluator.

(** C3.  On a sequence that obeys the alternation invariant the evaluator's
    loop ends with exactly one value on the stack and no pending connective;
    that value is the left-to-right fold of the sequence ([AND] as
    conjunction, [OR] as disjunction, nested sequences folded first), and
    [evaluate] returns it. *)
Theorem evaluate_alternating (expr : list node) :
  Spec.alternating (NList expr) = true →
  Evaluator.run expr [] None = Ok ([Spec.fold_value (NList expr)], None)
  ∧ evaluate expr = Ok (Spec.fold_value (NList expr)).
Proof.
  intros H. pose proof (evaluates_all (NList expr) H) as Hrun. split; [done|].
  unfold evaluate. by rewrite boolean_expr_evaluate_run, Hrun.
Qed.

Lemma evaluate_alternating_witness :
  Spec.alternating
    (NList [NBool true; NStr "AND"; NList [NBool false; NStr "OR"; NBool true];
            NStr "OR"; NBool false]) = true
  ∧ evaluate [NBool true; NStr "AND"; NList [NBool false; NStr "OR"; NBool true];
              NStr "OR"; NBool false] = Ok true.
Proof.
  split; [reflexivity|].
  exact (proj2 (evaluate_alternating
    [NBool true; NStr "AND"; NList [NBool false; NStr "OR"; NBool true];
     NStr "OR"; NBool false] eq_refl)).
Defined.

(** C4, as stated, fails: a sequence that leaves two values on the stack is
    evaluated to the first of them and no error is signalled. *)
Lemma evaluate_residual_counterexample :
  ¬ (∀ expr stack infix,
       Evaluator.run expr [] None = Ok (stack, infix) →
       stack = [] ∨ 1 < length stack →
       ∃ e, evaluate expr = Err e).
Proof.
  intros H.
  destruct (H [NBool true; NBool false] [true; false] None) as [e He];
    [reflexivity|right; simpl; lia|discriminate He].
Qed.

(** C4, amended.  When the loop ends with an empty stack, [evaluate] fails
    with [IndexError]; when it ends with one value or more, [evaluate]
    returns the value pushed first and signals nothing. *)
Theorem evaluate_final_stack (expr : list node) stack infix :
  Evaluator.run expr [] None = Ok (stack, infix) →
  match stack with
  | [] => evaluate expr = Err IndexError
  | v :: _ => evaluate expr = Ok v
  end.
Proof.
  intros H. unfold evaluate.
  rewrite boolean_expr_evaluate_run, H. by destruct stack.
Qed.

Lemma evaluate_final_stack_witness :
  evaluate [NStr "AND"] = Err IndexError
  ∧ evaluate [NBool false; NBool true; NBool true] = Ok false.
Proof.
  split.
  - exact (evaluate_final_stack [NStr "AND"] [] (Some andb) eq_refl).
  - exact (evaluate_final_stack [NBool false; NBool true; NBool true]
             [false; true; true] None eq_refl).
Defined.

(** ** The substitution stage *)

Lemma bind_Ok {A B} (r : result A) (k : A → result B) b :
  r ≫= k = Ok b ↔ ∃ a, r = Ok a ∧ k a = Ok b.
Proof.
  destruct r as [a|e]; simpl; split; eauto.
  - by intros (? & [= <-] & ?).
  - done.
  - by intros (? & ? & ?).
Qed.

Lemma compare_refl a : String.compare a a = Eq.
Proof.
  pose proof (String.compare_antisym a a) as H.
  by destruct (String.compare a a).
Qed.

Lemma eqb_compare a b : String.eqb a b = bool_decide (String.compare a b = Eq).
Proof.
  destruct (String.eqb_spec a b) as [->|Hne]; symmetry.
  - apply bool_decide_eq_true, compare_refl.
  - apply bool_decide_eq_false. by intros ?%String.compare_eq_iff.
Qed.

Lemma is_operator_cases o :
  Spec.is_operator o = true →
  o = "=" ∨ o = "<>" ∨ o = ">" ∨ o = ">=" ∨ o = "<" ∨ o = "<=".
Proof.
  intros H%bool_decide_eq_true. repeat (apply elem_of_cons in H as [?|H]; [tauto|]).
  by apply elem_of_nil in H.
Qed.

(** The function [op_lookup] gives for an operator symbol compares text as
    the symbol says. *)
Lemma op_lookup_operator o :
  Spec.is_operator o = true →
  ∃ f, Substitution.op_lookup (NStr o) = Ok f
       ∧ ∀ a b, ∃ r, Spec.compare_text o a b = Some r ∧ f a (NStr b) = Ok r.
Proof.
  intros Ho. destruct (is_operator_cases o Ho) as [-> | [-> | [-> | [-> | [-> | ->]]]]];
    (eexists; split; [reflexivity|]); intros a b; eexists; (split; [reflexivity|]);
    cbn; rewrite ?eqb_compare; destruct (String.compare a b); reflexivity.
Qed.

Section substitution.
Import Substitution.

(** A comparison triple is replaced by one boolean, or fails on the field
    name. *)
Lemma lookup_triple data f o v rest :
  Spec.is_operator o = true →
  field_value_lookup (NField f :: NStr o :: NStr v :: rest) data
  = match data !! field f with
    | Some x =>
        match Spec.compare_text o (str x) v with
        | Some b => Ok [NBool b]
        | None => Err KeyError
        end
    | None => Err KeyError
    end.
Proof.
  intros Ho. destruct (op_lookup_operator o Ho) as (g & Hg & Hcmp).
  unfold field_value_lookup. cbn -[op_lookup]. rewrite Hg. cbn.
  unfold redcap_lookup. destruct (data !! field f) as [x|]; [|done]. cbn.
  destruct (Hcmp (str x) v) as (r & -> & ->). done.
Qed.

Lemma parsed_cases l :
  Spec.parsed (NList l) = true →
  (∃ f o v, l = [NField f; NStr o; NStr v] ∧ Spec.is_operator o = true)
  ∨ forallb item_ok l = true.
Proof.
  destruct l as [|[|f| |] l]; try (intros H; right; exact H).
  destruct l as [|[| |o|] l]; try (intros H; right; exact H).
  destruct l as [|[| |v|] l]; try (intros H; right; exact H).
  destruct l as [|? l]; try (intros H; right; exact H).
  intros H. left. by exists f, o, v.
Qed.

Lemma parsed_items l : forallb item_ok l = true → Spec.parsed (NList l) = true.
Proof.
  destruct l as [|[|f| |] l]; try (intros H; exact H).
  intros [=].
Qed.

Lemma resolves_cons data x l :
  resolves data (NList (x :: l)) = resolves data x && resolves data (NList l).
Proof. unfold resolves. cbn. by rewrite forallb_app. Qed.

Lemma loop_items data results rest :
  Forall (substitutes data) rest → forallb item_ok rest = true →
  ∀ index scratch,
    if resolves data (NList rest)
    then ∃ out, loop (lookup_value data) data results index rest scratch = Ok out
    else loop (lookup_value data) data results index rest scratch = Err KeyError.
Proof.
  induction rest as [|x rest IH]; intros Hall Hok index scratch.
  - cbn. eauto.
  - apply Forall_cons in Hall as [Hx Hall].
    cbn [forallb] in Hok. apply andb_prop in Hok as [Hx' Hok].
    rewrite resolves_cons. specialize (IH Hall Hok).
    destruct x as [l| |s|]; try done.
    + specialize (Hx Hx'). cbn [loop].
      destruct (resolves data (NList l)).
      * destruct Hx as [out ->]. cbn.
        destruct out as [|? [|]]; apply IH.
      * by rewrite Hx.
    + cbn [loop]. change (resolves data (NStr s)) with true. cbn [andb].
      destruct (is_connective (NStr s)); apply IH.
Qed.

Lemma substitutes_all data n : substitutes data n.
Proof.
  induction n as [l IH| | |] using node_nested_ind; try done.
  intros [(f & o & v & -> & Ho)|Hitems]%parsed_cases.
  - change (lookup_value data (NList [NField f; NStr o; NStr v]))
      with (field_value_lookup [NField f; NStr o; NStr v] data).
    rewrite lookup_triple by done.
    unfold resolves. cbn [Spec.fields map concat app forallb].
    destruct (data !! field f) as [x|] eqn:Hx.
    + rewrite bool_decide_eq_true_2 by eauto. cbn [andb].
      destruct (op_lookup_operator o Ho) as (g & _ & Hcmp).
      destruct (Hcmp (str x) v) as (r & -> & _). eauto.
    + rewrite bool_decide_eq_false_2; [done|]. by intros [? [=]].
  - cbn [lookup_value]. by apply loop_items.
Qed.

End substitution.

(** ** The shape of the trees the grammar builds *)

Section shape.
Import PP Grammar.

Ltac inv_bind H :=
  let a := fresh "t" in let st := fresh "st" in
  let H1 := fresh "H" in
  apply bind_Ok in H as ([a st] & H1 & H); cbn beta iota in H.

Lemma parsed_item_ok n : Spec.parsed n = true → item_ok n = true.
Proof. by destruct n. Qed.

Lemma single_items t : single t → items t.
Proof.
  intros (n & -> & Hn). unfold items. cbn. by rewrite parsed_item_ok.
Qed.

Lemma items_app t1 t2 : items t1 → items t2 → items (t1 ++ t2).
Proof. unfold items. rewrite forallb_app. by intros -> ->. Qed.

Lemma yields_impl {A} (P Q : A → Prop) p :
  (∀ t, P t → Q t) → yields P p → yields Q p.
Proof. intros HPQ Hp st t st' H. eauto. Qed.

Lemma yields_text p : yields items (text p NStr).
Proof.
  intros st t st' H. unfold text in H. inv_bind H. injection H as <- <-.
  unfold items. apply forallb_forall. by intros x (s & <- & _)%in_map_iff.
Qed.

Lemma yields_And a b : yields items a → yields items b → yields items (And a b).
Proof.
  intros Ha Hb st t st' H. unfold And in H.
  inv_bind H. inv_bind H. injection H as <- <-.
  apply items_app; eauto.
Qed.

Lemma yields_MatchFirst {A} (Q : A → Prop) a b :
  yields Q a → yields Q b → yields Q (MatchFirst a b).
Proof.
  intros Ha Hb st t st' H. unfold MatchFirst in H.
  destruct (a st) as [[]|[]] eqn:E; try done; eauto.
  injection H as <- <-. eauto.
Qed.

Lemma yields_FollowedBy {A} (e : parser A) :
  yields (λ t : list node, t = []) (FollowedBy e).
Proof.
  intros st t st' H. unfold FollowedBy in H. inv_bind H. by injection H as <- <-.
Qed.

Lemma yields_Suppress {A} (e : parser (list A)) :
  yields (λ t : list node, t = []) (Suppress e).
Proof.
  intros st t st' H. unfold Suppress in H. inv_bind H. by injection H as <- <-.
Qed.

Lemma yields_Opt e : yields items e → yields items (Opt e).
Proof.
  intros He st t st' H. unfold Opt in H.
  destruct (e st) as [[]|[]] eqn:E; try done; injection H as <- <-;
    [eauto|done].
Qed.

Lemma yields_many fuel e : yields items e → yields items (many fuel e).
Proof.
  intros He. induction fuel as [|fuel IH]; intros st t st' H; [done|].
  cbn [many] in H. destruct (e st) as [[t1 st1]|[]] eqn:E; try done.
  - inv_bind H. injection H as <- <-. apply items_app; eauto.
  - by injection H as <- <-.
Qed.

Lemma yields_OneOrMore fuel e : yields items e → yields items (OneOrMore fuel e).
Proof. intros He. apply yields_And; [done|by apply yields_many]. Qed.

Lemma yields_Group e : yields items e → yields single (Group e).
Proof.
  intros He st t st' H. unfold Group in H. inv_bind H. injection H as <- <-.
  eexists; split; [done|]. apply parsed_items. by eapply He.
Qed.

Lemma yields_out_of_fuel {A} (Q : A → Prop) : yields Q out_of_fuel.
Proof. by intros st t st' H. Qed.

Lemma yields_And_gen {A} (P Q R : list A → Prop) a b :
  yields P a → yields Q b → (∀ t1 t2, P t1 → Q t2 → R (t1 ++ t2)) →
  yields R (And a b).
Proof.
  intros Ha Hb HR st t st' H. unfold And in H.
  inv_bind H. inv_bind H. injection H as <- <-. eauto.
Qed.

Lemma yields_text_gen (P : list string → Prop) p :
  yields P p → yields (λ t, ∃ t0, t = map NStr t0 ∧ P t0) (text p NStr).
Proof.
  intros Hp st t st' H. unfold text in H. inv_bind H. injection H as <- <-.
  eauto.
Qed.

(** *** Terminals return one token *)

Lemma QuotedString_token q e st t st' :
  QuotedString q e st = Ok (t, st') → ∃ s, t = [s].
Proof.
  unfold QuotedString. destruct (rest (preParse st)) as [|c s]; [done|].
  destruct (Ascii.eqb c q); [|done].
  destruct (span _ s) as [body [|c' r]]; [done|].
  destruct (Ascii.eqb c' e); [|done]. intros [= <- <-]. eauto.
Qed.

Lemma value_token : yields (λ t, ∃ s, t = [s]) value.
Proof.
  intros st t st'. unfold value, MatchFirst.
  destruct (QuotedString "034" "034" st) as [[]|[]] eqn:E; try done.
  - intros [= <- <-]. by eapply QuotedString_token.
  - apply QuotedString_token.
Qed.

Lemma longest_match_elem strs s sym :
  longest_match strs s = Some sym → sym ∈ strs.
Proof.
  unfold longest_match.
  assert (∀ best, foldl (λ best sym,
           if starts_with id sym s then
             match best with
             | Some b =>
                 if (String.length b <? String.length sym)%nat
                 then Some sym else best
             | None => Some sym
             end
           else best) best strs = Some sym → best = Some sym ∨ sym ∈ strs) as H.
  { induction strs as [|x strs IH]; intros best; cbn [foldl]; [by left|].
    intros [E|E]%IH; [|right; by right].
    destruct (starts_with id x s); [|by left].
    destruct best as [b|].
    - destruct (_ <? _)%nat; [injection E as ->; right; left|by left].
    - injection E as ->. right; left. }
  intros [?|?]%H; done.
Qed.

Lemma operator_token :
  yields (λ t, ∃ o, t = [o] ∧ Spec.is_operator o = true) operator.
Proof.
  intros st t st'. unfold operator, oneOf.
  destruct (longest_match _ _) as [sym|] eqn:E; [|done].
  intros [= <- <-]. eexists; split; [done|].
  apply bool_decide_eq_true. by eapply longest_match_elem.
Qed.

Lemma yields_parse_action e fn :
  (∀ t v, fn t = Ok v → ∃ f, v = NField f) →
  yields atom (set_parse_action (A:=string) e fn).
Proof.
  intros Hfn st t st' H. unfold set_parse_action in H. inv_bind H.
  destruct (fn t0) as [v|[]] eqn:E; try done. injection H as <- <-.
  destruct (Hfn _ _ E) as [f ->]. left. eauto.
Qed.

Ltac inv_action :=
  intros t v H;
  repeat (apply bind_Ok in H as (? & _ & H)); injection H as <-; eauto.

Lemma yields_field : yields atom field.
Proof.
  unfold field.
  repeat (apply yields_MatchFirst;
          [apply yields_parse_action; unfold create_my_event_check,
             create_my_event_field, create_my_check, create_my_field; inv_action|]).
  intros st t st' H.
  apply (yields_text_gen _ _ value_token) in H as (w & -> & v & ->).
  right. eauto.
Qed.

Lemma yields_expression : yields single expression.
Proof.
  unfold expression. intros st t st' H. unfold Group in H. inv_bind H.
  injection H as <- <-. revert H0.
  apply (yields_And_gen atom
           (λ t, ∃ o v, t = [NStr o; NStr v] ∧ Spec.is_operator o = true)
           (λ t, single [NList t]));
    [apply yields_field| |].
  - apply (yields_And_gen
             (λ t, ∃ o, t = [NStr o] ∧ Spec.is_operator o = true)
             (λ t, ∃ v, t = [NStr v])).
    + intros st1 t1 st1' H.
      apply (yields_text_gen _ _ operator_token) in H as (w & -> & o & -> & Ho).
      eauto.
    + intros st1 t1 st1' H.
      apply (yields_text_gen _ _ value_token) in H as (w & -> & v & ->).
      eauto.
    + intros t1 t2 (o & -> & Ho) (v & ->). eauto.
  - intros t1 t2 Hatom (o & v & -> & Ho).
    destruct Hatom as [[f ->]|[s ->]]; eexists; (split; [done|]); done.
Qed.

(** *** The operator levels *)

Lemma yields_binary_left fuel opExpr lastExpr :
  yields items opExpr → yields single lastExpr →
  yields single (binary_left fuel opExpr lastExpr).
Proof.
  intros Hop Hlast.
  assert (yields items lastExpr) as Hlast'
    by (eapply yields_impl; [apply single_items|done]).
  apply yields_MatchFirst; [|done].
  intros st t st' H. unfold And at 1 in H. inv_bind H. inv_bind H.
  injection H as <- <-.
  apply yields_FollowedBy in H0 as ->. cbn [app].
  revert H1. apply yields_Group.
  apply yields_And; [done|]. apply yields_OneOrMore. by apply yields_And.
Qed.

Lemma yields_unary_right fuel opExpr lastExpr :
  yields items opExpr → yields single lastExpr →
  yields single (unary_right fuel opExpr lastExpr).
Proof.
  intros Hop Hlast.
  assert (∀ thisExpr, yields single thisExpr →
    yields single
      ((FollowedBy (opExpr +++ thisExpr) +++ Group (Opt opExpr +++ thisExpr))
       <|> lastExpr)) as Hstep.
  { intros thisExpr Hthis. apply yields_MatchFirst; [|done].
    intros st t st' H. unfold And at 1 in H. inv_bind H. inv_bind H.
    injection H as <- <-.
    apply yields_FollowedBy in H0 as ->. cbn [app].
    revert H1. apply yields_Group.
    apply yields_And; [by apply yields_Opt|].
    eapply yields_impl; [apply single_items|done]. }
  induction fuel as [|fuel IH]; cbn [unary_right]; apply Hstep;
    [apply yields_out_of_fuel|done].
Qed.

Lemma yields_levels fuel op_list : ∀ lastExpr,
  Forall (λ d, yields items d.1.1) op_list →
  yields single lastExpr → yields single (levels fuel lastExpr op_list).
Proof.
  induction op_list as [|[[opExpr arity] assoc] op_list IH];
    intros lastExpr Hops Hlast; [done|].
  apply Forall_cons in Hops as [Hop Hops]. cbn [levels].
  apply IH; [done|].
  destruct arity as [|[|[|]]], assoc; try done.
  - by apply yields_unary_right.
  - by apply yields_binary_left.
Qed.

Lemma yields_infix_notation fuel base_expr op_list :
  Forall (λ d, yields items d.1.1) op_list →
  yields single base_expr →
  yields single (infix_notation fuel base_expr op_list).
Proof.
  intros Hops Hbase.
  assert (∀ ret, yields single ret →
    yields single (base_expr
                   <|> (Suppress (Literal "(") +++ ret +++ Suppress (Literal ")"))))
    as Hstep.
  { intros ret Hret. apply yields_MatchFirst; [done|].
    apply (yields_And_gen (λ t, t = []) single single);
      [apply yields_Suppress| |by intros ? ? -> ?].
    apply (yields_And_gen single (λ t, t = []) single);
      [done|apply yields_Suppress|].
    intros t1 t2 H ->. by rewrite app_nil_r. }
  induction fuel as [|fuel IH]; cbn [infix_notation];
    (apply yields_levels; [done|]); apply Hstep;
    [apply yields_out_of_fuel|done].
Qed.

(** Whatever the text, a successful parse returns one tree of the grammar's
    shape. *)
Lemma create_ast_as_list_parsed s ast :
  create_ast_as_list s = Ok ast → ∃ n, ast = [n] ∧ Spec.parsed n = true.
Proof.
  unfold create_ast_as_list, parse_string. intros H. inv_bind H.
  injection H as <-. revert H0. apply yields_infix_notation.
  - repeat constructor; apply yields_text.
  - apply yields_expression.
Qed.

End shape.

(** ** Text *)

Lemma app_String c s r : String c s +:+ r = String c (s +:+ r).
Proof. reflexivity. Qed.

Lemma app_empty r : "" +:+ r = r.
Proof. reflexivity. Qed.

Lemma app_assoc a b c : (a +:+ b) +:+ c = a +:+ (b +:+ c).
Proof. induction a as [|x a IH]; [done|]. by rewrite !app_String, IH. Qed.

Lemma app_length a b :
  String.length (a +:+ b) = (String.length a + String.length b)%nat.
Proof. induction a as [|x a IH]; [done|]. rewrite app_String. simpl. by rewrite IH. Qed.

(** Bring a concatenation into the form [String c1 (String c2 (... +:+ ...))]. *)
Ltac norm_text :=
  repeat (rewrite app_assoc || rewrite app_String || rewrite app_empty).
Ltac norm_text_in H :=
  repeat (rewrite app_assoc in H || rewrite app_String in H
          || rewrite app_empty in H).

Section text.
Import Spec.

Lemma all_chars_app f a b :
  all_chars f (a +:+ b) = all_chars f a && all_chars f b.
Proof.
  induction a as [|x a IH]; [done|].
  rewrite app_String. cbn [all_chars]. by rewrite IH, andb_assoc.
Qed.

Lemma all_chars_impl (f g : ascii → bool) s :
  (∀ c, f c = true → g c = true) → all_chars f s = true → all_chars g s = true.
Proof.
  intros Hfg. induction s as [|x s IH]; [done|]. cbn [all_chars].
  intros [Hx Hs]%andb_prop. by rewrite (Hfg _ Hx), IH.
Qed.

End text.

(** Facts about a character that are decided by going through all 256. *)
Ltac by_cases_on_char c :=
  destruct c as [[] [] [] [] [] [] [] []]; vm_compute; congruence.

Section terminals.
Import PP Grammar Spec.

Lemma span_app f w r :
  all_chars f w = true →
  match r with String c _ => f c = false | "" => True end →
  span f (w +:+ r) = (w, r).
Proof.
  intros Hw Hr. induction w as [|x w IH].
  - rewrite app_empty. destruct r as [|c r]; [done|]. cbn [span]. by rewrite Hr.
  - cbn [all_chars] in Hw. apply andb_prop in Hw as [Hx Hw].
    rewrite app_String. cbn [span]. by rewrite Hx, (IH Hw).
Qed.

Lemma convert_whitespace_escapes_plain s :
  all_chars (λ c, negb (Ascii.eqb c "\")) s = true →
  convert_whitespace_escapes s = s.
Proof.
  induction s as [|x s IH]; [done|]. cbn [all_chars].
  intros [Hx Hs]%andb_prop. specialize (IH Hs).
  cbn [convert_whitespace_escapes]. rewrite IH.
  destruct (Ascii.eqb_spec x "\") as [->|Hne]; [done|].
  destruct x as [[] [] [] [] [] [] [] []]; try done.
Qed.

Lemma expandtabs_plain s column :
  all_chars (λ c, negb (Ascii.eqb c "009")) s = true →
  expandtabs_from column s = s.
Proof.
  revert column. induction s as [|x s IH]; intros column; [done|].
  cbn [all_chars]. intros [Hx Hs]%andb_prop.
  cbn [expandtabs_from]. apply negb_true_iff in Hx. rewrite Hx.
  destruct (_ || _); by rewrite IH.
Qed.

Lemma preParse_idemp st : preParse (preParse st) = preParse st.
Proof.
  destruct st as [p s]. unfold preParse. cbn [prev rest].
  revert p. induction s as [|c s IH]; intros p; [done|].
  cbn [skip_whitespace]. destruct (white_chars c) eqn:E; [apply IH|].
  cbn [prev rest skip_whitespace]. by rewrite E.
Qed.

Lemma preParse_char p c s :
  white_chars c = false → preParse (mk_pstate p (String c s)) = mk_pstate p (String c s).
Proof. intros H. unfold preParse. cbn. by rewrite H. Qed.

(** *** [QuotedString] *)

Lemma QuotedString_match q e st p body r :
  preParse st = mk_pstate p (String q (body +:+ String e r)) →
  all_chars (quotable e) body = true →
  QuotedString q e st = Ok ([body], mk_pstate (Some e) r).
Proof.
  intros Hst Hbody. unfold QuotedString. rewrite Hst. cbn [rest].
  rewrite Ascii.eqb_refl.
  rewrite (span_app _ body (String e r)).
  - rewrite Ascii.eqb_refl, convert_whitespace_escapes_plain; [done|].
    revert Hbody. apply all_chars_impl. by intros c [_ ?]%andb_prop.
  - revert Hbody. apply all_chars_impl. by intros c [? _]%andb_prop.
  - by rewrite Ascii.eqb_refl.
Qed.

Lemma QuotedString_mismatch q e st p c s :
  preParse st = mk_pstate p (String c s) → Ascii.eqb c q = false →
  QuotedString q e st = Err ParseException.
Proof. intros Hst Hc. unfold QuotedString. by rewrite Hst; cbn [rest]; rewrite Hc. Qed.

(** *** [Word] *)

Lemma Word_match chars st p w r :
  preParse st = mk_pstate p (w +:+ r) →
  w ≠ "" → all_chars chars w = true →
  match r with String c _ => chars c = false | "" => True end →
  Word chars st = Ok ([w], mk_pstate (last_char None w) r).
Proof.
  intros Hst Hne Hw Hr. unfold Word. rewrite Hst. cbn [rest].
  rewrite (span_app _ _ _ Hw Hr). by destruct w.
Qed.

(** *** [Literal] *)

Lemma advance_app m p r :
  advance (String.length m) (mk_pstate p (m +:+ r)) = mk_pstate (last_char p m) r.
Proof.
  revert p. induction m as [|x m IH]; intros p.
  - rewrite app_empty. cbn. by destruct r.
  - rewrite app_String. cbn [String.length advance rest last_char]. apply IH.
Qed.

Lemma starts_with_app m r : starts_with id m (m +:+ r) = true.
Proof.
  induction m as [|x m IH]; [done|]. rewrite app_String. cbn.
  by rewrite Ascii.eqb_refl.
Qed.

Lemma Literal_match m st p r :
  preParse st = mk_pstate p (m +:+ r) →
  Literal m st = Ok ([m], mk_pstate (last_char p m) r).
Proof.
  intros Hst. unfold Literal. rewrite Hst. cbn [rest].
  by rewrite starts_with_app, advance_app.
Qed.

Lemma Literal_mismatch m st p s :
  preParse st = mk_pstate p s → starts_with id m s = false →
  Literal m st = Err ParseException.
Proof. intros Hst Hs. unfold Literal. by rewrite Hst; cbn [rest]; rewrite Hs. Qed.

(** *** Character classes *)

Lemma alphabet_quotable e c :
  alphabet_chars e = false → alphabet_chars c = true → quotable e c = true.
Proof.
  intros He Hc. unfold quotable.
  destruct (Ascii.eqb_spec c e) as [->|_]; [congruence|]. clear e He.
  revert Hc. by_cases_on_char c.
Qed.

Lemma alphabet_not_white c : alphabet_chars c = true → white_chars c = false.
Proof. by_cases_on_char c. Qed.

Lemma alphabet_not_tab c :
  alphabet_chars c = true → negb (Ascii.eqb c "009") = true.
Proof. by_cases_on_char c. Qed.

Lemma plain_quotable c : plain_char c = true → quotable "'" c = true.
Proof. by_cases_on_char c. Qed.

Lemma plain_not_tab c : plain_char c = true → negb (Ascii.eqb c "009") = true.
Proof. by_cases_on_char c. Qed.

Lemma identifier_inv s :
  identifier s = true → s ≠ "" ∧ all_chars alphabet_chars s = true.
Proof.
  unfold identifier. intros [Hne Hs]%andb_prop. split; [|done].
  intros ->. done.
Qed.

End terminals.

(** ** Parsing a comparison *)

Section comparison.
Import PP Spec.

(** Reduce the sequencing of results, nothing else. *)
Ltac run_bind := cbn [mbind result_bind app].

Lemma identifier_quotable e s :
  Grammar.alphabet_chars e = false → identifier s = true →
  all_chars (quotable e) s = true.
Proof.
  intros He [_ Hs]%identifier_inv. revert Hs.
  apply all_chars_impl. intros c. by apply alphabet_quotable.
Qed.

Lemma identifier_head s r :
  identifier s = true →
  ∃ c t, s +:+ r = String c t ∧ white_chars c = false.
Proof.
  intros [Hne Hs]%identifier_inv. destruct s as [|c s]; [done|].
  cbn [all_chars] in Hs. apply andb_prop in Hs as [Hc _].
  exists c, (s +:+ r). split; [done|]. by apply alphabet_not_white.
Qed.

Lemma preParse_identifier p s r :
  identifier s = true →
  preParse (mk_pstate p (s +:+ r)) = mk_pstate p (s +:+ r).
Proof.
  intros (c & t & -> & Hc)%(identifier_head _ r). by apply preParse_char.
Qed.

(** [lbrace + alphabet + checkbox + rbrace] on [[field(option)]]. *)
Lemma brace_check_match st p fld opt r :
  preParse st = mk_pstate p (String "[" (fld +:+ String "(" (opt +:+ String ")" (String "]" r)))) →
  identifier fld = true → identifier opt = true →
  (Grammar.lbrace +++ Grammar.alphabet +++ Grammar.checkbox +++ Grammar.rbrace) st
  = Ok ([fld; opt], mk_pstate (Some "]"%char) r).
Proof.
  intros Hst Hfld Hopt. unfold And, Grammar.lbrace, Grammar.rbrace, Suppress.
  rewrite (Literal_match "[" st p _ Hst). run_bind.
  unfold Grammar.alphabet.
  erewrite Word_match;
    [|by apply preParse_identifier|by apply identifier_inv..|done].
  run_bind. unfold Grammar.checkbox.
  erewrite QuotedString_match;
    [|by apply preParse_char|by apply identifier_quotable].
  run_bind.
  erewrite (Literal_match "]" _ _ r); [done|]. by apply preParse_char.
Qed.

(** The same on [[field]]: there is no checkbox. *)
Lemma brace_check_bare st p fld r :
  preParse st = mk_pstate p (String "[" (fld +:+ String "]" r)) →
  identifier fld = true →
  (Grammar.lbrace +++ Grammar.alphabet +++ Grammar.checkbox +++ Grammar.rbrace) st = Err ParseException.
Proof.
  intros Hst Hfld. unfold And, Grammar.lbrace, Grammar.rbrace, Suppress.
  rewrite (Literal_match "[" st p _ Hst). run_bind.
  unfold Grammar.alphabet.
  erewrite Word_match;
    [|by apply preParse_identifier|by apply identifier_inv..|done].
  run_bind. unfold Grammar.checkbox.
  erewrite QuotedString_mismatch; [done|by apply preParse_char|done].
Qed.

(** The same in front of anything but a bracket. *)
Lemma brace_check_mismatch st p c s :
  preParse st = mk_pstate p (String c s) → Ascii.eqb c "[" = false →
  (Grammar.lbrace +++ Grammar.alphabet +++ Grammar.checkbox +++ Grammar.rbrace) st = Err ParseException.
Proof.
  intros Hst Hc. unfold And, Grammar.lbrace, Suppress.
  erewrite Literal_mismatch; [done|done|].
  cbn [starts_with]. unfold id. by rewrite Ascii.eqb_sym, Hc.
Qed.

Lemma operator_head o r :
  is_operator o = true →
  ∃ c t, o +:+ r = String c t ∧ operator_char c = true.
Proof.
  intros [-> | [-> | [-> | [-> | [-> | ->]]]]]%is_operator_cases;
    norm_text; eauto.
Qed.

Lemma operator_char_not_white c : operator_char c = true → white_chars c = false.
Proof. by_cases_on_char c. Qed.

Lemma operator_char_not_bracket c :
  operator_char c = true → Ascii.eqb c "[" = false.
Proof. by_cases_on_char c. Qed.

(** The four forms of a field reference, in front of an operator. *)
Lemma field_reference_parse st p f c s :
  preParse st = mk_pstate p (myField_str f +:+ String c s) →
  field_reference f = true → operator_char c = true →
  Grammar.field st = Ok ([NField f], mk_pstate (Some "]"%char) (String c s)).
Proof.
  intros Hst [[Hfld Hev]%andb_prop Hopt]%andb_prop Hc.
  pose proof (operator_char_not_white _ Hc) as Hws.
  pose proof (operator_char_not_bracket _ Hc) as Hbr.
  destruct f as [fld [ev|] [opt|]]; cbn [field event check] in *;
    unfold myField_str in Hst; cbn [field event check truthy str_opt] in Hst.
  - (* [event][field(option)] *)
    cbn [optional_identifier] in Hev, Hopt.
    destruct (identifier_inv _ Hev) as [Hev' _].
    destruct (identifier_inv _ Hopt) as [Hopt' _].
    apply String.eqb_neq in Hev', Hopt'. rewrite Hev', Hopt' in Hst.
    cbn [negb] in Hst. norm_text_in Hst.
    unfold Grammar.field, MatchFirst, Grammar.varcheck_in_event, set_parse_action.
    unfold And at 1. unfold Grammar.event.
    erewrite QuotedString_match; [|done|by apply identifier_quotable].
    run_bind.
    erewrite brace_check_match; [|by apply preParse_char|done..].
    done.
  - (* [event][field] *)
    cbn [optional_identifier] in Hev.
    destruct (identifier_inv _ Hev) as [Hev' _].
    apply String.eqb_neq in Hev'. rewrite Hev' in Hst.
    cbn [negb] in Hst. norm_text_in Hst.
    unfold Grammar.field, MatchFirst, Grammar.varcheck_in_event, set_parse_action.
    unfold And at 1. unfold Grammar.event.
    erewrite QuotedString_match; [|done|by apply identifier_quotable].
    run_bind.
    erewrite brace_check_bare; [|by apply preParse_char|done].
    run_bind.
    unfold Grammar.variable_in_event, set_parse_action, And, Grammar.event.
    erewrite QuotedString_match; [|done|by apply identifier_quotable].
    run_bind.
    erewrite QuotedString_match;
      [|by apply preParse_char|by apply identifier_quotable].
    done.
  - (* [field(option)] *)
    cbn [optional_identifier] in Hopt.
    destruct (identifier_inv _ Hopt) as [Hopt' _].
    apply String.eqb_neq in Hopt'. rewrite Hopt' in Hst.
    cbn [negb] in Hst. norm_text_in Hst.
    assert (all_chars (quotable "]") (fld +:+ String "(" (opt +:+ ")")) = true)
      as Hbody.
    { rewrite all_chars_app, identifier_quotable by done.
      cbn [all_chars andb]. rewrite all_chars_app, identifier_quotable by done.
      done. }
    assert (preParse st = mk_pstate p
              (String "[" ((fld +:+ String "(" (opt +:+ ")")) +:+ String "]" (String c s))))
      as Hst' by (by norm_text).
    unfold Grammar.field, MatchFirst, Grammar.varcheck_in_event, set_parse_action.
    unfold And at 1. unfold Grammar.event.
    erewrite QuotedString_match; [|exact Hst'|done].
    run_bind.
    erewrite brace_check_mismatch; [|by apply preParse_char|done].
    run_bind.
    unfold Grammar.variable_in_event, set_parse_action, And, Grammar.event.
    erewrite QuotedString_match; [|exact Hst'|done].
    run_bind.
    erewrite QuotedString_mismatch; [|by apply preParse_char|done].
    run_bind.
    unfold Grammar.variable_in_check, set_parse_action.
    erewrite brace_check_match; [|done..].
    done.
  - (* [field] *)
    norm_text_in Hst.
    unfold Grammar.field, MatchFirst, Grammar.varcheck_in_event, set_parse_action.
    unfold And at 1. unfold Grammar.event.
    erewrite QuotedString_match; [|done|by apply identifier_quotable].
    run_bind.
    erewrite brace_check_mismatch; [|by apply preParse_char|done].
    run_bind.
    unfold Grammar.variable_in_event, set_parse_action, And, Grammar.event.
    erewrite QuotedString_match; [|done|by apply identifier_quotable].
    run_bind.
    erewrite QuotedString_mismatch; [|by apply preParse_char|done].
    run_bind.
    unfold Grammar.variable_in_check, set_parse_action.
    erewrite brace_check_bare; [|done..].
    run_bind.
    unfold Grammar.variable, set_parse_action.
    erewrite QuotedString_match; [|done|by apply identifier_quotable].
    done.
Qed.

(** An operator in front of a quote. *)
Lemma operator_match p o r :
  is_operator o = true →
  ∃ p', Grammar.operator (mk_pstate p (o +:+ String "'" r))
        = Ok ([o], mk_pstate p' (String "'" r)).
Proof.
  intros [-> | [-> | [-> | [-> | [-> | ->]]]]]%is_operator_cases;
    eexists; reflexivity.
Qed.

(** A literal between single quotes. *)
Lemma value_match p v r :
  plain_text v = true →
  Grammar.value (mk_pstate p (String "'" (v +:+ String "'" r)))
  = Ok ([v], mk_pstate (Some "'"%char) r).
Proof.
  intros Hv. unfold Grammar.value, MatchFirst.
  erewrite QuotedString_mismatch; [|by apply preParse_char|done].
  erewrite QuotedString_match; [done|by apply preParse_char|].
  revert Hv. apply all_chars_impl, plain_quotable.
Qed.

(** A well-formed comparison is parsed to its leaf triple, whatever
    follows it. *)
Lemma expression_comparison st p c r :
  preParse st = mk_pstate p (comparison_text c +:+ r) →
  well_formed c = true →
  Grammar.expression st = Ok ([leaf c], mk_pstate (Some "'"%char) r).
Proof.
  intros Hst [[Hf Ho]%andb_prop Hv]%andb_prop.
  unfold comparison_text in Hst. rewrite !app_assoc in Hst.
  destruct (operator_head (op c) ("'" +:+ literal c +:+ "'" +:+ r) Ho)
    as (x & t & Hx & Hxc).
  rewrite Hx in Hst.
  unfold Grammar.expression, Group. unfold And at 1.
  rewrite (field_reference_parse _ _ _ _ _ Hst Hf Hxc). run_bind.
  rewrite <- Hx. norm_text.
  unfold And, text.
  destruct (operator_match (Some "]"%char) (op c) (literal c +:+ String "'" r) Ho)
    as [p' ->].
  run_bind. rewrite value_match by done. done.
Qed.

End comparison.

(** ** The operator levels on comparisons *)

Section levels.
Import PP Spec.

Ltac run_bind := cbn [mbind result_bind app].

Lemma grammar_levels fuel :
  Grammar.redcap_branching_logic_grammar fuel = level4 fuel.
Proof. by destruct fuel. Qed.

(** *** Combinators *)

Lemma text_Err p st e : p st = Err e → text p NStr st = Err e.
Proof. unfold text. by intros ->. Qed.

Lemma text_Ok p st t st' :
  p st = Ok (t, st') → text p NStr st = Ok (map NStr t, st').
Proof. unfold text. by intros ->. Qed.

Lemma unary_right_skip fuel opExpr lastExpr st :
  opExpr st = Err ParseException →
  Grammar.unary_right fuel opExpr lastExpr st = lastExpr st.
Proof.
  intros Hop. destruct fuel; cbn [Grammar.unary_right];
    unfold MatchFirst, And, FollowedBy; by rewrite Hop.
Qed.

Lemma unary_right_apply fuel opExpr lastExpr st c st1 x st2 :
  opExpr st = Ok (c, st1) →
  Grammar.unary_right fuel opExpr lastExpr st1 = Ok (x, st2) →
  Grammar.unary_right (S fuel) opExpr lastExpr st = Ok ([NList (c ++ x)], st2).
Proof.
  intros Hop Hthis. cbn [Grammar.unary_right].
  unfold MatchFirst, And, FollowedBy, Group, Opt.
  rewrite Hop. run_bind. rewrite Hthis. run_bind. rewrite Hop. run_bind.
  by rewrite Hthis.
Qed.

Lemma binary_left_single fuel opExpr lastExpr st x st1 :
  lastExpr st = Ok (x, st1) → opExpr st1 = Err ParseException →
  Grammar.binary_left fuel opExpr lastExpr st = Ok (x, st1).
Proof.
  intros Hlast Hop. unfold Grammar.binary_left, MatchFirst, And, FollowedBy.
  rewrite Hlast. run_bind. by rewrite Hop.
Qed.

Lemma binary_left_pair fuel opExpr lastExpr st x st1 c st2 y st3 :
  lastExpr st = Ok (x, st1) → opExpr st1 = Ok (c, st2) →
  lastExpr st2 = Ok (y, st3) → opExpr st3 = Err ParseException →
  Grammar.binary_left (S (S fuel)) opExpr lastExpr st
  = Ok ([NList (x ++ c ++ y)], st3).
Proof.
  intros Hx Hc Hy Hend.
  unfold Grammar.binary_left, MatchFirst, And, FollowedBy, Group, OneOrMore, And.
  rewrite Hx. run_bind. rewrite Hc. run_bind. rewrite Hy. run_bind.
  rewrite Hx. run_bind. rewrite Hc. run_bind. rewrite Hy. run_bind.
  cbn [many]. rewrite Hend. run_bind. by rewrite app_nil_r.
Qed.

(** *** Keywords and operators around a comparison *)

Lemma app_empty_r s : s +:+ "" = s.
Proof. induction s as [|x s IH]; [done|]. by rewrite app_String, IH. Qed.

Lemma comparison_head c : ∃ t, comparison_text c = String "[" t.
Proof.
  unfold comparison_text, myField_str.
  destruct (truthy (event (lhs c))), (truthy (check (lhs c))); norm_text; eauto.
Qed.

Lemma preParse_comparison p c r :
  preParse (mk_pstate p (comparison_text c +:+ r))
  = mk_pstate p (comparison_text c +:+ r).
Proof. destruct (comparison_head c) as [t ->]. done. Qed.

Lemma preParse_space_comparison p c r :
  preParse (mk_pstate p (String " " (comparison_text c +:+ r)))
  = mk_pstate (Some " "%char) (comparison_text c +:+ r).
Proof. destruct (comparison_head c) as [t ->]. done. Qed.

Lemma not_mismatch st p c r :
  preParse st = mk_pstate p (comparison_text c +:+ r) →
  text Grammar.not_ NStr st = Err ParseException.
Proof.
  intros Hst. apply text_Err. unfold Grammar.not_, Keyword. rewrite Hst.
  destruct (comparison_head c) as [t ->]. done.
Qed.

(** *** A comparison on its own *)

Lemma level1_comparison fuel st p c r :
  preParse st = mk_pstate p (comparison_text c +:+ r) →
  well_formed c = true →
  level1 fuel st = Ok ([leaf c], mk_pstate (Some "'"%char) r).
Proof.
  intros Hst Hc. unfold level1.
  rewrite unary_right_skip by (by eapply not_mismatch).
  unfold level0, MatchFirst. by erewrite expression_comparison.
Qed.

Lemma level2_comparison fuel st p c r :
  preParse st = mk_pstate p (comparison_text c +:+ r) →
  well_formed c = true → no_operator r →
  level2 fuel st = Ok ([leaf c], mk_pstate (Some "'"%char) r).
Proof.
  intros Hst Hc Hr. unfold level2.
  erewrite binary_left_single;
    [done|by eapply level1_comparison|by apply text_Err].
Qed.

Lemma level3_comparison fuel st p c r :
  preParse st = mk_pstate p (comparison_text c +:+ r) →
  well_formed c = true → no_operator r → no_and r →
  level3 fuel st = Ok ([leaf c], mk_pstate (Some "'"%char) r).
Proof.
  intros Hst Hc Hr Hand. unfold level3.
  erewrite binary_left_single;
    [done|by eapply level2_comparison|by apply text_Err].
Qed.

Lemma level4_comparison fuel st p c r :
  preParse st = mk_pstate p (comparison_text c +:+ r) →
  well_formed c = true → no_operator r → no_and r → no_or r →
  level4 fuel st = Ok ([leaf c], mk_pstate (Some "'"%char) r).
Proof.
  intros Hst Hc Hr Hand Hor. unfold level4.
  erewrite binary_left_single;
    [done|by eapply level3_comparison|by apply text_Err].
Qed.

(** *** Negation *)

Lemma not_match sp t :
  sp = "" ∨ sp = " " →
  ∃ st1 p, Grammar.not_ (mk_pstate None ("!" +:+ sp +:+ String "[" t))
           = Ok (["!"], st1)
           ∧ preParse st1 = mk_pstate p (String "[" t).
Proof. intros [-> | ->]; eexists _, _; split; reflexivity. Qed.

Lemma level4_negation fuel sp c :
  sp = "" ∨ sp = " " → well_formed c = true →
  level4 (S fuel) (mk_pstate None ("!" +:+ sp +:+ comparison_text c))
  = Ok ([NList [NStr "!"; leaf c]], mk_pstate (Some "'"%char) "").
Proof.
  intros Hsp Hc.
  assert (level1 (S fuel) (mk_pstate None ("!" +:+ sp +:+ comparison_text c))
          = Ok ([NList [NStr "!"; leaf c]], mk_pstate (Some "'"%char) ""))
    as H1.
  { destruct (comparison_head c) as [t Ht].
    destruct (not_match sp t Hsp) as (st1 & p & Hnot & Hst1).
    rewrite <- Ht in Hnot. rewrite <- Ht, <- (app_empty_r (comparison_text c)) in Hst1.
    unfold level1.
    eapply (unary_right_apply _ _ _ _ [NStr "!"] st1 [leaf c]);
      [exact (text_Ok _ _ ["!"] _ Hnot)|].
    rewrite unary_right_skip by (by eapply not_mismatch).
    unfold level0, MatchFirst. by erewrite expression_comparison. }
  unfold level4. erewrite binary_left_single; [reflexivity| |reflexivity].
  unfold level3. erewrite binary_left_single; [reflexivity| |reflexivity].
  unfold level2. erewrite binary_left_single; [reflexivity|exact H1|reflexivity].
Qed.

(** *** [A AND B OR C] *)

Lemma level4_and_or fuel a b c :
  well_formed a = true → well_formed b = true → well_formed c = true →
  level4 (S (S fuel))
    (mk_pstate None (comparison_text a +:+ " AND " +:+ comparison_text b
                     +:+ " OR " +:+ comparison_text c))
  = Ok ([NList [NList [leaf a; NStr "AND"; leaf b]; NStr "OR"; leaf c]],
        mk_pstate (Some "'"%char) "").
Proof.
  intros Ha Hb Hc.
  set (r2 := " OR " +:+ comparison_text c).
  set (r1 := " AND " +:+ comparison_text b +:+ r2).
  assert (level3 (S (S fuel)) (mk_pstate None (comparison_text a +:+ r1))
          = Ok ([NList [leaf a; NStr "AND"; leaf b]], mk_pstate (Some "'"%char) r2))
    as H3.
  { unfold level3.
    eapply (binary_left_pair _ _ _ _ [leaf a] _ [NStr "AND"] _ [leaf b]).
    - eapply level2_comparison; [apply preParse_comparison|done|done].
    - apply (text_Ok _ _ ["AND"]). unfold r1. norm_text. reflexivity.
    - eapply level2_comparison; [apply preParse_space_comparison|done|done].
    - apply text_Err. done. }
  assert (level3 (S (S fuel)) (mk_pstate (Some "R"%char)
                                 (String " " (comparison_text c +:+ "")))
          = Ok ([leaf c], mk_pstate (Some "'"%char) "")) as H3'.
  { eapply level3_comparison; [apply preParse_space_comparison|done..]. }
  unfold level4.
  eapply (binary_left_pair _ _ _ _ [NList [leaf a; NStr "AND"; leaf b]] _
            [NStr "OR"] _ [leaf c]); [exact H3| |exact H3'|].
  - apply (text_Ok _ _ ["OR"]). unfold r2. norm_text.
    rewrite <- (app_empty_r (comparison_text c)) at 1. reflexivity.
  - by apply text_Err.
Qed.

End levels.

(** ** The three stages on comparisons *)

Section stages.
Import PP Spec.

Lemma no_tab_app a b : no_tab a → no_tab b → no_tab (a +:+ b).
Proof. unfold no_tab. rewrite all_chars_app. by intros -> ->. Qed.

Lemma no_tab_identifier s : identifier s = true → no_tab s.
Proof.
  intros [_ Hs]%identifier_inv. revert Hs. apply all_chars_impl, alphabet_not_tab.
Qed.

Lemma no_tab_comparison c : well_formed c = true → no_tab (comparison_text c).
Proof.
  intros [[[[Hfld Hev]%andb_prop Hopt]%andb_prop Ho]%andb_prop Hv]%andb_prop.
  unfold comparison_text, myField_str.
  repeat apply no_tab_app; try done.
  - destruct (event (lhs c)) as [ev|]; cbn [truthy str_opt]; [|done].
    destruct (negb _); [|done].
    repeat apply no_tab_app; try done. by apply no_tab_identifier.
  - destruct (check (lhs c)) as [opt|]; cbn [truthy str_opt].
    + destruct (negb _); repeat apply no_tab_app; try done;
        by apply no_tab_identifier.
    + repeat apply no_tab_app; try done. by apply no_tab_identifier.
  - by destruct (is_operator_cases _ Ho) as [-> | [-> | [-> | [-> | [-> | ->]]]]].
  - revert Hv. apply all_chars_impl, plain_not_tab.
Qed.

(** A text without tabs that the grammar matches with any fuel of two or
    more is parsed to the tokens of that match. *)
Lemma create_ast_run s x st' :
  no_tab s → s ≠ "" →
  (∀ fuel, level4 (S (S fuel)) (mk_pstate None s) = Ok (x, st')) →
  create_ast_as_list s = Ok x.
Proof.
  intros Htab Hne Hrun. unfold create_ast_as_list, Grammar.parse_string.
  unfold expandtabs. rewrite expandtabs_plain by done.
  destruct s as [|c s]; [done|]. cbn [String.length].
  by rewrite grammar_levels, Hrun.
Qed.

Lemma comparison_nonempty c r : comparison_text c +:+ r ≠ "".
Proof. destruct (comparison_head c) as [t ->]. by rewrite app_String. Qed.

Lemma create_ast_comparison c :
  well_formed c = true → create_ast_as_list (comparison_text c) = Ok [leaf c].
Proof.
  intros Hc. eapply create_ast_run.
  - by apply no_tab_comparison.
  - rewrite <- (app_empty_r (comparison_text c)). apply comparison_nonempty.
  - intros fuel.
    eapply (level4_comparison _ _ None c "");
      [|done..].
    rewrite app_empty_r. by destruct (comparison_head c) as [t ->].
Qed.

Lemma create_ast_negation sp c :
  sp = "" ∨ sp = " " → well_formed c = true →
  create_ast_as_list ("!" +:+ sp +:+ comparison_text c)
  = Ok [NList [NStr "!"; leaf c]].
Proof.
  intros Hsp Hc. eapply create_ast_run.
  - apply no_tab_app; [done|].
    apply no_tab_app; [by destruct Hsp as [-> | ->]|by apply no_tab_comparison].
  - done.
  - intros fuel. by apply level4_negation.
Qed.

Lemma create_ast_and_or a b c :
  well_formed a = true → well_formed b = true → well_formed c = true →
  create_ast_as_list (comparison_text a +:+ " AND " +:+ comparison_text b
                      +:+ " OR " +:+ comparison_text c)
  = Ok [NList [NList [leaf a; NStr "AND"; leaf b]; NStr "OR"; leaf c]].
Proof.
  intros Ha Hb Hc. eapply create_ast_run.
  - apply no_tab_app; [by apply no_tab_comparison|].
    apply no_tab_app; [done|].
    apply no_tab_app; [by apply no_tab_comparison|].
    apply no_tab_app; [done|by apply no_tab_comparison].
  - apply comparison_nonempty.
  - intros fuel. by apply level4_and_or.
Qed.

(** *** Substitution of leaves *)

Lemma truth_inv data c b :
  truth data c = Some b →
  ∃ x, data !! field (lhs c) = Some x
       ∧ compare_text (op c) (str x) (literal c) = Some b.
Proof.
  unfold truth. destruct (data !! field (lhs c)) as [x|]; [|done]. eauto.
Qed.

Lemma lookup_value_leaf data c b :
  is_operator (op c) = true → truth data c = Some b →
  Substitution.lookup_value data (leaf c) = Ok [NBool b].
Proof.
  intros Ho (x & Hx & Hb)%truth_inv.
  change (Substitution.lookup_value data (leaf c))
    with (Substitution.field_value_lookup
            [NField (lhs c); NStr (op c); NStr (literal c)] data).
  by rewrite lookup_triple, Hx, Hb.
Qed.

Lemma lookup_value_list data l :
  Substitution.lookup_value data (NList l)
  = Substitution.loop (Substitution.lookup_value data) data l 0 l [].
Proof. reflexivity. Qed.

Lemma loop_nil data results index scratch :
  Substitution.loop (Substitution.lookup_value data) data results index [] scratch
  = Ok scratch.
Proof. reflexivity. Qed.

Lemma loop_list data results index l rest scratch :
  Substitution.loop (Substitution.lookup_value data) data results index
    (NList l :: rest) scratch
  = inner_layer ← Substitution.lookup_value data (NList l);
    Substitution.loop (Substitution.lookup_value data) data results (S index)
      rest (scratch ++ [collapse inner_layer]).
Proof.
  cbn [Substitution.loop].
  destruct (Substitution.lookup_value data (NList l)) as [[|x [|y out]]|e];
    reflexivity.
Qed.

Lemma loop_text data results index s rest scratch :
  Substitution.loop (Substitution.lookup_value data) data results index
    (NStr s :: rest) scratch
  = Substitution.loop (Substitution.lookup_value data) data results (S index) rest
      (if Substitution.is_connective (NStr s) then scratch ++ [NStr s]
       else scratch).
Proof.
  cbn [Substitution.loop]. by destruct (Substitution.is_connective (NStr s)).
Qed.

Lemma loop_leaf data results index c b rest scratch :
  is_operator (op c) = true → truth data c = Some b →
  Substitution.loop (Substitution.lookup_value data) data results index
    (leaf c :: rest) scratch
  = Substitution.loop (Substitution.lookup_value data) data results (S index) rest
      (scratch ++ [NBool b]).
Proof.
  intros Ho Hb. pose proof (lookup_value_leaf _ _ _ Ho Hb) as H.
  unfold leaf in *. by rewrite loop_list, H.
Qed.

Lemma substitute_leaf data c b :
  is_operator (op c) = true → truth data c = Some b →
  substitute [leaf c] data = Ok [NBool b].
Proof.
  intros Ho Hb. unfold substitute, Substitution.field_value_lookup.
  by rewrite lookup_value_list, (loop_leaf _ _ _ _ _ _ _ Ho Hb).
Qed.

Lemma substitute_negation data c :
  substitute [NList [NStr "!"; leaf c]] data = substitute [leaf c] data.
Proof.
  unfold substitute, Substitution.field_value_lookup.
  rewrite !lookup_value_list, loop_list, lookup_value_list, loop_text.
  cbn [Substitution.is_connective String.eqb Ascii.eqb Bool.eqb orb].
  unfold leaf. rewrite !loop_list.
  destruct (Substitution.lookup_value data _) as [[|x [|y out]]|e]; reflexivity.
Qed.

Lemma substitute_connective data l r k bl br :
  is_operator (op l) = true → is_operator (op r) = true →
  truth data l = Some bl → truth data r = Some br →
  k = "AND" ∨ k = "OR" →
  substitute [NList [leaf l; NStr k; leaf r]] data
  = Ok [NList [NBool bl; NStr k; NBool br]].
Proof.
  intros Hl Hr Hbl Hbr Hk. unfold substitute, Substitution.field_value_lookup.
  rewrite lookup_value_list, loop_list, lookup_value_list.
  rewrite (loop_leaf _ _ _ _ _ _ _ Hl Hbl), loop_text.
  assert (Substitution.is_connective (NStr k) = true) as ->
    by (by destruct Hk as [-> | ->]).
  by rewrite (loop_leaf _ _ _ _ _ _ _ Hr Hbr).
Qed.

Lemma substitute_and_or data a b c ba bb bc :
  is_operator (op a) = true → is_operator (op b) = true →
  is_operator (op c) = true →
  truth data a = Some ba → truth data b = Some bb → truth data c = Some bc →
  substitute [NList [NList [leaf a; NStr "AND"; leaf b]; NStr "OR"; leaf c]] data
  = Ok [NList [NList [NBool ba; NStr "AND"; NBool bb]; NStr "OR"; NBool bc]].
Proof.
  intros Ha Hb Hc Hba Hbb Hbc. unfold substitute, Substitution.field_value_lookup.
  rewrite lookup_value_list, loop_list, lookup_value_list.
  rewrite loop_list, lookup_value_list.
  rewrite (loop_leaf _ _ _ _ _ _ _ Ha Hba), loop_text.
  cbn [Substitution.is_connective String.eqb Ascii.eqb Bool.eqb orb].
  rewrite (loop_leaf _ _ _ _ _ _ _ Hb Hbb), loop_nil.
  cbn [mbind result_bind app collapse]. rewrite loop_text.
  cbn [Substitution.is_connective String.eqb Ascii.eqb Bool.eqb orb].
  by rewrite (loop_leaf _ _ _ _ _ _ _ Hc Hbc).
Qed.

Lemma well_formed_operator c : well_formed c = true → is_operator (op c) = true.
Proof. by intros [[_ ?]%andb_prop _]%andb_prop. Qed.

End stages.

(** ** The fuel of the parser is enough *)

Section fuel.
Import PP.
Open Scope nat_scope.

Ltac inv_bind H :=
  let a := fresh "t" in let st := fresh "st" in
  let H1 := fresh "H" in
  apply bind_Ok in H as ([a st] & H1 & H); cbn beta iota in H.

Lemma bind_fuel {A B} (r : result A) (k : A → result B) :
  r ≫= k = Err OutOfFuel →
  r = Err OutOfFuel ∨ ∃ a, r = Ok a ∧ k a = Err OutOfFuel.
Proof. destruct r as [a|e]; cbn; [eauto|]. intros [= ->]. by left. Qed.

Lemma sound_le {A} n m (p : parser A) : m ≤ n → sound n p → sound m p.
Proof. intros Hmn Hp st Hst. apply Hp. lia. Qed.

(** *** Text lengths *)

Lemma skip_whitespace_len p s :
  String.length (rest (skip_whitespace p s)) ≤ String.length s.
Proof.
  revert p. induction s as [|c s IH]; intros p; [done|]. cbn [skip_whitespace].
  destruct (white_chars c); [|done]. specialize (IH (Some c)). simpl. lia.
Qed.

Lemma preParse_len st : len (preParse st) ≤ len st.
Proof. apply skip_whitespace_len. Qed.

Lemma span_len f s w r :
  span f s = (w, r) → (String.length w + String.length r = String.length s)%nat.
Proof.
  revert w r. induction s as [|c s IH]; intros w r; cbn [span].
  - by intros [= <- <-].
  - destruct (f c); [|by intros [= <- <-]].
    destruct (span f s) as [w' r'] eqn:E. intros [= <- <-].
    specialize (IH _ _ eq_refl). simpl. lia.
Qed.

Lemma advance_len fold m p s :
  starts_with fold m s = true →
  (len (advance (String.length m) (mk_pstate p s)) + String.length m
   = String.length s)%nat.
Proof.
  revert p s. induction m as [|x m IH]; intros p s.
  - intros _. cbn. destruct s; unfold len; simpl; lia.
  - destruct s as [|c s]; [done|]. cbn [starts_with].
    intros [_ Hm]%andb_prop. cbn [String.length advance rest].
    specialize (IH (Some c) s Hm). simpl. lia.
Qed.

(** *** Terminals *)

Lemma terminal_Word chars : terminal (Word chars).
Proof.
  assert (eats (Word chars)) as Heats.
  { intros st t st'. unfold Word.
    destruct (span chars (rest (preParse st))) as [w r] eqn:E.
    apply span_len in E. pose proof (preParse_len st) as Hpre. unfold len in *.
    destruct w as [|c w]; [done|]. intros [= <- <-]. simpl in *. lia. }
  split; [|done]. intros n st Hst. split.
  - unfold Word. destruct (span _ _) as [[|c w] r]; done.
  - intros t st' H. apply Heats in H. lia.
Qed.

Lemma terminal_QuotedString q e : terminal (QuotedString q e).
Proof.
  assert (eats (QuotedString q e)) as Heats.
  { intros st t st'. unfold QuotedString.
    pose proof (preParse_len st) as Hpre. unfold len in *.
    destruct (rest (preParse st)) as [|c s]; [done|].
    destruct (Ascii.eqb c q); [|done].
    destruct (span _ s) as [body r] eqn:E. apply span_len in E.
    destruct r as [|c' r']; [done|]. destruct (Ascii.eqb c' e); [|done].
    intros [= <- <-]. simpl in *. lia. }
  split; [|done]. intros n st Hst. split.
  - unfold QuotedString. destruct (rest _) as [|c s]; [done|].
    destruct (Ascii.eqb c q); [|done]. destruct (span _ s) as [body [|c' r']]; [done|].
    by destruct (Ascii.eqb c' e).
  - intros t st' H. apply Heats in H. lia.
Qed.

Lemma matched_eats fold m st :
  m ≠ "" → starts_with fold m (rest (preParse st)) = true →
  len (advance (String.length m) (preParse st)) < len st.
Proof.
  intros Hm Hs. pose proof (preParse_len st) as Hpre.
  destruct (preParse st) as [p s]. cbn [rest] in Hs.
  pose proof (advance_len fold m p s Hs) as Hadv.
  destruct m; [done|]. unfold len in *. simpl in *. lia.
Qed.

Lemma terminal_Literal m : m ≠ "" → terminal (Literal m).
Proof.
  intros Hm.
  assert (eats (Literal m)) as Heats.
  { intros st t st'. unfold Literal.
    destruct (starts_with id m _) eqn:E; [|done]. intros [= <- <-].
    by eapply matched_eats. }
  split; [|done]. intros n st Hst. split.
  - unfold Literal. by destruct (starts_with _ _ _).
  - intros t st' H. apply Heats in H. lia.
Qed.

Lemma terminal_Keyword caseless m : m ≠ "" → terminal (Keyword caseless m).
Proof.
  intros Hm.
  assert (eats (Keyword caseless m)) as Heats.
  { intros st t st'. unfold Keyword.
    destruct (starts_with _ m _) eqn:E; [|done].
    destruct (_ && _); [|done]. intros [= <- <-]. by eapply matched_eats. }
  split; [|done]. intros n st Hst. split.
  - unfold Keyword. by destruct (_ && _).
  - intros t st' H. apply Heats in H. lia.
Qed.

Lemma longest_match_starts strs s sym :
  longest_match strs s = Some sym → starts_with id sym s = true.
Proof.
  unfold longest_match.
  assert (∀ best, foldl (λ best sym,
           if starts_with id sym s then
             match best with
             | Some b =>
                 if (String.length b <? String.length sym)%nat
                 then Some sym else best
             | None => Some sym
             end
           else best) best strs = Some sym →
          best = Some sym ∨ starts_with id sym s = true) as H.
  { induction strs as [|x strs IH]; intros best; cbn [foldl]; [by left|].
    intros [E|E]%IH; [|by right].
    destruct (starts_with id x s) eqn:Hx; [|by left].
    destruct best as [b|].
    - destruct (_ <? _)%nat; [injection E as <-; by right|by left].
    - injection E as <-. by right. }
  intros [?|?]%H; done.
Qed.

Lemma terminal_oneOf strs : Forall (λ sym, sym ≠ "") strs → terminal (oneOf strs).
Proof.
  intros Hstrs.
  assert (eats (oneOf strs)) as Heats.
  { intros st t st'. unfold oneOf.
    destruct (longest_match strs _) as [sym|] eqn:E; [|done].
    intros [= <- <-]. eapply matched_eats.
    - rewrite Forall_forall in Hstrs. apply Hstrs.
      by eapply longest_match_elem.
    - by eapply longest_match_starts. }
  split; [|done]. intros n st Hst. split.
  - unfold oneOf. by destruct (longest_match _ _).
  - intros t st' H. apply Heats in H. lia.
Qed.

(** *** Combinators *)

Lemma sound_And {A} n (a b : parser (list A)) :
  sound n a → sound n b → sound n (And a b).
Proof.
  intros Ha Hb st Hst. destruct (Ha st Hst) as [Ha1 Ha2]. unfold And. split.
  - intros [?|([ta st1] & E & H)]%bind_fuel; [done|].
    specialize (Ha2 _ _ E). destruct (Hb st1) as [Hb1 _]; [lia|].
    apply bind_fuel in H as [?|([tb st2] & _ & ?)]; done.
  - intros t st' H. inv_bind H. inv_bind H. injection H as <- <-.
    specialize (Ha2 _ _ H0). destruct (Hb st0) as [_ Hb2]; [lia|].
    specialize (Hb2 _ _ H1). lia.
Qed.

(** After a parser that reads a character, the next one only has to be
    sound on fewer characters. *)
Lemma sound_And_eats {A} n (a b : parser (list A)) :
  sound n a → eats a → (∀ m, m < n → sound m b) → sound n (And a b).
Proof.
  intros Ha Heats Hb st Hst. destruct (Ha st Hst) as [Ha1 Ha2]. unfold And. split.
  - intros [?|([ta st1] & E & H)]%bind_fuel; [done|].
    specialize (Heats _ _ _ E).
    destruct (Hb (len st1) ltac:(lia) st1) as [Hb1 _]; [lia|].
    apply bind_fuel in H as [?|([tb st2] & _ & ?)]; done.
  - intros t st' H. inv_bind H. inv_bind H. injection H as <- <-.
    specialize (Heats _ _ _ H0).
    destruct (Hb (len st0) ltac:(lia) st0) as [_ Hb2]; [lia|].
    specialize (Hb2 _ _ H1). lia.
Qed.

Lemma eats_And_l {A} (a b : parser (list A)) :
  eats a → (∀ n, sound n b) → eats (And a b).
Proof.
  intros Ha Hb st t st' H. unfold And in H. inv_bind H. inv_bind H.
  injection H as <- <-. specialize (Ha _ _ _ H0).
  destruct (Hb (len st0) st0) as [_ Hb2]; [lia|]. specialize (Hb2 _ _ H1). lia.
Qed.

Lemma sound_MatchFirst {A} n (a b : parser A) :
  sound n a → sound n b → sound n (MatchFirst a b).
Proof.
  intros Ha Hb st Hst. destruct (Ha st Hst) as [Ha1 Ha2].
  destruct (Hb st Hst) as [Hb1 Hb2]. unfold MatchFirst.
  destruct (a st) as [[]|[]] eqn:E; done.
Qed.

Lemma sound_Group n e : sound n e → sound n (Group e).
Proof.
  intros He st Hst. destruct (He st Hst) as [He1 He2]. unfold Group. split.
  - by intros [?|([t st1] & _ & ?)]%bind_fuel.
  - intros t st' H. inv_bind H. injection H as <- <-. eauto.
Qed.

Lemma sound_text {A} n p (wrap : string → A) : sound n p → sound n (text p wrap).
Proof.
  intros He st Hst. destruct (He st Hst) as [He1 He2]. unfold text. split.
  - by intros [?|([t st1] & _ & ?)]%bind_fuel.
  - intros t st' H. inv_bind H. injection H as <- <-. eauto.
Qed.

Lemma eats_text {A} p (wrap : string → A) : eats p → eats (text p wrap).
Proof.
  intros He st t st' H. unfold text in H. inv_bind H. injection H as <- <-. eauto.
Qed.

Lemma terminal_text {A} p (wrap : string → A) : terminal p → terminal (text p wrap).
Proof. intros [Hs He]. split; [intros n; by apply sound_text|by apply eats_text]. Qed.

Lemma terminal_Suppress {A B} (e : parser (list A)) :
  terminal e → terminal (Suppress (B:=B) e).
Proof.
  intros [Hs He]. split.
  - intros n st Hst. destruct (Hs n st Hst) as [He1 He2]. unfold Suppress. split.
    + by intros [?|([t st1] & _ & ?)]%bind_fuel.
    + intros t st' H. inv_bind H. injection H as <- <-. eauto.
  - intros st t st' H. unfold Suppress in H. inv_bind H. injection H as <- <-.
    eauto.
Qed.

Lemma sound_FollowedBy {A B} n (e : parser A) :
  sound n e → sound n (FollowedBy (B:=B) e).
Proof.
  intros He st Hst. destruct (He st Hst) as [He1 _]. unfold FollowedBy. split.
  - by intros [?|([t st1] & _ & ?)]%bind_fuel.
  - intros t st' H. inv_bind H. by injection H as <- <-.
Qed.

Lemma sound_Opt {A} n (e : parser (list A)) : sound n e → sound n (Opt e).
Proof.
  intros He st Hst. destruct (He st Hst) as [He1 He2]. unfold Opt.
  destruct (e st) as [[]|[]] eqn:E; try done; (split; [done|]);
    intros t st' [= <- <-]; eauto.
Qed.

Lemma sound_set_parse_action {A B} n (e : parser (list A)) (fn : list A → result B) :
  (∀ t, fn t ≠ Err OutOfFuel) → sound n e → sound n (set_parse_action e fn).
Proof.
  intros Hfn He st Hst. destruct (He st Hst) as [He1 He2].
  unfold set_parse_action. split.
  - intros [?|([t st1] & _ & H)]%bind_fuel; [done|].
    specialize (Hfn t). by destruct (fn t) as [|[]].
  - intros t st' H. inv_bind H. destruct (fn t0) as [|[]]; try done.
    injection H as <- <-. eauto.
Qed.

Lemma eats_upto_And {A} n (a b : parser (list A)) :
  eats a → sound n b → eats_upto n (And a b).
Proof.
  intros Ha Hb st Hst t st' H. unfold And in H. inv_bind H. inv_bind H.
  injection H as <- <-. specialize (Ha _ _ _ H0).
  destruct (Hb st0) as [_ Hb2]; [lia|]. specialize (Hb2 _ _ H1). lia.
Qed.

(** The repetition is sound when its fuel exceeds the characters left and
    each round reads one. *)
Lemma sound_many {A} n (e : parser (list A)) fuel :
  sound n e → eats_upto n e →
  ∀ st, len st < fuel → len st ≤ n →
    many fuel e st ≠ Err OutOfFuel
    ∧ ∀ t st', many fuel e st = Ok (t, st') → len st' ≤ len st.
Proof.
  intros Hs He. induction fuel as [|fuel IH]; intros st Hst Hn; [lia|].
  destruct (Hs st Hn) as [Hs1 Hs2]. cbn [many].
  destruct (e st) as [[t1 st1]|[]] eqn:E; try done.
  - specialize (He _ Hn _ _ E). destruct (IH st1) as [IH1 IH2]; [lia..|]. split.
    + by intros [?|([t st2] & _ & ?)]%bind_fuel.
    + intros t st' H. inv_bind H. injection H as <- <-.
      specialize (IH2 _ _ H0). lia.
  - split; [done|]. by intros t st' [= <- <-].
Qed.

Lemma sound_OneOrMore {A} n (e : parser (list A)) fuel :
  n ≤ fuel → sound n e → eats_upto n e → sound n (OneOrMore fuel e).
Proof.
  intros Hn Hs He st Hst. destruct (Hs st Hst) as [Hs1 Hs2].
  unfold OneOrMore, And. split.
  - intros [?|([t1 st1] & E & H)]%bind_fuel; [done|].
    pose proof (He _ Hst _ _ E) as Hlt.
    destruct (sound_many n e fuel Hs He st1) as [Hm _]; [lia..|].
    apply bind_fuel in H as [?|([t2 st2] & _ & ?)]; done.
  - intros t st' H. inv_bind H. inv_bind H. injection H as <- <-.
    pose proof (He _ Hst _ _ H0) as Hlt.
    destruct (sound_many n e fuel Hs He st0) as [_ Hm]; [lia..|].
    specialize (Hm _ _ H1). lia.
Qed.

(** *** The operator levels *)

Lemma sound_binary_left n fuel opExpr lastExpr :
  n ≤ fuel → terminal opExpr → sound n lastExpr →
  sound n (Grammar.binary_left fuel opExpr lastExpr).
Proof.
  intros Hn [Hop Heats] Hlast. unfold Grammar.binary_left.
  apply sound_MatchFirst; [|done].
  assert (sound n (opExpr +++ lastExpr)) as Hpair by (by apply sound_And).
  apply sound_And; [by apply sound_FollowedBy, sound_And|].
  apply sound_Group, sound_And; [done|].
  apply sound_OneOrMore; [done..|]. by apply eats_upto_And.
Qed.

(** The lookahead of a unary level has matched the operator when the group
    after it runs, so the level itself is only entered on fewer characters. *)
Lemma sound_unary_step n (opExpr thisExpr : parser (list node)) :
  terminal opExpr → (∀ m, m < n → sound m thisExpr) →
  sound n (FollowedBy (opExpr +++ thisExpr) +++ Group (Opt opExpr +++ thisExpr)).
Proof.
  intros [Hop Heats] Hthis st Hst. destruct (Hop n st Hst) as [Hop1 _].
  unfold And, FollowedBy, Group, Opt.
  destruct (opExpr st) as [[t1 st1]|e] eqn:E; cbn [mbind result_bind].
  - specialize (Heats _ _ _ E).
    destruct (Hthis (len st1) ltac:(lia) st1) as [Ht1 Ht2]; [lia|].
    destruct (thisExpr st1) as [[t2 st2]|e2] eqn:E2; cbn [mbind result_bind].
    + rewrite E. cbn [mbind result_bind]. rewrite E2. cbn [mbind result_bind].
      split; [done|]. intros t st' [= <- <-]. specialize (Ht2 _ _ eq_refl). lia.
    + split; [|done]. intros [= ->]. done.
  - split; [|done]. intros [= ->]. done.
Qed.

Lemma sound_unary_right fuel opExpr lastExpr :
  terminal opExpr →
  ∀ n, n ≤ fuel → sound n lastExpr →
  sound n (Grammar.unary_right fuel opExpr lastExpr).
Proof.
  intros Hop.
  induction fuel as [|fuel IH]; intros n Hn Hlast; cbn [Grammar.unary_right];
    (apply sound_MatchFirst; [|done]); apply sound_unary_step; try done.
  - intros m Hm. lia.
  - intros m Hm. apply IH; [lia|]. eapply sound_le; [|done]. lia.
Qed.

Lemma sound_levels n fuel op_list :
  n ≤ fuel → Forall (λ l, terminal l.1.1) op_list →
  ∀ lastExpr, sound n lastExpr → sound n (Grammar.levels fuel lastExpr op_list).
Proof.
  intros Hn Hops. induction Hops as [|[[opExpr arity] assoc] op_list Hop _ IH];
    intros lastExpr Hlast; cbn [Grammar.levels]; [done|].
  apply IH. cbn [fst] in Hop.
  destruct arity as [|[|[|arity]]], assoc; try done.
  - by apply sound_unary_right.
  - by apply sound_binary_left.
Qed.

Lemma sound_infix_notation fuel base_expr op_list :
  (∀ n, sound n base_expr) → Forall (λ l, terminal l.1.1) op_list →
  ∀ n, n ≤ fuel → sound n (Grammar.infix_notation fuel base_expr op_list).
Proof.
  intros Hbase Hops.
  assert (terminal (Suppress (B:=node) (Literal "("))) as [Hl1 Hl2]
    by (by apply terminal_Suppress, terminal_Literal).
  assert (terminal (Suppress (B:=node) (Literal ")"))) as [Hr1 Hr2]
    by (by apply terminal_Suppress, terminal_Literal).
  induction fuel as [|fuel IH]; intros n Hn; cbn [Grammar.infix_notation];
    (apply sound_levels; [done..|]); (apply sound_MatchFirst; [done|]);
    (apply sound_And_eats; [done..|]); intros m Hm.
  - lia.
  - apply sound_And; [|done]. apply IH. lia.
Qed.

(** *** The grammar *)

Lemma token_fuel tokens i : Grammar.token tokens i ≠ Err OutOfFuel.
Proof. unfold Grammar.token. by destruct (tokens !! i). Qed.

Lemma token_bind_fuel {B} tokens i (k : string → result B) :
  (∀ t, k t ≠ Err OutOfFuel) → Grammar.token tokens i ≫= k ≠ Err OutOfFuel.
Proof.
  intros Hk [?|(t & _ & ?)]%bind_fuel; [by eapply token_fuel|by eapply Hk].
Qed.

Lemma sound_field n : sound n Grammar.field.
Proof.
  assert (∀ n, sound n Grammar.alphabet) as Halpha
    by (intros m; apply terminal_Word).
  assert (∀ n, sound n (QuotedString "[" "]")) as Hq
    by (intros m; apply terminal_QuotedString).
  assert (∀ n, sound n Grammar.checkbox) as Hc
    by (intros m; apply terminal_QuotedString).
  assert (∀ n, sound n Grammar.lbrace) as Hl
    by (intros m; by apply terminal_Suppress, terminal_Literal).
  assert (∀ n, sound n Grammar.rbrace) as Hr
    by (intros m; by apply terminal_Suppress, terminal_Literal).
  assert (∀ n, sound n (Grammar.lbrace +++ Grammar.alphabet +++ Grammar.checkbox
                        +++ Grammar.rbrace)) as Hcheck
    by (intros m; repeat apply sound_And; done).
  unfold Grammar.field. repeat apply sound_MatchFirst.
  - apply sound_set_parse_action; [|by apply sound_And].
    intros t. unfold Grammar.create_my_event_check.
    repeat (apply token_bind_fuel; intros ?). done.
  - apply sound_set_parse_action; [|by apply sound_And].
    intros t. unfold Grammar.create_my_event_field.
    repeat (apply token_bind_fuel; intros ?). done.
  - apply sound_set_parse_action; [|done].
    intros t. unfold Grammar.create_my_check.
    repeat (apply token_bind_fuel; intros ?). done.
  - apply sound_set_parse_action; [|done].
    intros t. unfold Grammar.create_my_field.
    repeat (apply token_bind_fuel; intros ?). done.
  - apply sound_text, sound_MatchFirst; apply terminal_QuotedString.
Qed.

Lemma operator_symbols :
  Forall (λ sym, sym ≠ "") ["="; "<>"; ">"; ">="; "<"; "<="].
Proof. repeat constructor; done. Qed.

Lemma sound_expression n : sound n Grammar.expression.
Proof.
  unfold Grammar.expression. apply sound_Group.
  repeat apply sound_And.
  - apply sound_field.
  - apply sound_text, terminal_oneOf, operator_symbols.
  - apply sound_text, sound_MatchFirst; apply terminal_QuotedString.
Qed.

Lemma sound_grammar n fuel :
  n ≤ fuel → sound n (Grammar.redcap_branching_logic_grammar fuel).
Proof.
  intros Hn. unfold Grammar.redcap_branching_logic_grammar.
  apply sound_infix_notation; [apply sound_expression| |done].
  repeat apply Forall_cons_2; [..|apply Forall_nil_2]; cbn [fst];
    apply terminal_text.
  - by apply terminal_Keyword.
  - apply terminal_oneOf, operator_symbols.
  - by apply terminal_Keyword.
  - by apply terminal_Keyword.
Qed.

(** The fuel of [parse_string] is enough on every text: the parser never
    stops for lack of it, so it returns either a tree or one of the errors
    of the source. *)
Theorem create_ast_as_list_fuel s : create_ast_as_list s ≠ Err OutOfFuel.
Proof.
  unfold create_ast_as_list, Grammar.parse_string.
  destruct (sound_grammar (String.length (expandtabs s))
              (S (String.length (expandtabs s))) ltac:(lia)
              (mk_pstate None (expandtabs s)) ltac:(done)) as [H _].
  by intros [?|([t st] & _ & ?)]%bind_fuel.
Qed.

End fuel.

(** ** The claims about the pipeline *)

Import Spec.

(** C1.  The entry point [parse] takes the text alone and calls the
    substitution without a data source, so it never returns a boolean: on the
    text of the repository's own test it raises [TypeError], where the
    composition of the three stages returns [True]. *)
Theorem parse_leaves_data_source_unbound :
  (∀ s b, parse s ≠ Ok b)
  ∧ parse "[variable]='1'" = Err TypeError
  ∧ parse_and_evaluate "[variable]='1'" {[ "variable" := PyStr "1" ]} = Ok true.
Proof.
  split; [|split; vm_compute; reflexivity].
  intros s b. unfold parse. by destruct (create_ast_as_list s).
Qed.

(** C2.  [A AND B OR C] is grouped as [(A AND B) OR C], and under a data
    source that gives the three comparisons the truth values [a], [b] and
    [c] the three stages return [(a && b) || c]. *)
Theorem and_binds_tighter_than_or (A B C : comparison) :
  well_formed A = true → well_formed B = true → well_formed C = true →
  create_ast_as_list (and_or_text A B C)
  = Ok [NList [NList [leaf A; NStr "AND"; leaf B]; NStr "OR"; leaf C]]
  ∧ ∀ data a b c,
      truth data A = Some a → truth data B = Some b → truth data C = Some c →
      parse_and_evaluate (and_or_text A B C) data = Ok (a && b || c).
Proof.
  intros HA HB HC.
  pose proof (create_ast_and_or A B C HA HB HC) as Hast.
  split; [exact Hast|].
  intros data a b c Ha Hb Hc. unfold parse_and_evaluate, and_or_text.
  rewrite Hast. cbn [mbind result_bind].
  rewrite (substitute_and_or data A B C a b c) by eauto using well_formed_operator.
  cbn [mbind result_bind]. by destruct a, b, c.
Qed.

Lemma and_binds_tighter_than_or_witness :
  create_ast_as_list "[a]='1' AND [e][b]<>'2' OR [c(3)]>='x'"
  = Ok [NList [NList [NList [NField (mk_myField "a" None None); NStr "="; NStr "1"];
                      NStr "AND";
                      NList [NField (mk_myField "b" (Some "e") None); NStr "<>"; NStr "2"]];
               NStr "OR";
               NList [NField (mk_myField "c" None (Some "3")); NStr ">="; NStr "x"]]]
  ∧ parse_and_evaluate "[a]='1' AND [e][b]<>'2' OR [c(3)]>='x'"
      {[ "a" := PyStr "1"; "b" := PyStr "2"; "c" := PyStr "y" ]} = Ok true.
Proof.
  destruct (and_binds_tighter_than_or
              (mk_comparison (mk_myField "a" None None) "=" "1")
              (mk_comparison (mk_myField "b" (Some "e") None) "<>" "2")
              (mk_comparison (mk_myField "c" None (Some "3")) ">=" "x")
              eq_refl eq_refl eq_refl) as [Htree Hrun].
  split; [exact Htree|].
  exact (Hrun {[ "a" := PyStr "1"; "b" := PyStr "2"; "c" := PyStr "y" ]}
           true false true eq_refl eq_refl eq_refl).
Defined.

(** The eight truth assignments, on one expression. *)
Example and_or_eight_cases (a b c : bool) :
  parse_and_evaluate "[a]='1' AND [b]='1' OR [c]='1'"
    {[ "a" := PyStr (if a then "1" else "0");
       "b" := PyStr (if b then "1" else "0");
       "c" := PyStr (if c then "1" else "0") ]}
  = Ok (a && b || c).
Proof. by destruct a, b, c; vm_compute. Qed.

(** C5.  When the text parses and the data source does not resolve the name
    of a field reference of the tree, the substitution fails with [KeyError]
    and so do the three stages together. *)
Theorem unresolved_field_aborts s ast data f :
  create_ast_as_list s = Ok ast →
  f ∈ fields (NList ast) → data !! field f = None →
  substitute ast data = Err KeyError
  ∧ parse_and_evaluate s data = Err KeyError.
Proof.
  intros Hast Hf Hdata.
  assert (substitute ast data = Err KeyError) as Hsub.
  { destruct (create_ast_as_list_parsed s ast Hast) as (n & -> & Hn).
    pose proof (substitutes_all data (NList [n])) as H.
    unfold substitutes in H.
    rewrite parsed_items in H by (cbn; by rewrite parsed_item_ok).
    specialize (H eq_refl).
    assert (resolves data (NList [n]) = false) as Hres.
    { apply not_true_is_false. unfold resolves. intros Hall.
      rewrite forallb_forall in Hall. apply list_elem_of_In in Hf.
      specialize (Hall f Hf). apply bool_decide_eq_true in Hall as [x Hx].
      congruence. }
    by rewrite Hres in H. }
  split; [done|]. unfold parse_and_evaluate. rewrite Hast.
  cbn [mbind result_bind]. by rewrite Hsub.
Qed.

Lemma unresolved_field_aborts_witness :
  substitute
    [NList [NList [NField (mk_myField "a" None None); NStr "="; NStr "1"];
            NStr "OR";
            NList [NField (mk_myField "missing" None None); NStr "="; NStr "2"]]]
    {[ "a" := PyStr "1" ]} = Err KeyError
  ∧ parse_and_evaluate "[a]='1' OR [missing]='2'" {[ "a" := PyStr "1" ]}
    = Err KeyError.
Proof.
  exact (unresolved_field_aborts "[a]='1' OR [missing]='2'" _
           {[ "a" := PyStr "1" ]} (mk_myField "missing" None None)
           eq_refl (list_elem_of_further _ _ _ (list_elem_of_here _ _)) eq_refl).
Defined.

(** C6.  Each of the four surface forms of a field reference, in a
    comparison, is parsed to a [myField] with the matching attributes:
    event only, checkbox only, both, neither. *)
Theorem parse_field_reference_forms (ev fld opt o v : string) :
  identifier ev = true → identifier fld = true → identifier opt = true →
  is_operator o = true → plain_text v = true →
  create_ast_as_list ("[" +:+ ev +:+ "][" +:+ fld +:+ "]" +:+ o +:+ "'" +:+ v +:+ "'")
  = Ok [NList [NField (mk_myField fld (Some ev) None); NStr o; NStr v]]
  ∧ create_ast_as_list ("[" +:+ fld +:+ "(" +:+ opt +:+ ")]" +:+ o +:+ "'" +:+ v +:+ "'")
    = Ok [NList [NField (mk_myField fld None (Some opt)); NStr o; NStr v]]
  ∧ create_ast_as_list ("[" +:+ ev +:+ "][" +:+ fld +:+ "(" +:+ opt +:+ ")]"
                        +:+ o +:+ "'" +:+ v +:+ "'")
    = Ok [NList [NField (mk_myField fld (Some ev) (Some opt)); NStr o; NStr v]]
  ∧ create_ast_as_list ("[" +:+ fld +:+ "]" +:+ o +:+ "'" +:+ v +:+ "'")
    = Ok [NList [NField (mk_myField fld None None); NStr o; NStr v]].
Proof.
  intros Hev Hfld Hopt Ho Hv.
  assert ((ev =? "") = false) as Hev'
    by (apply String.eqb_neq; by apply identifier_inv).
  assert ((opt =? "") = false) as Hopt'
    by (apply String.eqb_neq; by apply identifier_inv).
  assert (∀ f, field_reference f = true →
            create_ast_as_list (myField_str f +:+ o +:+ "'" +:+ v +:+ "'")
            = Ok [NList [NField f; NStr o; NStr v]]) as Hparse.
  { intros f Hf. apply (create_ast_comparison (mk_comparison f o v)).
    unfold well_formed. cbn [lhs op literal]. by rewrite Hf, Ho, Hv. }
  repeat split.
  - rewrite <- (Hparse (mk_myField fld (Some ev) None))
      by (unfold field_reference; cbn; by rewrite Hfld, Hev).
    unfold myField_str. cbn [event check field truthy str_opt].
    rewrite Hev'. cbn [negb]. by norm_text.
  - rewrite <- (Hparse (mk_myField fld None (Some opt)))
      by (unfold field_reference; cbn; by rewrite Hfld, Hopt).
    unfold myField_str. cbn [event check field truthy str_opt].
    rewrite Hopt'. cbn [negb]. by norm_text.
  - rewrite <- (Hparse (mk_myField fld (Some ev) (Some opt)))
      by (unfold field_reference; cbn; by rewrite Hfld, Hev, Hopt).
    unfold myField_str. cbn [event check field truthy str_opt].
    rewrite Hev', Hopt'. cbn [negb]. by norm_text.
  - rewrite <- (Hparse (mk_myField fld None None))
      by (unfold field_reference; cbn; by rewrite Hfld).
    unfold myField_str. cbn [event check field truthy str_opt]. by norm_text.
Qed.

Lemma parse_field_reference_forms_witness :
  create_ast_as_list "[visit_1][age]>='18'"
  = Ok [NList [NField (mk_myField "age" (Some "visit_1") None); NStr ">="; NStr "18"]]
  ∧ create_ast_as_list "[age(2)]>='18'"
    = Ok [NList [NField (mk_myField "age" None (Some "2")); NStr ">="; NStr "18"]]
  ∧ create_ast_as_list "[visit_1][age(2)]>='18'"
    = Ok [NList [NField (mk_myField "age" (Some "visit_1") (Some "2"));
                 NStr ">="; NStr "18"]]
  ∧ create_ast_as_list "[age]>='18'"
    = Ok [NList [NField (mk_myField "age" None None); NStr ">="; NStr "18"]].
Proof.
  exact (parse_field_reference_forms "visit_1" "age" "2" ">=" "18"
           eq_refl eq_refl eq_refl eq_refl eq_refl).
Defined.

(** C7.  A comparison leaf whose field the data source resolves is replaced
    by the comparison of the looked-up value, as text, with the literal under
    the ordering of text; [[status]='active' AND [age]>'18'] is false for
    the status "active" and the age "15". *)
Theorem comparison_by_text_ordering (c : comparison) data x :
  is_operator (op c) = true → data !! field (lhs c) = Some x →
  (∃ b, compare_text (op c) (str x) (literal c) = Some b
        ∧ substitute [leaf c] data = Ok [NBool b])
  ∧ parse_and_evaluate "[status]='active' AND [age]>'18'"
      {[ "status" := PyStr "active"; "age" := PyStr "15" ]} = Ok false.
Proof.
  intros Ho Hx. split; [|by vm_compute].
  destruct (op_lookup_operator _ Ho) as (g & _ & Hcmp).
  destruct (Hcmp (str x) (literal c)) as (b & Hb & _).
  exists b. split; [done|]. apply substitute_leaf; [done|].
  unfold truth. by rewrite Hx.
Qed.

Lemma comparison_by_text_ordering_witness :
  (∃ b, compare_text ">" (str (PyInt 9)) "10" = Some b
        ∧ substitute [NList [NField (mk_myField "age" None None); NStr ">"; NStr "10"]]
            {[ "age" := PyInt 9 ]} = Ok [NBool b])
  ∧ parse_and_evaluate "[status]='active' AND [age]>'18'"
      {[ "status" := PyStr "active"; "age" := PyStr "15" ]} = Ok false.
Proof.
  exact (comparison_by_text_ordering
           (mk_comparison (mk_myField "age" None None) ">" "10")
           {[ "age" := PyInt 9 ]} (PyInt 9) eq_refl eq_refl).
Defined.

(** C8.  A bracketed name with a character that is no alphanumeric or
    underscore is not rejected: [[a-b]='1'] is parsed, to a field reference
    named [a-b]; and text that follows a match is ignored. *)
Theorem bare_field_name_is_not_checked :
  identifier "a-b" = false
  ∧ create_ast_as_list "[a-b]='1'"
    = Ok [NList [NField (mk_myField "a-b" None None); NStr "="; NStr "1"]]
  ∧ create_ast_as_list "[a]='1' ]]"
    = Ok [NList [NField (mk_myField "a" None None); NStr "="; NStr "1"]].
Proof. repeat split; vm_compute; reflexivity. Qed.

(** C9.  The tree of [! C] is the tree of [C] under a [!] token, and the
    substitution gives both the same result: the boolean of [C], not its
    negation.  [AND] and [OR] between two comparisons are kept as they
    are. *)
Theorem negation_is_not_applied (c : comparison) (sp : string) data :
  well_formed c = true → sp = "" ∨ sp = " " →
  create_ast_as_list ("!" +:+ sp +:+ comparison_text c)
  = Ok [NList [NStr "!"; leaf c]]
  ∧ create_ast_as_list (comparison_text c) = Ok [leaf c]
  ∧ substitute [NList [NStr "!"; leaf c]] data = substitute [leaf c] data
  ∧ (∀ b, truth data c = Some b →
          substitute [NList [NStr "!"; leaf c]] data = Ok [NBool b])
  ∧ (∀ l r k bl br,
       well_formed l = true → well_formed r = true →
       truth data l = Some bl → truth data r = Some br →
       k = "AND" ∨ k = "OR" →
       substitute [NList [leaf l; NStr k; leaf r]] data
       = Ok [NList [NBool bl; NStr k; NBool br]]).
Proof.
  intros Hc Hsp. repeat split.
  - by apply create_ast_negation.
  - by apply create_ast_comparison.
  - apply substitute_negation.
  - intros b Hb. rewrite substitute_negation.
    apply substitute_leaf; [by apply well_formed_operator|done].
  - intros l r k bl br Hl Hr Hbl Hbr Hk.
    apply substitute_connective; auto using well_formed_operator.
Qed.

Lemma negation_is_not_applied_witness :
  create_ast_as_list "! [age]>'18'"
  = Ok [NList [NStr "!"; NList [NField (mk_myField "age" None None); NStr ">"; NStr "18"]]]
  ∧ create_ast_as_list "[age]>'18'"
    = Ok [NList [NField (mk_myField "age" None None); NStr ">"; NStr "18"]]
  ∧ substitute [NList [NStr "!"; NList [NField (mk_myField "age" None None);
                                         NStr ">"; NStr "18"]]]
      {[ "age" := PyStr "20" ]}
    = Ok [NBool true].
Proof.
  destruct (negation_is_not_applied
              (mk_comparison (mk_myField "age" None None) ">" "18") " "
              {[ "age" := PyStr "20" ]} eq_refl (or_intror eq_refl))
    as (Hnot & Hplain & _ & Hsame & _).
  split; [exact Hnot|]. split; [exact Hplain|].
  exact (Hsame true eq_refl).
Defined.

(** C10.  The text ['x'='y'] parses; the substitution drops its three tokens
    and returns a sequence that holds one empty sequence; the evaluator then
    fails with [IndexError] on its empty stack. *)
Theorem literal_comparison_breaks_evaluate :
  ∃ ast boolean_tree,
    create_ast_as_list "'x'='y'" = Ok ast
    ∧ (∀ data, substitute ast data = Ok boolean_tree)
    ∧ NList [] ∈ boolean_tree
    ∧ evaluate boolean_tree = Err IndexError
    ∧ ∀ data, parse_and_evaluate "'x'='y'" data = Err IndexError.
Proof.
  exists [NList [NStr "x"; NStr "="; NStr "y"]], [NList []].
  repeat split; try by vm_compute.
  apply list_elem_of_here.
Qed.

(** * Further properties of the evaluator *)

Section evaluator_edges.
Import Evaluator.

(** The loop on a concatenation runs the second part from the state the
    first part leaves. *)
Lemma run_app l1 l2 stack infix :
  run (l1 ++ l2) stack infix
  = '(stack', infix') ← run l1 stack infix; run l2 stack' infix'.
Proof.
  unfold run. revert stack infix.
  induction l1 as [|x l1 IH]; intros stack infix; [done|].
  cbn [app loop]. destruct x as [l|f|s|b].
  - destruct (evaluate_value (NList l)) as [v|e]; [|done]. cbn [mbind result_bind].
    destruct (apply_infix (stack ++ [v]) infix) as [[s1 i1]|e]; [|done].
    cbn [mbind result_bind]. apply IH.
  - destruct (apply_infix stack infix) as [[s1 i1]|e]; [|done].
    cbn [mbind result_bind]. apply IH.
  - destruct (op_lookup s) as [g|e]; [|done]. cbn [mbind result_bind]. apply IH.
  - destruct (apply_infix (stack ++ [b]) infix) as [[s1 i1]|e]; [|done].
    cbn [mbind result_bind]. apply IH.
Qed.

Lemma evaluate_app l1 l2 :
  evaluate (l1 ++ l2)
  = '(stack, infix) ← run l1 [] None;
    '(stack, _) ← run l2 stack infix; first stack.
Proof.
  unfold evaluate. rewrite boolean_expr_evaluate_run, run_app.
  by destruct (run l1 [] None) as [[s i]|e].
Qed.

Lemma op_lookup_connective c :
  c = "AND" ∨ c = "OR" → ∃ f, op_lookup c = Ok f.
Proof. intros [->| ->]; eauto. Qed.

Lemma op_lookup_unknown s : s ≠ "AND" → s ≠ "OR" → op_lookup s = Err KeyError.
Proof.
  intros H1 H2. unfold op_lookup.
  apply String.eqb_neq in H1, H2. by rewrite H1, H2.
Qed.

Lemma run_text s rest stack infix :
  run (NStr s :: rest) stack infix = f ← op_lookup s; run rest stack (Some f).
Proof. reflexivity. Qed.

(** X1.  A nested list counts as the boolean it evaluates to, wherever it
    stands in the sequence. *)
Theorem evaluate_nested_value pre l v post :
  evaluate l = Ok v →
  evaluate (pre ++ NList l :: post) = evaluate (pre ++ NBool v :: post).
Proof.
  intros Hl. rewrite !evaluate_app.
  destruct (run pre [] None) as [[stack infix]|e]; [|done].
  cbn [mbind result_bind]. by rewrite (run_nested l v).
Qed.

Lemma evaluate_nested_value_witness :
  evaluate [NBool true; NStr "AND"; NList [NBool false; NStr "OR"; NBool true]]
  = evaluate [NBool true; NStr "AND"; NBool true].
Proof.
  exact (evaluate_nested_value [NBool true; NStr "AND"]
           [NBool false; NStr "OR"; NBool true] true [] eq_refl).
Defined.

(** X2.  A text token other than [AND] and [OR] that the loop reaches raises
    [KeyError], whatever stands after it. *)
Theorem evaluate_unknown_token pre s post stack infix :
  run pre [] None = Ok (stack, infix) → s ≠ "AND" → s ≠ "OR" →
  evaluate (pre ++ NStr s :: post) = Err KeyError.
Proof.
  intros Hpre H1 H2. rewrite evaluate_app, Hpre. cbn [mbind result_bind].
  by rewrite run_text, op_lookup_unknown.
Qed.

Lemma evaluate_unknown_token_witness :
  evaluate [NBool true; NStr "and"; NBool false] = Err KeyError.
Proof.
  exact (evaluate_unknown_token [NBool true] "and" [NBool false] [true] None
           eq_refl ltac:(done) ltac:(done)).
Defined.

(** X3.  A connective with no value after it has no effect: at the end of
    the sequence it is ignored, and followed by another text token it is
    replaced by that one. *)
Theorem evaluate_dangling_connective c :
  c = "AND" ∨ c = "OR" →
  (∀ l, evaluate (l ++ [NStr c]) = evaluate l)
  ∧ (∀ pre c' post,
       evaluate (pre ++ NStr c :: NStr c' :: post)
       = evaluate (pre ++ NStr c' :: post)).
Proof.
  intros [f Hf]%op_lookup_connective. split.
  - intros l. rewrite evaluate_app. unfold evaluate.
    rewrite boolean_expr_evaluate_run.
    destruct (run l [] None) as [[stack infix]|e]; [|done].
    cbn [mbind result_bind]. rewrite run_text, Hf. done.
  - intros pre c' post. rewrite !evaluate_app.
    destruct (run pre [] None) as [[stack infix]|e]; [|done].
    cbn [mbind result_bind]. rewrite !run_text, Hf. cbn [mbind result_bind].
    rewrite run_text. done.
Qed.

Lemma evaluate_dangling_connective_witness :
  evaluate ([NBool true; NStr "AND"; NBool false] ++ [NStr "OR"])
  = evaluate [NBool true; NStr "AND"; NBool false]
  ∧ evaluate ([NBool true] ++ NStr "OR" :: NStr "AND" :: [NBool false])
    = evaluate ([NBool true] ++ NStr "AND" :: [NBool false]).
Proof.
  destruct (evaluate_dangling_connective "OR" (or_intror eq_refl)) as [H1 H2].
  split; [apply H1|apply H2].
Defined.

Lemma run_connectives cs rest stack infix :
  Forall (λ c, c = "AND" ∨ c = "OR") cs → cs ≠ [] →
  ∃ f, run (map NStr cs ++ rest) stack infix = run rest stack (Some f).
Proof.
  intros Hcs. revert infix. induction Hcs as [|c cs Hc Hcs IH]; intros infix Hne; [done|].
  destruct (op_lookup_connective c Hc) as [f Hf].
  cbn [map app]. rewrite run_text, Hf. cbn [mbind result_bind].
  destruct cs as [|c' cs]; [by exists f|]. by apply IH.
Qed.

(** X4.  A connective needs two values under it: a sequence that starts with
    connectives raises [IndexError] at its first boolean, and one made of
    connectives only (the empty sequence too) raises it at [stack[0]]. *)
Theorem evaluate_connective_without_operands cs :
  Forall (λ c, c = "AND" ∨ c = "OR") cs →
  evaluate (map NStr cs) = Err IndexError
  ∧ (cs ≠ [] → ∀ b post, evaluate (map NStr cs ++ NBool b :: post) = Err IndexError).
Proof.
  intros Hcs. split.
  - destruct cs as [|c cs]; [done|].
    destruct (run_connectives (c :: cs) [] [] None Hcs) as [f Hf]; [done|].
    rewrite app_nil_r in Hf. unfold evaluate.
    rewrite boolean_expr_evaluate_run, Hf. done.
  - intros Hne b post.
    destruct (run_connectives cs (NBool b :: post) [] None Hcs Hne) as [f Hf].
    unfold evaluate. rewrite boolean_expr_evaluate_run, Hf. done.
Qed.

Lemma evaluate_connective_without_operands_witness :
  evaluate [NStr "AND"; NStr "OR"] = Err IndexError
  ∧ evaluate [NStr "AND"; NStr "OR"; NBool true; NBool false] = Err IndexError.
Proof.
  destruct (evaluate_connective_without_operands ["AND"; "OR"]) as [H1 H2].
  - apply Forall_cons_2; [by left|].
    apply Forall_cons_2; [by right|apply Forall_nil_2].
  - split; [exact H1|]. exact (H2 ltac:(done) true [NBool false]).
Defined.

Lemma pop_error stack e : pop stack = Err e → e = IndexError.
Proof. unfold pop. destruct (reverse stack); [by intros [= <-]|done]. Qed.

Lemma apply_infix_error stack infix e :
  apply_infix stack infix = Err e → e = IndexError.
Proof.
  unfold apply_infix. destruct infix as [f|]; [|done].
  destruct (pop stack) as [[x s1]|e1] eqn:E1; cbn [mbind result_bind].
  - destruct (pop s1) as [[y s2]|e2] eqn:E2; cbn [mbind result_bind]; [done|].
    intros [= <-]. by eapply pop_error.
  - intros [= <-]. by eapply pop_error.
Qed.

Lemma op_lookup_error s e : op_lookup s = Err e → e = KeyError.
Proof.
  unfold op_lookup. destruct (String.eqb s "AND"); [done|].
  destruct (String.eqb s "OR"); [done|]. by intros [= <-].
Qed.

Lemma first_error stack e : first stack = Err e → e = IndexError.
Proof. unfold first. destruct (stack !! 0%nat); [done|]. by intros [= <-]. Qed.

(** The errors of the loop are lookup errors, at every depth. *)
Lemma run_errors n :
  match n with
  | NList l =>
      ∀ stack infix e, run l stack infix = Err e → e = KeyError ∨ e = IndexError
  | _ => True
  end.
Proof.
  induction n as [l IH| | |] using node_nested_ind; try done.
  induction IH as [|x l Hx _ IHl]; intros stack infix e; [done|].
  unfold run in *. cbn [loop]. destruct x as [l'|f|s|b].
  - cbn [evaluate_value].
    destruct (loop evaluate_value l' [] None) as [[s1 i1]|e1] eqn:E1;
      cbn [mbind result_bind]; [|intros [= <-]; by eapply Hx].
    destruct (first s1) as [v|e2] eqn:E2; cbn [mbind result_bind];
      [|intros [= <-]; right; by eapply first_error].
    destruct (apply_infix (stack ++ [v]) infix) as [[s3 i3]|e3] eqn:E3;
      cbn [mbind result_bind]; [apply IHl|].
    intros [= <-]. right. by eapply apply_infix_error.
  - destruct (apply_infix stack infix) as [[s3 i3]|e3] eqn:E3;
      cbn [mbind result_bind]; [apply IHl|].
    intros [= <-]. right. by eapply apply_infix_error.
  - destruct (op_lookup s) as [g|e3] eqn:E3; cbn [mbind result_bind]; [apply IHl|].
    intros [= <-]. left. by eapply op_lookup_error.
  - destruct (apply_infix (stack ++ [b]) infix) as [[s3 i3]|e3] eqn:E3;
      cbn [mbind result_bind]; [apply IHl|].
    intros [= <-]. right. by eapply apply_infix_error.
Qed.

(** X5.  Whatever the sequence holds, the evaluator fails only with one of
    Python's lookup errors: [KeyError] for an unknown text token,
    [IndexError] for a missing value. *)
Theorem evaluate_errors expr e :
  evaluate expr = Err e → e = KeyError ∨ e = IndexError.
Proof.
  unfold evaluate. rewrite boolean_expr_evaluate_run.
  destruct (run expr [] None) as [[stack infix]|e1] eqn:E1; cbn [mbind result_bind].
  - intros H. right. by eapply first_error.
  - intros [= <-]. by eapply (run_errors (NList expr)).
Qed.

Lemma evaluate_errors_witness :
  evaluate [NBool true; NStr "AND"; NList []] = Err IndexError
  ∧ (IndexError = KeyError ∨ IndexError = IndexError).
Proof.
  split; [reflexivity|].
  exact (evaluate_errors [NBool true; NStr "AND"; NList []] IndexError eq_refl).
Defined.

End evaluator_edges.

(** * Further properties of the substitution *)

Section substitution_edges.
Import Substitution.

Lemma loop_bool data results index b rest scratch :
  loop (lookup_value data) data results index (NBool b :: rest) scratch
  = loop (lookup_value data) data results (S index) rest scratch.
Proof. reflexivity. Qed.

Lemma loop_field data results index f rest scratch :
  loop (lookup_value data) data results index (NField f :: rest) scratch
  = key ← item results (index + 1);
    operator ← op_lookup key;
    expected ← item results (index + 2);
    field_value ← redcap_lookup (field f) data;
    field_result ← operator field_value expected;
    Ok (scratch ++ [NBool field_result]).
Proof. reflexivity. Qed.

(** *** The shape of the output *)

Lemma boolean_tree_collapse inner :
  forallb boolean_tree inner = true → boolean_tree (collapse inner) = true.
Proof.
  destruct inner as [|x [|y inner]]; cbn [collapse]; [done| |done].
  cbn [forallb]. by rewrite andb_true_r.
Qed.

Lemma loop_boolean data results rest :
  Forall (λ n, ∀ out, lookup_value data n = Ok out →
                      forallb boolean_tree out = true) rest →
  ∀ index scratch out,
    forallb boolean_tree scratch = true →
    loop (lookup_value data) data results index rest scratch = Ok out →
    forallb boolean_tree out = true.
Proof.
  induction 1 as [|x rest Hx _ IH]; intros index scratch out Hs.
  - rewrite loop_nil. by intros [= <-].
  - destruct x as [l|f|s|b].
    + rewrite loop_list.
      destruct (lookup_value data (NList l)) as [inner|e] eqn:E; [|done].
      cbn [mbind result_bind]. apply IH.
      rewrite forallb_app, Hs. cbn [forallb].
      by rewrite boolean_tree_collapse by (by apply Hx).
    + rewrite loop_field.
      intros (key & _ & H)%bind_Ok. apply bind_Ok in H as (o & _ & H).
      apply bind_Ok in H as (ex & _ & H). apply bind_Ok in H as (fv & _ & H).
      apply bind_Ok in H as (r & _ & [= <-]).
      by rewrite forallb_app, Hs.
    + rewrite loop_text. apply IH.
      destruct (is_connective (NStr s)) eqn:E; [|done].
      rewrite forallb_app, Hs. cbn [forallb boolean_tree].
      cbn [is_connective] in E. by rewrite E.
    + rewrite loop_bool. by apply IH.
Qed.

Lemma lookup_value_boolean data n out :
  lookup_value data n = Ok out → forallb boolean_tree out = true.
Proof.
  revert out. induction n as [l IH|f|s|b] using node_nested_ind; intros out.
  - rewrite lookup_value_list. by apply loop_boolean.
  - done.
  - by intros [= <-].
  - done.
Qed.

(** X6.  Whatever tree it is given, the substitution returns a boolean tree:
    booleans, [AND], [OR] and nested lists of these.  No field reference, no
    operator, literal or other text is left in it. *)
Theorem substitute_output_boolean tree data out :
  substitute tree data = Ok out → forallb boolean_tree out = true.
Proof. apply lookup_value_boolean. Qed.

Lemma substitute_output_boolean_witness :
  substitute [NList [NStr "!"; NList [NField (mk_myField "a" None None);
                                      NStr "="; NStr "1"]];
              NStr "and"; NStr "OR"; NList [NStr "x"; NStr "="; NStr "y"]]
    {[ "a" := PyStr "1" ]}
  = Ok [NBool true; NStr "OR"; NList []]
  ∧ forallb boolean_tree [NBool true; NStr "OR"; NList []] = true.
Proof.
  split; [reflexivity|].
  exact (substitute_output_boolean
           [NList [NStr "!"; NList [NField (mk_myField "a" None None);
                                    NStr "="; NStr "1"]];
            NStr "and"; NStr "OR"; NList [NStr "x"; NStr "="; NStr "y"]]
           {[ "a" := PyStr "1" ]} _ eq_refl).
Defined.

(** On a boolean tree the loop of the evaluator meets no unknown token. *)
Lemma run_boolean n :
  match n with
  | NList l =>
      forallb boolean_tree l = true →
      ∀ stack infix e, Evaluator.run l stack infix = Err e → e = IndexError
  | _ => True
  end.
Proof.
  induction n as [l IH| | |] using node_nested_ind; try done.
  induction IH as [|x l Hx _ IHl]; intros Hl stack infix e; [done|].
  cbn [forallb] in Hl. apply andb_prop in Hl as [Hx' Hl].
  unfold Evaluator.run in *. cbn [Evaluator.loop]. destruct x as [l'|f|s|b].
  - cbn [Evaluator.evaluate_value].
    destruct (Evaluator.loop Evaluator.evaluate_value l' [] None)
      as [[s1 i1]|e1] eqn:E1; cbn [mbind result_bind];
      [|intros [= <-]; by eapply Hx].
    destruct (Evaluator.first s1) as [v|e2] eqn:E2; cbn [mbind result_bind];
      [|intros [= <-]; by eapply first_error].
    destruct (Evaluator.apply_infix (stack ++ [v]) infix) as [[s3 i3]|e3] eqn:E3;
      cbn [mbind result_bind]; [by apply IHl|].
    intros [= <-]. by eapply apply_infix_error.
  - done.
  - cbn [boolean_tree] in Hx'.
    assert (s = "AND" ∨ s = "OR") as Hs.
    { apply orb_prop in Hx' as [H|H]; apply String.eqb_eq in H; auto. }
    destruct (op_lookup_connective s Hs) as [g ->]. cbn [mbind result_bind].
    by apply IHl.
  - destruct (Evaluator.apply_infix (stack ++ [b]) infix) as [[s3 i3]|e3] eqn:E3;
      cbn [mbind result_bind]; [by apply IHl|].
    intros [= <-]. by eapply apply_infix_error.
Qed.

Lemma evaluate_boolean_tree out e :
  forallb boolean_tree out = true → evaluate out = Err e → e = IndexError.
Proof.
  intros Hout. unfold evaluate. rewrite boolean_expr_evaluate_run.
  destruct (Evaluator.run out [] None) as [[stack infix]|e1] eqn:E1;
    cbn [mbind result_bind].
  - by apply first_error.
  - intros [= <-]. by eapply (run_boolean (NList out)).
Qed.

(** X7.  The evaluator applied to what the substitution returns gives a
    boolean or fails with [IndexError]; it meets no token it does not
    know. *)
Theorem evaluate_after_substitute tree data out e :
  substitute tree data = Ok out → evaluate out = Err e → e = IndexError.
Proof.
  intros Hout%lookup_value_boolean. by apply evaluate_boolean_tree.
Qed.

Lemma evaluate_after_substitute_witness :
  substitute [NList [NStr "x"; NStr "="; NStr "y"]] ∅ = Ok [NList []]
  ∧ evaluate [NList []] = Err IndexError
  ∧ IndexError = IndexError.
Proof.
  split; [reflexivity|]. split; [reflexivity|].
  exact (evaluate_after_substitute [NList [NStr "x"; NStr "="; NStr "y"]] ∅
           [NList []] IndexError eq_refl eq_refl).
Defined.

(** *** The early return *)

Lemma lookup_prefix {A} (l : list A) i x post :
  l !! i = Some x → (l ++ post) !! i = Some x.
Proof. intros H. by apply lookup_app_l_Some. Qed.

Lemma item_prefix results post i x :
  results !! i = Some x → item (results ++ post) i = item results i.
Proof.
  intros H. unfold item. by rewrite (lookup_prefix _ _ _ _ H), H.
Qed.

Lemma loop_stops data seen pre f k e post scratch :
  loop (lookup_value data) data (seen ++ pre ++ NField f :: k :: e :: post)
    (length seen) (pre ++ NField f :: k :: e :: post) scratch
  = loop (lookup_value data) data (seen ++ pre ++ [NField f; k; e])
      (length seen) (pre ++ [NField f; k; e]) scratch.
Proof.
  assert (∀ seen pre i x,
            (seen ++ pre ++ [NField f; k; e]) !! i = Some x →
            item (seen ++ pre ++ NField f :: k :: e :: post) i
            = item (seen ++ pre ++ [NField f; k; e]) i) as Hitem.
  { intros seen' pre' i x H.
    replace (seen' ++ pre' ++ NField f :: k :: e :: post)
      with ((seen' ++ pre' ++ [NField f; k; e]) ++ post)
      by (by rewrite <- !List.app_assoc).
    by eapply item_prefix. }
  assert (∀ (seen tl : list node) i,
            (i < length tl)%nat → is_Some ((seen ++ tl) !! (length seen + i)%nat))
    as Hin.
  { intros seen' tl i Hi. apply lookup_lt_is_Some. rewrite length_app. lia. }
  revert seen scratch. induction pre as [|x pre IH]; intros seen scratch.
  - cbn [app]. rewrite !loop_field.
    destruct (Hin seen [NField f; k; e] 1%nat) as [x1 H1]; [cbn; lia|].
    destruct (Hin seen [NField f; k; e] 2%nat) as [x2 H2]; [cbn; lia|].
    pose proof (Hitem seen [] _ _ H1) as E1.
    pose proof (Hitem seen [] _ _ H2) as E2. cbn [app] in E1, E2.
    by rewrite E1, E2.
  - cbn [app].
    assert (∀ tail, seen ++ x :: pre ++ tail = (seen ++ [x]) ++ pre ++ tail) as Hcons
      by (intros tail; by rewrite <- List.app_assoc).
    assert (S (length seen) = length (seen ++ [x])) as Hlen
      by (rewrite length_app; cbn; lia).
    destruct x as [l|g|s|b].
    + rewrite !loop_list.
      destruct (lookup_value data (NList l)) as [inner|err]; [|done].
      cbn [mbind result_bind]. rewrite !Hcons, Hlen. apply IH.
    + rewrite !loop_field.
      destruct (Hin seen (NField g :: pre ++ [NField f; k; e]) 1%nat)
        as [x1 H1]; [cbn [length]; rewrite length_app; cbn [length]; lia|].
      destruct (Hin seen (NField g :: pre ++ [NField f; k; e]) 2%nat)
        as [x2 H2]; [cbn [length]; rewrite length_app; cbn [length]; lia|].
      pose proof (Hitem seen (NField g :: pre) _ _ H1) as E1.
      pose proof (Hitem seen (NField g :: pre) _ _ H2) as E2.
      cbn [app] in E1, E2. by rewrite E1, E2.
    + rewrite !loop_text, !Hcons, Hlen. apply IH.
    + rewrite !loop_bool, !Hcons, Hlen. apply IH.
Qed.

(** X8.  The loop returns at the first field reference of a list: what
    stands after the field, its operator and its literal is never looked
    at, whatever it is. *)
Theorem substitute_stops_at_first_field pre f k e post data :
  substitute (pre ++ NField f :: k :: e :: post) data
  = substitute (pre ++ [NField f; k; e]) data.
Proof.
  unfold substitute, field_value_lookup. rewrite !lookup_value_list.
  apply (loop_stops data [] pre f k e post []).
Qed.

Lemma substitute_stops_at_first_field_witness :
  substitute
    [NField (mk_myField "a" None None); NStr "="; NStr "1"; NStr "AND";
     NField (mk_myField "missing" None None); NStr "="; NStr "2"]
    {[ "a" := PyStr "1" ]}
  = Ok [NBool true].
Proof.
  rewrite (substitute_stops_at_first_field [] (mk_myField "a" None None)
             (NStr "=") (NStr "1")
             [NStr "AND"; NField (mk_myField "missing" None None); NStr "=";
              NStr "2"]).
  reflexivity.
Defined.

(** *** Text, booleans and the operands of a field *)

Lemma loop_flat data results pre rest :
  forallb flat_item pre = true →
  ∀ index scratch,
    loop (lookup_value data) data results index (pre ++ rest) scratch
    = loop (lookup_value data) data results (index + length pre) rest
        (scratch ++ List.filter is_connective pre).
Proof.
  induction pre as [|x pre IH]; intros Hpre index scratch.
  - cbn [app length List.filter]. by rewrite Nat.add_0_r, app_nil_r.
  - cbn [forallb] in Hpre. apply andb_prop in Hpre as [Hx Hpre].
    cbn [app length List.filter].
    replace (index + S (length pre))%nat with (S index + length pre)%nat by lia.
    destruct x as [l|f|s|b]; try done.
    + rewrite loop_text, IH by done.
      destruct (is_connective (NStr s)); [|done]. by rewrite <- List.app_assoc.
    + rewrite loop_bool, IH by done. done.
Qed.

(** X9.  A list without nested lists and field references is reduced to
    its connectives: every other text token (an operator, a literal, [!], a
    connective in lower case) and every boolean is dropped. *)
Theorem substitute_flat l data :
  forallb flat_item l = true →
  substitute l data = Ok (List.filter is_connective l).
Proof.
  intros Hl. unfold substitute, field_value_lookup. rewrite lookup_value_list.
  rewrite <- (app_nil_r l) at 2. rewrite loop_flat by done. by rewrite loop_nil.
Qed.

Lemma substitute_flat_witness :
  substitute [NStr "!"; NStr "AND"; NBool true; NStr "and"; NStr "<>"; NStr "OR"] ∅
  = Ok [NStr "AND"; NStr "OR"].
Proof.
  exact (substitute_flat
           [NStr "!"; NStr "AND"; NBool true; NStr "and"; NStr "<>"; NStr "OR"] ∅
           eq_refl).
Defined.

Lemma item_app pre tl i : item (pre ++ tl) (length pre + i) = item tl i.
Proof.
  unfold item. rewrite lookup_app_r by lia.
  by replace (length pre + i - length pre)%nat with i by lia.
Qed.

Lemma op_lookup_other s :
  Spec.is_operator s = false → op_lookup (NStr s) = Err KeyError.
Proof.
  intros H. destruct s as [|a s]; [done|].
  destruct a as [[] [] [] [] [] [] [] []]; try reflexivity;
    (destruct s as [|b s]; [by vm_compute in H|]); try reflexivity;
    destruct b as [[] [] [] [] [] [] [] []]; try reflexivity;
    destruct s; try reflexivity; by vm_compute in H.
Qed.

(** X10.  A field reference needs its two operands in the same list, and
    they are read before the data source is: with nothing or only an
    operator after it the loop raises [IndexError]; followed by a text that
    is no operator it raises [KeyError] and followed by a nested list
    [TypeError], whether the data source knows the field or not. *)
Theorem substitute_field_operands pre f data :
  forallb flat_item pre = true →
  substitute (pre ++ [NField f]) data = Err IndexError
  ∧ (∀ o, Spec.is_operator o = true →
          substitute (pre ++ [NField f; NStr o]) data = Err IndexError)
  ∧ (∀ s post, Spec.is_operator s = false →
               substitute (pre ++ NField f :: NStr s :: post) data = Err KeyError)
  ∧ (∀ l post,
       substitute (pre ++ NField f :: NList l :: post) data = Err TypeError).
Proof.
  intros Hpre.
  assert (∀ tl, substitute (pre ++ NField f :: tl) data
                = key ← item tl 0;
                  operator ← op_lookup key;
                  expected ← item tl 1;
                  field_value ← redcap_lookup (field f) data;
                  field_result ← operator field_value expected;
                  Ok (List.filter is_connective pre ++ [NBool field_result])) as H.
  { intros tl. unfold substitute, field_value_lookup.
    rewrite lookup_value_list, loop_flat, loop_field by done. cbn [app].
    replace (0 + length pre + 1)%nat with (length pre + 1)%nat by lia.
    replace (0 + length pre + 2)%nat with (length pre + 2)%nat by lia.
    by rewrite (item_app pre (NField f :: tl) 1), (item_app pre (NField f :: tl) 2). }
  repeat split.
  - by rewrite H.
  - intros o Ho. rewrite H.
    destruct (op_lookup_operator o Ho) as (g & Hg & _).
    change (item [NStr o] 0%nat) with (Ok (NStr o)). cbn [mbind result_bind].
    by rewrite Hg.
  - intros s post Hs. rewrite H.
    change (item (NStr s :: post) 0%nat) with (Ok (NStr s)).
    cbn [mbind result_bind]. by rewrite op_lookup_other.
  - intros l post. by rewrite H.
Qed.

Lemma substitute_field_operands_witness :
  substitute ([NStr "AND"] ++ [NField (mk_myField "a" None None)])
    {[ "a" := PyStr "1" ]} = Err IndexError
  ∧ substitute ([NStr "AND"] ++ [NField (mk_myField "a" None None); NStr "="])
      {[ "a" := PyStr "1" ]} = Err IndexError
  ∧ substitute ([NStr "AND"] ++ NField (mk_myField "a" None None)
                 :: NStr "==" :: [NStr "1"])
      {[ "a" := PyStr "1" ]} = Err KeyError
  ∧ substitute ([NStr "AND"] ++ NField (mk_myField "a" None None)
                 :: NList [] :: [NStr "1"])
      {[ "a" := PyStr "1" ]} = Err TypeError.
Proof.
  destruct (substitute_field_operands [NStr "AND"] (mk_myField "a" None None)
              {[ "a" := PyStr "1" ]} eq_refl) as (H1 & H2 & H3 & H4).
  split; [exact H1|]. split; [exact (H2 "=" eq_refl)|].
  split; [exact (H3 "==" [NStr "1"] eq_refl)|exact (H4 [] [NStr "1"])].
Defined.

End substitution_edges.

(** * Further properties of the parser *)

(** ** The exceptions of the parser *)

Section parser_errors.
Import PP.

Lemma bind_Err {A B} (r : result A) (k : A → result B) e :
  r ≫= k = Err e → r = Err e ∨ ∃ a, r = Ok a ∧ k a = Err e.
Proof. destruct r as [a|e']; cbn; [eauto|]. intros [= ->]. by left. Qed.

Lemma raises_Word chars : raises_syntax (Word chars).
Proof.
  intros st e. unfold Word. destruct (span _ _) as [[|c w] r]; [|done].
  intros [= <-]. by left.
Qed.

Lemma raises_Literal m : raises_syntax (Literal m).
Proof.
  intros st e. unfold Literal. destruct (starts_with _ _ _); [done|].
  intros [= <-]. by left.
Qed.

Lemma raises_QuotedString q e : raises_syntax (QuotedString q e).
Proof.
  intros st err. unfold QuotedString.
  destruct (rest _) as [|c s]; [intros [= <-]; by left|].
  destruct (Ascii.eqb c q); [|intros [= <-]; by left].
  destruct (span _ s) as [body [|c' r']]; [intros [= <-]; by left|].
  destruct (Ascii.eqb c' e); [done|intros [= <-]; by left].
Qed.

Lemma raises_oneOf strs : raises_syntax (oneOf strs).
Proof.
  intros st e. unfold oneOf. destruct (longest_match _ _); [done|].
  intros [= <-]. by left.
Qed.

Lemma raises_Keyword caseless m : raises_syntax (Keyword caseless m).
Proof.
  intros st e. unfold Keyword. destruct (_ && _); [done|].
  intros [= <-]. by left.
Qed.

Lemma raises_Suppress {A B} (p : parser (list A)) :
  raises_syntax p → raises_syntax (Suppress (B:=B) p).
Proof.
  intros Hp st e. unfold Suppress.
  intros [H|([t st1] & _ & H)]%bind_Err; [by eapply Hp|done].
Qed.

Lemma raises_And {A} (a b : parser (list A)) :
  raises_syntax a → raises_syntax b → raises_syntax (And a b).
Proof.
  intros Ha Hb st e. unfold And.
  intros [H|([t st1] & _ & H)]%bind_Err; [by eapply Ha|].
  apply bind_Err in H as [H|([t2 st2] & _ & H)]; [by eapply Hb|done].
Qed.

Lemma raises_MatchFirst {A} (a b : parser A) :
  raises_syntax a → raises_syntax b → raises_syntax (MatchFirst a b).
Proof.
  intros Ha Hb st e. unfold MatchFirst.
  destruct (a st) as [|e1] eqn:E; [done|].
  destruct e1; try (intros [= <-]; by eapply Ha). apply Hb.
Qed.

Lemma raises_Group p : raises_syntax p → raises_syntax (Group p).
Proof.
  intros Hp st e. unfold Group.
  intros [H|([t st1] & _ & H)]%bind_Err; [by eapply Hp|done].
Qed.

Lemma raises_Opt {A} (p : parser (list A)) : raises_syntax p → raises_syntax (Opt p).
Proof.
  intros Hp st e. unfold Opt. destruct (p st) as [|e1] eqn:E; [done|].
  destruct e1; try done; intros [= <-]; by eapply Hp.
Qed.

Lemma raises_FollowedBy {A B} (p : parser A) :
  raises_syntax p → raises_syntax (FollowedBy (B:=B) p).
Proof.
  intros Hp st e. unfold FollowedBy.
  intros [H|([t st1] & _ & H)]%bind_Err; [by eapply Hp|done].
Qed.

Lemma raises_many {A} fuel (p : parser (list A)) :
  raises_syntax p → raises_syntax (many fuel p).
Proof.
  intros Hp. induction fuel as [|fuel IH]; intros st e; cbn [many].
  - intros [= <-]. by right.
  - destruct (p st) as [[t st1]|e1] eqn:E.
    + intros [H|([t2 st2] & _ & H)]%bind_Err; [by eapply IH|done].
    + destruct e1; try done; intros [= <-]; by eapply Hp.
Qed.

Lemma raises_OneOrMore {A} fuel (p : parser (list A)) :
  raises_syntax p → raises_syntax (OneOrMore fuel p).
Proof. intros Hp. by apply raises_And, raises_many. Qed.

Lemma raises_text {A} p (wrap : string → A) :
  raises_syntax p → raises_syntax (text p wrap).
Proof.
  intros Hp st e. unfold text.
  intros [H|([t st1] & _ & H)]%bind_Err; [by eapply Hp|done].
Qed.

(** A parse action that fails only with [IndexError] adds no exception:
    pyparsing reports that as a syntax error. *)
Lemma raises_set_parse_action {A B} (p : parser (list A)) (fn : list A → result B) :
  (∀ t e, fn t = Err e → e = IndexError) →
  raises_syntax p → raises_syntax (set_parse_action p fn).
Proof.
  intros Hfn Hp st e. unfold set_parse_action.
  intros [H|([t st1] & _ & H)]%bind_Err; [by eapply Hp|].
  destruct (fn t) as [v|e1] eqn:E; [done|].
  apply Hfn in E as ->. injection H as <-. by left.
Qed.

Lemma raises_out_of_fuel {A} : raises_syntax (Grammar.out_of_fuel (A:=A)).
Proof. intros st e [= <-]. by right. Qed.

Lemma raises_binary_left fuel opExpr lastExpr :
  raises_syntax opExpr → raises_syntax lastExpr →
  raises_syntax (Grammar.binary_left fuel opExpr lastExpr).
Proof.
  intros Hop Hlast. unfold Grammar.binary_left.
  apply raises_MatchFirst; [|done]. apply raises_And.
  - by apply raises_FollowedBy, raises_And, raises_And.
  - by apply raises_Group, raises_And, raises_OneOrMore, raises_And.
Qed.

Lemma raises_unary_right fuel opExpr lastExpr :
  raises_syntax opExpr → raises_syntax lastExpr →
  raises_syntax (Grammar.unary_right fuel opExpr lastExpr).
Proof.
  intros Hop Hlast.
  induction fuel as [|fuel IH]; cbn [Grammar.unary_right];
    (apply raises_MatchFirst; [|done]); apply raises_And.
  - apply raises_FollowedBy, raises_And; [done|apply raises_out_of_fuel].
  - apply raises_Group, raises_And; [by apply raises_Opt|apply raises_out_of_fuel].
  - by apply raises_FollowedBy, raises_And.
  - apply raises_Group, raises_And; [by apply raises_Opt|done].
Qed.

Lemma raises_levels fuel op_list :
  Forall (λ l, raises_syntax l.1.1) op_list →
  ∀ lastExpr, raises_syntax lastExpr →
    raises_syntax (Grammar.levels fuel lastExpr op_list).
Proof.
  induction 1 as [|[[opExpr arity] assoc] op_list Hop _ IH];
    intros lastExpr Hlast; cbn [Grammar.levels]; [done|].
  apply IH. cbn [fst] in Hop.
  destruct arity as [|[|[|arity]]], assoc; try done.
  - by apply raises_unary_right.
  - by apply raises_binary_left.
Qed.

Lemma raises_infix_notation fuel base_expr op_list :
  raises_syntax base_expr → Forall (λ l, raises_syntax l.1.1) op_list →
  raises_syntax (Grammar.infix_notation fuel base_expr op_list).
Proof.
  intros Hbase Hops.
  induction fuel as [|fuel IH]; cbn [Grammar.infix_notation];
    (apply raises_levels; [done|]); (apply raises_MatchFirst; [done|]);
    (apply raises_And; [apply raises_Suppress, raises_Literal|]);
    (apply raises_And; [|apply raises_Suppress, raises_Literal]).
  - apply raises_out_of_fuel.
  - done.
Qed.

Lemma token_error tokens i e : Grammar.token tokens i = Err e → e = IndexError.
Proof. unfold Grammar.token. destruct (tokens !! i); [done|]. by intros [= <-]. Qed.

Lemma token_bind_error {B} tokens i (k : string → result B) e :
  (∀ t, k t = Err e → e = IndexError) →
  Grammar.token tokens i ≫= k = Err e → e = IndexError.
Proof.
  intros Hk [H|(t & _ & H)]%bind_Err; [by eapply token_error|by eapply Hk].
Qed.

Lemma raises_field : raises_syntax Grammar.field.
Proof.
  assert (raises_syntax (Grammar.lbrace +++ Grammar.alphabet +++ Grammar.checkbox
                         +++ Grammar.rbrace)) as Hcheck.
  { repeat apply raises_And.
    - apply raises_Suppress, raises_Literal.
    - apply raises_Word.
    - apply raises_QuotedString.
    - apply raises_Suppress, raises_Literal. }
  unfold Grammar.field. repeat apply raises_MatchFirst.
  - apply raises_set_parse_action;
      [|apply raises_And; [apply raises_QuotedString|done]].
    intros t e. unfold Grammar.create_my_event_check.
    repeat (apply token_bind_error; intros ?). done.
  - apply raises_set_parse_action;
      [|apply raises_And; apply raises_QuotedString].
    intros t e. unfold Grammar.create_my_event_field.
    repeat (apply token_bind_error; intros ?). done.
  - apply raises_set_parse_action; [|done].
    intros t e. unfold Grammar.create_my_check.
    repeat (apply token_bind_error; intros ?). done.
  - apply raises_set_parse_action; [|apply raises_QuotedString].
    intros t e. unfold Grammar.create_my_field.
    repeat (apply token_bind_error; intros ?). done.
  - apply raises_text, raises_MatchFirst; apply raises_QuotedString.
Qed.

Lemma raises_expression : raises_syntax Grammar.expression.
Proof.
  unfold Grammar.expression. apply raises_Group. repeat apply raises_And.
  - apply raises_field.
  - apply raises_text, raises_oneOf.
  - apply raises_text, raises_MatchFirst; apply raises_QuotedString.
Qed.

Lemma raises_grammar fuel :
  raises_syntax (Grammar.redcap_branching_logic_grammar fuel).
Proof.
  unfold Grammar.redcap_branching_logic_grammar.
  apply raises_infix_notation; [apply raises_expression|].
  repeat apply Forall_cons_2; [..|apply Forall_nil_2]; cbn [fst];
    apply raises_text; (apply raises_Keyword || apply raises_oneOf).
Qed.

Lemma create_ast_error s e : create_ast_as_list s = Err e → e = ParseException.
Proof.
  intros E.
  assert (e = ParseException ∨ e = OutOfFuel) as [->| ->]; [|done|].
  - unfold create_ast_as_list, Grammar.parse_string in E.
    apply bind_Err in E as [E|([t st] & _ & E)]; [|done].
    by eapply raises_grammar.
  - by apply create_ast_as_list_fuel in E.
Qed.

(** X11.  On every text the parser either returns one tree of the grammar's
    shape (a comparison triple, or a list of nested trees and text) or
    raises [ParseException]: no other exception leaves [create_ast]. *)
Theorem create_ast_outcome s :
  (∃ n, create_ast_as_list s = Ok [n] ∧ Spec.parsed n = true)
  ∨ create_ast_as_list s = Err ParseException.
Proof.
  destruct (create_ast_as_list s) as [ast|e] eqn:E.
  - left. destruct (create_ast_as_list_parsed s ast E) as (n & -> & Hn). eauto.
  - right. f_equal. by eapply create_ast_error.
Qed.

End parser_errors.

(** ** Where the next terminal starts *)

Section next_terminal.
Import PP.

Lemma skip_rest p q s : rest (skip_whitespace p s) = rest (skip_whitespace q s).
Proof.
  revert p q. induction s as [|c s IH]; intros p q; [done|].
  cbn [skip_whitespace]. destruct (white_chars c); [apply IH|done].
Qed.

Lemma next_char_preParse st :
  next_char (rest st)
  = match rest (preParse st) with String c _ => Some c | "" => None end.
Proof. unfold next_char, preParse. by rewrite (skip_rest None (prev st)). Qed.

Lemma next_char_head c s : white_chars c = false → next_char (String c s) = Some c.
Proof. intros H. unfold next_char. cbn [skip_whitespace]. by rewrite H. Qed.

Lemma next_char_white c s : white_chars c = true → next_char (String c s) = next_char s.
Proof.
  intros H. unfold next_char. cbn [skip_whitespace]. rewrite H.
  by rewrite (skip_rest (Some c) None).
Qed.

Lemma QuotedString_reject q e st :
  next_char (rest st) ≠ Some q → QuotedString q e st = Err ParseException.
Proof.
  rewrite next_char_preParse. unfold QuotedString.
  destruct (rest (preParse st)) as [|c s]; [done|].
  destruct (Ascii.eqb_spec c q) as [->|]; done.
Qed.

Lemma Literal_reject c st :
  next_char (rest st) ≠ Some c → Literal (String c "") st = Err ParseException.
Proof.
  rewrite next_char_preParse. unfold Literal.
  destruct (rest (preParse st)) as [|x s]; [done|]. cbn [starts_with].
  destruct (Ascii.eqb_spec c (id x)) as [->|]; done.
Qed.

Lemma Keyword_reject (caseless : bool) (c : ascii) m st :
  (∀ x : ascii, next_char (rest st) = Some x →
     (if caseless then upper x else x) ≠ c) →
  Keyword caseless (String c m) st = Err ParseException.
Proof.
  rewrite next_char_preParse. unfold Keyword. intros H.
  destruct (rest (preParse st)) as [|x s]; [done|]. cbn [starts_with].
  specialize (H x eq_refl).
  destruct caseless; cbv zeta; cbn [starts_with];
    [destruct (Ascii.eqb_spec c (upper x)) as [->|]
    |destruct (Ascii.eqb_spec c (id x)) as [->|]]; done.
Qed.

Lemma operator_reject st :
  (∀ x, next_char (rest st) = Some x → operator_char x = false) →
  Grammar.operator st = Err ParseException.
Proof.
  rewrite next_char_preParse. unfold Grammar.operator, oneOf. intros H.
  destruct (rest (preParse st)) as [|x s]; [done|].
  specialize (H x eq_refl). unfold operator_char in H.
  apply orb_false_elim in H as [[H1 H2]%orb_false_elim H3].
  unfold longest_match. cbn [foldl starts_with id].
  rewrite (Ascii.eqb_sym "=" x), (Ascii.eqb_sym "<" x), (Ascii.eqb_sym ">" x).
  by rewrite H1, H2, H3.
Qed.

Lemma stops_le n m r : (m ≤ n)%nat → stops n r = true → stops m r = true.
Proof.
  intros Hmn. unfold stops. destruct (next_char r) as [c|]; [|done].
  intros [[H1 H2]%andb_prop H3]%andb_prop. rewrite H1. cbn [andb].
  apply andb_true_intro. split.
  - apply orb_prop in H2 as [H2|H2]; [|by rewrite H2, orb_true_r].
    apply Nat.ltb_lt in H2. apply orb_true_intro. left. apply Nat.ltb_lt. lia.
  - apply orb_prop in H3 as [H3|H3]; [|by rewrite H3, orb_true_r].
    apply Nat.ltb_lt in H3. apply orb_true_intro. left. apply Nat.ltb_lt. lia.
Qed.

Lemma stops_operator n p r :
  stops n r = true → text Grammar.operator NStr (mk_pstate p r) = Err ParseException.
Proof.
  intros H. apply text_Err, operator_reject. cbn [rest]. intros x Hx.
  unfold stops in H. rewrite Hx in H.
  apply andb_prop in H as [[H _]%andb_prop _]. by apply negb_true_iff.
Qed.

Lemma stops_and n p r :
  (3 ≤ n)%nat → stops n r = true →
  text Grammar.and_ NStr (mk_pstate p r) = Err ParseException.
Proof.
  intros Hn H. apply text_Err. unfold Grammar.and_, CaselessKeyword.
  apply Keyword_reject. cbn [rest]. intros x Hx.
  unfold stops in H. rewrite Hx in H.
  apply andb_prop in H as [[_ H]%andb_prop _].
  apply orb_prop in H as [H|H]; [apply Nat.ltb_lt in H; lia|].
  apply negb_true_iff in H. by apply Ascii.eqb_neq.
Qed.

Lemma stops_or n p r :
  (4 ≤ n)%nat → stops n r = true →
  text Grammar.or_ NStr (mk_pstate p r) = Err ParseException.
Proof.
  intros Hn H. apply text_Err. unfold Grammar.or_, CaselessKeyword.
  apply Keyword_reject. cbn [rest]. intros x Hx.
  unfold stops in H. rewrite Hx in H.
  apply andb_prop in H as [_ H].
  apply orb_prop in H as [H|H]; [apply Nat.ltb_lt in H; lia|].
  apply negb_true_iff in H. by apply Ascii.eqb_neq.
Qed.

End next_terminal.

(** ** Texts the grammar rejects at their first character *)

Section rejection.
Import PP.

Lemma spaces_succ n :
  String.concat "" (replicate (S n) " ")
  = String " " (String.concat "" (replicate n " ")).
Proof. destruct n; [done|]. cbn [replicate String.concat]. by norm_text. Qed.

Lemma next_char_spaces n t :
  next_char (String.concat "" (replicate n " ") +:+ t) = next_char t.
Proof.
  induction n as [|n IH]; [by rewrite app_empty|].
  rewrite spaces_succ, app_String. by rewrite next_char_white.
Qed.

(** Expanding the tabs leaves the first character after the whitespace as
    it is. *)
Lemma expandtabs_next column s :
  next_char (expandtabs_from column s) = next_char s.
Proof.
  revert column. induction s as [|c s IH]; intros column; [done|].
  cbn [expandtabs_from]. destruct (Ascii.eqb_spec c "009") as [->|Hc].
  - by rewrite next_char_spaces, IH, (next_char_white "009").
  - destruct (Ascii.eqb c "010" || Ascii.eqb c "013") eqn:Hnl.
    + assert (white_chars c = true) as Hw.
      { unfold white_chars. apply orb_prop in Hnl as [-> | ->];
          by rewrite ?orb_true_r. }
      by rewrite !next_char_white, IH.
    + destruct (white_chars c) eqn:Hw.
      * by rewrite !next_char_white, IH.
      * by rewrite !next_char_head.
Qed.

Lemma binary_left_fail fuel opExpr lastExpr st :
  lastExpr st = Err ParseException →
  Grammar.binary_left fuel opExpr lastExpr st = Err ParseException.
Proof.
  intros H. unfold Grammar.binary_left, MatchFirst, And, FollowedBy.
  by rewrite H.
Qed.

Lemma starter_cases c :
  starter c = false →
  c ≠ "["%char ∧ c ≠ "'"%char ∧ c ≠ "034"%char ∧ c ≠ "("%char ∧ c ≠ "!"%char.
Proof.
  unfold starter. intros H.
  repeat (apply orb_false_elim in H as [H ?]).
  repeat split; by apply Ascii.eqb_neq.
Qed.

Lemma field_reject st :
  next_char (rest st) ≠ Some "["%char → next_char (rest st) ≠ Some "'"%char →
  next_char (rest st) ≠ Some "034"%char →
  Grammar.field st = Err ParseException.
Proof.
  intros H1 H2 H3.
  unfold Grammar.field, MatchFirst, Grammar.varcheck_in_event,
    Grammar.variable_in_event, Grammar.variable_in_check, Grammar.variable,
    set_parse_action, Grammar.event.
  unfold And at 1. rewrite (QuotedString_reject "[" "]") by done.
  cbn [mbind result_bind].
  unfold And at 1. rewrite (QuotedString_reject "[" "]") by done.
  cbn [mbind result_bind].
  unfold And at 1. unfold Grammar.lbrace, Suppress.
  rewrite (Literal_reject "[") by done. cbn [mbind result_bind].
  unfold text, Grammar.value, MatchFirst.
  rewrite (QuotedString_reject "034" "034") by done.
  by rewrite (QuotedString_reject "'" "'") by done.
Qed.

Lemma level4_reject fuel st :
  (∀ c, next_char (rest st) = Some c → starter c = false) →
  level4 fuel st = Err ParseException.
Proof.
  intros H.
  assert (∀ c : ascii, starter c = true → next_char (rest st) ≠ Some c) as Hne.
  { intros c Hc Hn. apply H in Hn. congruence. }
  unfold level4, level3, level2, level1.
  do 3 apply binary_left_fail.
  rewrite unary_right_skip.
  - unfold level0, MatchFirst, Grammar.expression, Group.
    unfold And at 1. rewrite field_reject by (by apply Hne).
    cbn [mbind result_bind]. unfold And, Suppress.
    by rewrite (Literal_reject "(") by (by apply Hne).
  - apply text_Err. unfold Grammar.not_. apply Keyword_reject.
    intros x Hx ->. by apply (Hne "!"%char).
Qed.

(** X12.  A text that is empty or blank, or whose first character after
    the whitespace is not an opening bracket, a single or double quote, an
    opening parenthesis or an exclamation mark, is rejected with
    [ParseException]. *)
Theorem create_ast_rejects s :
  from_option starter false (next_char s) = false →
  create_ast_as_list s = Err ParseException.
Proof.
  intros H. unfold create_ast_as_list, Grammar.parse_string.
  rewrite grammar_levels, level4_reject; [done|].
  cbn [rest]. unfold expandtabs. rewrite expandtabs_next.
  intros c Hc. by rewrite Hc in H.
Qed.

Lemma create_ast_rejects_witness :
  create_ast_as_list "" = Err ParseException
  ∧ create_ast_as_list "   age = '18'" = Err ParseException.
Proof.
  split; [exact (create_ast_rejects "" eq_refl)|].
  exact (create_ast_rejects "   age = '18'" eq_refl).
Defined.

End rejection.

(** ** The parser on the text of an expression *)

(** Induction over expressions, with the operands of a chain covered by
    [Forall]. *)
Lemma logic_nested_ind (P : logic → Prop) :
  (∀ c, P (Cmp c)) →
  (∀ e, P e → P (Neg e)) →
  (∀ k w e es, P e → Forall P es → P (Chain k w e es)) →
  ∀ e, P e.
Proof.
  intros HC HN HCh. fix IH 1. intros [c|e|k w e es].
  - apply HC.
  - apply HN, IH.
  - apply HCh; [apply IH|].
    induction es as [|x es IHes]; constructor; [apply IH|exact IHes].
Qed.

Section expressions.
Import PP.

(** *** The text *)

Lemma show_chain k w e es :
  show (Chain k w e es) = wrap (operand_rank k) e (show e) +:+ operands k w es.
Proof. reflexivity. Qed.

Lemma tree_of_chain k w e es :
  tree_of (Chain k w e es) = NList (tree_of e :: operand_trees k es).
Proof. reflexivity. Qed.

Lemma operands_cons k w x es :
  operands k w (x :: es)
  = " " +:+ w +:+ " " +:+ wrap (operand_rank k) x (show x) +:+ operands k w es.
Proof. reflexivity. Qed.

Lemma show_head e r : ∃ c t, show e +:+ r = String c t ∧ opening c.
Proof.
  revert r. induction e as [c|e IH|k w e IH es]; intros r.
  - cbn [show]. destruct (comparison_head c) as [t ->]. rewrite app_String.
    eexists _, _. split; [done|by left].
  - cbn [show]. norm_text. eexists _, _. split; [done|right; by left].
  - rewrite show_chain, app_assoc. unfold wrap.
    destruct (rank e <=? operand_rank k)%nat; [apply IH|].
    norm_text. eexists _, _. split; [done|right; by right].
Qed.

Lemma wrap_head n e r : ∃ c t, wrap n e (show e) +:+ r = String c t ∧ opening c.
Proof.
  unfold wrap. destruct (rank e <=? n)%nat; [apply show_head|].
  norm_text. eexists _, _. split; [done|right; by right].
Qed.

Lemma opening_not_white c : opening c → white_chars c = false.
Proof. by intros [->|[->| ->]]. Qed.

Lemma opening_not_keyword c : opening c → keyword_chars c = false.
Proof. by intros [->|[->| ->]]. Qed.

Lemma preParse_opening p c t :
  opening c → preParse (mk_pstate p (String c t)) = mk_pstate p (String c t).
Proof. intros Hc. by apply preParse_char, opening_not_white. Qed.

Lemma preParse_space p c t :
  opening c →
  preParse (mk_pstate p (String " " (String c t))) = mk_pstate (Some " "%char) (String c t).
Proof.
  intros Hc. unfold preParse. cbn [prev rest skip_whitespace].
  change (white_chars " ") with true. cbn iota.
  by rewrite (opening_not_white c).
Qed.

Lemma wrap_length n e :
  (String.length (show e) ≤ String.length (wrap n e (show e)))%nat.
Proof.
  unfold wrap. destruct (rank e <=? n)%nat; [done|].
  rewrite !app_length. cbn [String.length]. lia.
Qed.

Lemma operands_length k w es :
  (length es ≤ String.length (operands k w es))%nat.
Proof.
  induction es as [|x es IH]; [done|]. rewrite operands_cons.
  rewrite !app_length. cbn [length String.length]. lia.
Qed.

(** *** The terminals around the operands *)

Lemma negation_token st p c t :
  preParse st = mk_pstate p (String "!" (String c t)) →
  (∀ x, p = Some x → keyword_chars x = false) → keyword_chars c = false →
  text Grammar.not_ NStr st
  = Ok ([NStr "!"], mk_pstate (Some "!"%char) (String c t)).
Proof.
  intros Hst Hp Hc. apply (text_Ok _ _ ["!"]).
  unfold Grammar.not_, Keyword. rewrite Hst. cbv zeta.
  cbn [rest prev String.length advance starts_with id]. rewrite Hc.
  destruct p as [x|]; [rewrite (Hp x eq_refl)|]; reflexivity.
Qed.

Lemma negation_reject st p c t :
  preParse st = mk_pstate p (String c t) → c ≠ "!"%char →
  text Grammar.not_ NStr st = Err ParseException.
Proof.
  intros Hst Hc. apply text_Err. unfold Grammar.not_. apply Keyword_reject.
  intros x. rewrite next_char_preParse, Hst. by intros [= <-].
Qed.

Lemma expression_reject st p t :
  preParse st = mk_pstate p (String "(" t) →
  Grammar.expression st = Err ParseException.
Proof.
  intros Hst. unfold Grammar.expression, Group. unfold And at 1.
  rewrite field_reject; [done|..]; by rewrite next_char_preParse, Hst.
Qed.

Lemma parenthesis_token c st p t :
  preParse st = mk_pstate p (String c t) →
  Suppress (B:=node) (Literal (String c "")) st = Ok ([], mk_pstate (Some c) t).
Proof.
  intros Hst. unfold Suppress.
  rewrite (Literal_match (String c "") st p t) by (by norm_text). done.
Qed.

Lemma upper_letter a x :
  upper a = x → x = "A"%char ∨ x = "O"%char →
  white_chars a = false ∧ operator_char a = false.
Proof.
  intros <- H. destruct a as [[] [] [] [] [] [] [] []];
    vm_compute in H; by destruct H.
Qed.

Lemma keyword_first k w :
  uppercase w = keyword k →
  ∃ a t, w = String a t
         ∧ upper a = match k with Conj => "A"%char | Disj => "O"%char end.
Proof.
  destruct w as [|a t]; [by destruct k|]. cbn [uppercase].
  destruct k; intros [= Ha _]; eauto.
Qed.

Lemma junction_token k w st t :
  uppercase w = keyword k →
  preParse st = mk_pstate (Some " "%char) (w +:+ String " " t) →
  junction_expr k st
  = Ok ([NStr (keyword k)], mk_pstate (last_char None w) (String " " t)).
Proof.
  intros Hw Hst. destruct k; cbn [keyword] in *.
  - destruct w as [|a [|b [|c [|d w]]]]; try done.
    cbn [uppercase] in Hw. injection Hw as Ha Hb Hc.
    apply (text_Ok _ _ ["AND"]).
    unfold Grammar.and_, CaselessKeyword, Keyword. rewrite Hst. cbv zeta.
    norm_text. cbn [rest prev String.length advance starts_with].
    rewrite Ha, Hb, Hc. reflexivity.
  - destruct w as [|a [|b [|c w]]]; try done.
    cbn [uppercase] in Hw. injection Hw as Ha Hb.
    apply (text_Ok _ _ ["OR"]).
    unfold Grammar.or_, CaselessKeyword, Keyword. rewrite Hst. cbv zeta.
    norm_text. cbn [rest prev String.length advance starts_with].
    rewrite Ha, Hb. reflexivity.
Qed.

Lemma keyword_length k w :
  uppercase w = keyword k → (1 ≤ String.length w)%nat.
Proof. destruct w; [by destruct k|]. cbn. lia. Qed.

Lemma stops_keyword n k w t :
  uppercase w = keyword k → (n ≤ operand_rank k)%nat →
  stops n (String " " (w +:+ t)) = true.
Proof.
  intros Hw Hn. destruct (keyword_first k w Hw) as (a & w' & -> & Ha).
  destruct (upper_letter a _ Ha) as [Hwh Hop]; [destruct k; auto|].
  unfold stops. rewrite next_char_white by done. rewrite app_String.
  rewrite next_char_head by done. rewrite Hop, Ha. cbn [negb andb].
  destruct k; cbn [operand_rank] in Hn.
  - assert ((n <? 3)%nat = true) as -> by (apply Nat.ltb_lt; lia).
    assert ((n <? 4)%nat = true) as -> by (apply Nat.ltb_lt; lia). done.
  - assert ((n <? 4)%nat = true) as -> by (apply Nat.ltb_lt; lia).
    by rewrite orb_true_r.
Qed.

Lemma stops_close n r : stops n (String ")" r) = true.
Proof.
  unfold stops. rewrite next_char_head by done.
  change (operator_char ")") with false. change (upper ")") with ")"%char.
  cbn [negb andb]. by rewrite !orb_true_r.
Qed.

(** *** The combinators on a chain *)

Lemma And_Ok {A} (a b : parser (list A)) st ta st1 tb st2 :
  a st = Ok (ta, st1) → b st1 = Ok (tb, st2) →
  (a +++ b) st = Ok (ta ++ tb, st2).
Proof. intros Ha Hb. unfold And. rewrite Ha. cbn [mbind result_bind]. by rewrite Hb. Qed.

Lemma And_Err_r {A} (a b : parser (list A)) st ta st1 e :
  a st = Ok (ta, st1) → b st1 = Err e → (a +++ b) st = Err e.
Proof. intros Ha Hb. unfold And. rewrite Ha. cbn [mbind result_bind]. by rewrite Hb. Qed.

Lemma And_Err_l {A} (a b : parser (list A)) st e :
  a st = Err e → (a +++ b) st = Err e.
Proof. intros Ha. unfold And. by rewrite Ha. Qed.

Lemma many_chain e st ts st' n :
  chain e st ts st' n → ∀ fuel, (n < fuel)%nat → many fuel e st = Ok (ts, st').
Proof.
  induction 1 as [st H|st t st1 ts st2 n H _ IH]; intros fuel Hf;
    (destruct fuel as [|fuel]; [lia|]); cbn [many]; rewrite H; [done|].
  rewrite IH by lia. done.
Qed.

Lemma binary_left_chain fuel opExpr lastExpr st x st1 ts st' n :
  lastExpr st = Ok (x, st1) → chain (opExpr +++ lastExpr) st1 ts st' (S n) →
  (S n ≤ fuel)%nat →
  Grammar.binary_left fuel opExpr lastExpr st = Ok ([NList (x ++ ts)], st').
Proof.
  intros Hlast Hchain Hf. inversion Hchain as [|? t st2 ts' ? ? Hstep Hrest]; subst.
  unfold Grammar.binary_left, MatchFirst.
  rewrite (And_Ok _ _ st [] st [NList (x ++ t ++ ts')] st'); [done| |].
  - unfold FollowedBy. by rewrite (And_Ok _ _ st x st1 t st2).
  - unfold Group.
    rewrite (And_Ok _ _ st x st1 (t ++ ts') st'); [done|done|].
    unfold OneOrMore. apply (And_Ok _ _ st1 t st2 ts' st'); [done|].
    apply (many_chain _ _ _ _ n); [done|lia].
Qed.

Lemma level0_paren fuel st p t x q r :
  preParse st = mk_pstate p (String "(" t) →
  level4 fuel (mk_pstate (Some "("%char) t) = Ok (x, mk_pstate q (String ")" r)) →
  level0 (S fuel) st = Ok (x, mk_pstate (Some ")"%char) r).
Proof.
  intros Hst Hin. unfold level0, MatchFirst.
  rewrite (expression_reject st p t Hst).
  rewrite <- (app_nil_l x), <- (app_nil_r x).
  eapply And_Ok; [by eapply parenthesis_token|].
  eapply And_Ok; [by rewrite grammar_levels|].
  eapply parenthesis_token. by apply preParse_char.
Qed.

(** *** From one level to the next *)

Lemma level_step n fuel st t q r :
  (1 ≤ n)%nat → (n < 4)%nat → stops (S n) r = true →
  level n fuel st = Ok (t, mk_pstate q r) →
  level (S n) fuel st = Ok (t, mk_pstate q r).
Proof.
  intros H1 H4 Hr H. destruct n as [|[|[|[|n]]]]; try lia; cbn [level] in *.
  - unfold level2. apply binary_left_single; [done|by apply (stops_operator 2)].
  - unfold level3. apply binary_left_single; [done|by apply (stops_and 3)].
  - unfold level4. apply binary_left_single; [done|by apply (stops_or 4)].
Qed.

Lemma level_lift m n fuel st t q r :
  (1 ≤ m)%nat → (m ≤ n)%nat → (n ≤ 4)%nat → stops n r = true →
  level m fuel st = Ok (t, mk_pstate q r) →
  level n fuel st = Ok (t, mk_pstate q r).
Proof.
  intros H1 Hmn. induction Hmn as [|n Hmn IH]; intros H4 Hr H; [done|].
  apply level_step; [lia..|done|]. apply IH; [lia| |done].
  eapply stops_le; [|done]. lia.
Qed.

Lemma rank_le e : (rank e ≤ 4)%nat.
Proof. destruct e as [| |[]]; cbn; lia. Qed.

(** An expression on its own, at the top level of the grammar. *)
Lemma parses_top e fuel st p r :
  parses e → (String.length (show e) ≤ fuel)%nat →
  (∀ c, p = Some c → keyword_chars c = false) →
  preParse st = mk_pstate p (show e +:+ r) → stops 4 r = true →
  ∃ q, level4 fuel st = Ok ([tree_of e], mk_pstate q r).
Proof.
  intros He Hf Hp Hst Hr. destruct (He fuel st p r Hf Hp Hst) as [H1 H2].
  destruct (decide (rank e ≤ 1)%nat) as [Hrank|Hrank].
  - destruct (H1 fuel Hrank Hf) as [q Hq]. exists q.
    by apply (level_lift 1 4); [lia..| |].
  - destruct H2 as [q Hq]; [lia|by eapply stops_le; [apply rank_le|]|].
    exists q. apply (level_lift (rank e) 4); [lia|apply rank_le|lia|done..].
Qed.

(** An expression in parentheses is matched at the lowest level. *)
Lemma parses_paren e fuel st p r :
  parses e → (String.length ("(" +:+ show e +:+ ")") ≤ fuel)%nat →
  preParse st = mk_pstate p ("(" +:+ show e +:+ ")" +:+ r) →
  level0 fuel st = Ok ([tree_of e], mk_pstate (Some ")"%char) r).
Proof.
  intros He Hf Hst. rewrite !app_length in Hf. cbn [String.length] in Hf.
  destruct fuel as [|fuel]; [lia|]. norm_text_in Hst.
  destruct (show_head e (String ")" r)) as (c & t & Ht & Hc).
  assert (∃ q, level4 fuel (mk_pstate (Some "("%char) (show e +:+ String ")" r))
               = Ok ([tree_of e], mk_pstate q (String ")" r))) as [q Hq].
  { apply (parses_top e fuel _ (Some "("%char)); [done|lia| | |apply stops_close].
    - by intros c' [= <-].
    - rewrite Ht. by apply preParse_opening. }
  by eapply level0_paren.
Qed.

Lemma unary_right_level0 f fuel st p c t x st' :
  preParse st = mk_pstate p (String c t) → c ≠ "!"%char →
  level0 fuel st = Ok (x, st') →
  Grammar.unary_right f (text Grammar.not_ NStr) (level0 fuel) st = Ok (x, st').
Proof.
  intros Hst Hc H. rewrite unary_right_skip; [done|]. by eapply negation_reject.
Qed.

(** The operand of a negation. *)
Lemma parses_negated e f fuel st p r :
  parses e →
  (String.length (wrap 1 e (show e)) ≤ fuel)%nat →
  (String.length (wrap 1 e (show e)) ≤ f)%nat →
  (∀ c, p = Some c → keyword_chars c = false) →
  preParse st = mk_pstate p (wrap 1 e (show e) +:+ r) →
  ∃ q, Grammar.unary_right f (text Grammar.not_ NStr) (level0 fuel) st
       = Ok ([tree_of e], mk_pstate q r).
Proof.
  intros He Hfuel Hf Hp Hst. unfold wrap in *.
  destruct (rank e <=? 1)%nat eqn:Hrank.
  - apply Nat.leb_le in Hrank.
    destruct (He fuel st p r Hfuel Hp Hst) as [H1 _]. by apply H1.
  - exists (Some ")"%char). pose proof Hst as Hst'. norm_text_in Hst'.
    eapply unary_right_level0; [exact Hst'|done|].
    eapply parses_paren; [done..|]. by rewrite <- app_assoc.
Qed.

(** The operand of a keyword. *)
Lemma parses_operand e n fuel st p r :
  parses e → (2 ≤ n)%nat → (n ≤ 4)%nat →
  (String.length (wrap n e (show e)) ≤ fuel)%nat →
  (∀ c, p = Some c → keyword_chars c = false) →
  preParse st = mk_pstate p (wrap n e (show e) +:+ r) → stops n r = true →
  ∃ q, level n fuel st = Ok ([tree_of e], mk_pstate q r).
Proof.
  intros He Hn2 Hn4 Hfuel Hp Hst Hr. unfold wrap in *.
  destruct (rank e <=? n)%nat eqn:Hrank.
  - apply Nat.leb_le in Hrank.
    destruct (He fuel st p r Hfuel Hp Hst) as [H1 H2].
    destruct (decide (rank e ≤ 1)%nat) as [Hlow|Hlow].
    + destruct (H1 fuel Hlow Hfuel) as [q Hq]. exists q.
      by apply (level_lift 1 n); [lia..| |].
    + destruct H2 as [q Hq]; [lia|by eapply stops_le|].
      exists q. by apply (level_lift (rank e) n); [lia..| |].
  - exists (Some ")"%char). pose proof Hst as Hst'. norm_text_in Hst'.
    apply (level_lift 1 n); [lia..|done|]. cbn [level]. unfold level1.
    eapply unary_right_level0; [exact Hst'|done|].
    eapply parses_paren; [done..|]. by rewrite <- app_assoc.
Qed.

(** *** The chain of operands *)

Lemma level_chain k w e es fuel :
  level (rank (Chain k w e es)) fuel
  = Grammar.binary_left fuel (junction_expr k) (level (operand_rank k) fuel).
Proof. by destruct k. Qed.

Lemma operand_rank_bounds k : (2 ≤ operand_rank k)%nat ∧ (operand_rank k ≤ 4)%nat.
Proof. destruct k; cbn; lia. Qed.

Lemma rank_chain k w e es : rank (Chain k w e es) = S (operand_rank k).
Proof. by destruct k. Qed.

Lemma stops_operands k w es r n :
  uppercase w = keyword k → (n ≤ operand_rank k)%nat →
  stops (S (operand_rank k)) r = true →
  stops n (operands k w es +:+ r) = true.
Proof.
  intros Hw Hn Hr. destruct es as [|x es].
  - cbn [operands foldr]. rewrite app_empty. eapply stops_le; [|done]. lia.
  - rewrite operands_cons. norm_text. by apply (stops_keyword n k).
Qed.

Lemma junction_reject k p r :
  stops (S (operand_rank k)) r = true →
  junction_expr k (mk_pstate p r) = Err ParseException.
Proof.
  destruct k; cbn [operand_rank junction_expr]; intros Hr.
  - by apply (stops_and 3).
  - by apply (stops_or 4).
Qed.

Lemma preParse_keyword q k w t :
  uppercase w = keyword k →
  preParse (mk_pstate q (String " " (w +:+ t))) = mk_pstate (Some " "%char) (w +:+ t).
Proof.
  intros Hw. destruct (keyword_first k w Hw) as (a & w' & -> & Ha).
  destruct (upper_letter a _ Ha) as [Hwh _]; [destruct k; auto|].
  unfold preParse. cbn [prev rest skip_whitespace].
  change (white_chars " ") with true. cbn iota. rewrite app_String.
  cbn [skip_whitespace]. by rewrite Hwh.
Qed.

Lemma chain_operands k w fuel r es :
  uppercase w = keyword k → Forall parses es →
  stops (S (operand_rank k)) r = true →
  (String.length (operands k w es) ≤ fuel)%nat →
  ∀ q0, ∃ q,
    chain (junction_expr k +++ level (operand_rank k) fuel)
      (mk_pstate q0 (operands k w es +:+ r)) (operand_trees k es)
      (mk_pstate q r) (length es).
Proof.
  intros Hw Hes Hr. destruct (operand_rank_bounds k) as [Hm2 Hm4].
  induction Hes as [|x es Hx _ IH]; intros Hf q0.
  - exists q0. cbn [operands foldr]. rewrite app_empty. apply chain_nil.
    apply And_Err_l. by apply junction_reject.
  - rewrite operands_cons in *. rewrite !app_length in Hf.
    cbn [String.length] in Hf.
    set (rest' := operands k w es +:+ r).
    set (T := wrap (operand_rank k) x (show x) +:+ rest').
    assert ((" " +:+ w +:+ " " +:+ wrap (operand_rank k) x (show x)
             +:+ operands k w es) +:+ r = String " " (w +:+ String " " T)) as ->
      by (unfold T, rest'; by norm_text).
    destruct (wrap_head (operand_rank k) x rest') as (c & t & Ht & Hc).
    fold T in Ht.
    destruct (parses_operand x (operand_rank k) fuel
                (mk_pstate (last_char None w) (String " " T)) (Some " "%char) rest')
      as [q1 Hq1]; try done.
    + lia.
    + by intros c' [= <-].
    + fold T. rewrite Ht. by apply preParse_space.
    + by apply stops_operands.
    + destruct (IH ltac:(lia) q1) as [q Hq]. exists q.
      apply (chain_cons _ _ ([NStr (keyword k)] ++ [tree_of x]) (mk_pstate q1 rest'));
        [|exact Hq].
      eapply And_Ok; [|exact Hq1].
      apply junction_token; [done|]. by apply (preParse_keyword _ k).
Qed.

(** *** Every well-formed expression is parsed to its tree *)

Lemma well_formed_chain k w e es :
  well_formed_logic (Chain k w e es) = true →
  uppercase w = keyword k ∧ well_formed_logic e = true ∧ es ≠ []
  ∧ forallb well_formed_logic es = true.
Proof.
  cbn [well_formed_logic].
  intros [[[Hw He]%andb_prop Hne]%andb_prop Hes]%andb_prop.
  apply String.eqb_eq in Hw. apply negb_true_iff, bool_decide_eq_false in Hne.
  done.
Qed.

Lemma parses_all e : well_formed_logic e = true → parses e.
Proof.
  induction e as [c|e IH|k w e es IHe IHes] using logic_nested_ind; intros Hwf.
  - (* a comparison *)
    intros fuel st p r Hf Hp Hst. cbn [show rank tree_of] in *.
    split; [|lia]. intros f _ _. exists (Some "'"%char).
    rewrite unary_right_skip by (by eapply not_mismatch).
    unfold level0, MatchFirst. by erewrite expression_comparison.
  - (* a negation *)
    intros fuel st p r Hf Hp Hst. cbn [rank]. split; [|lia].
    intros f _ Hlen. cbn [show well_formed_logic] in *.
    rewrite app_String, app_empty in Hf, Hlen, Hst. cbn [String.length] in Hf, Hlen.
    destruct f as [|f]; [lia|].
    destruct (wrap_head 1 e r) as (c & t & Ht & Hc).
    rewrite app_String, Ht in Hst.
    destruct (parses_negated e f fuel
                (mk_pstate (Some "!"%char) (wrap 1 e (show e) +:+ r))
                (Some "!"%char) r) as [q Hq]; try done.
    + by apply IH.
    + lia.
    + lia.
    + by intros c' [= <-].
    + rewrite Ht. by apply preParse_opening.
    + exists q. rewrite Ht in Hq.
      apply (unary_right_apply f _ _ st [NStr "!"]
               (mk_pstate (Some "!"%char) (String c t)) [tree_of e]
               (mk_pstate q r)); [|exact Hq].
      apply (negation_token st p c t); [done..|]. by apply opening_not_keyword.
  - (* a chain *)
    destruct (well_formed_chain _ _ _ _ Hwf) as (Hw & He & Hne & Hes).
    destruct (operand_rank_bounds k) as [Hm2 Hm4].
    intros fuel st p r Hf Hp Hst.
    split; [intros f Hk; rewrite rank_chain in Hk; lia|].
    intros _ Hr. rewrite level_chain. rewrite rank_chain in Hr.
    rewrite show_chain in Hf, Hst. rewrite app_length in Hf.
    rewrite app_assoc in Hst.
    pose proof (operands_length k w es) as Hlen.
    destruct (parses_operand e (operand_rank k) fuel st p (operands k w es +:+ r))
      as [q0 Hq0]; try done.
    + by apply IHe.
    + lia.
    + by apply stops_operands.
    + assert (Forall parses es) as Hparses.
      { rewrite forallb_forall in Hes. rewrite Forall_forall in IHes |- *.
        intros x Hx. apply IHes; [done|]. apply Hes. by apply list_elem_of_In. }
      destruct (chain_operands k w fuel r es Hw Hparses Hr ltac:(lia) q0) as [q Hq].
      exists q. rewrite tree_of_chain.
      destruct es as [|x es]; [done|].
      apply (binary_left_chain _ _ _ _ [tree_of e] _ _ _ (length es) Hq0 Hq).
      cbn [length] in Hlen. lia.
Qed.

(** *** Tabs *)

Lemma no_tab_uppercase s : no_tab (uppercase s) → no_tab s.
Proof.
  unfold no_tab. induction s as [|c s IH]; [done|]. cbn [uppercase Spec.all_chars].
  intros [Hc Hs]%andb_prop. rewrite IH by done. rewrite andb_true_r.
  destruct (Ascii.eqb_spec c "009") as [->|]; [done|done].
Qed.

Lemma no_tab_keyword k w : uppercase w = keyword k → no_tab w.
Proof. intros Hw. apply no_tab_uppercase. rewrite Hw. by destruct k. Qed.

Lemma no_tab_wrap n e : no_tab (show e) → no_tab (wrap n e (show e)).
Proof.
  intros H. unfold wrap. destruct (rank e <=? n)%nat; [done|].
  repeat apply no_tab_app; done.
Qed.

Lemma no_tab_show e : well_formed_logic e = true → no_tab (show e).
Proof.
  induction e as [c|e IH|k w e es IHe IHes] using logic_nested_ind; intros Hwf.
  - by apply no_tab_comparison.
  - cbn [show]. apply no_tab_app; [done|]. apply no_tab_wrap. by apply IH.
  - destruct (well_formed_chain _ _ _ _ Hwf) as (Hw & He & _ & Hes).
    rewrite show_chain. apply no_tab_app; [by apply no_tab_wrap, IHe|].
    clear Hwf. induction IHes as [|x es Hx _ IH]; [done|].
    cbn [forallb] in Hes. apply andb_prop in Hes as [Hx' Hes].
    rewrite operands_cons.
    apply no_tab_app; [done|]. apply no_tab_app; [by eapply no_tab_keyword|].
    apply no_tab_app; [done|]. apply no_tab_app; [by apply no_tab_wrap, Hx|].
    by apply IH.
Qed.

(** Text without tabs is copied by [expandtabs], whatever follows it. *)
Lemma expandtabs_app a b column :
  no_tab a →
  ∃ column', expandtabs_from column (a +:+ b) = a +:+ expandtabs_from column' b.
Proof.
  unfold no_tab. revert column. induction a as [|c a IH]; intros column Ha.
  - exists column. by rewrite !app_empty.
  - cbn [Spec.all_chars] in Ha. apply andb_prop in Ha as [Hc Ha].
    apply negb_true_iff in Hc. rewrite !app_String. cbn [expandtabs_from].
    rewrite Hc. destruct (Ascii.eqb c "010" || Ascii.eqb c "013").
    + destruct (IH 0%nat Ha) as [column' ->]. by exists column'.
    + destruct (IH (S column) Ha) as [column' ->]. by exists column'.
Qed.

Lemma stops_expandtabs n column r : stops n (expandtabs_from column r) = stops n r.
Proof. unfold stops. by rewrite expandtabs_next. Qed.

Lemma create_ast_logic e r :
  well_formed_logic e = true → stops 4 r = true →
  create_ast_as_list (show e +:+ r) = Ok [tree_of e].
Proof.
  intros Hwf Hr. unfold create_ast_as_list, Grammar.parse_string, expandtabs.
  destruct (expandtabs_app (show e) r 0 (no_tab_show e Hwf)) as [column ->].
  set (r' := expandtabs_from column r). rewrite grammar_levels.
  destruct (show_head e r') as (c & t & Ht & Hc).
  destruct (parses_top e (S (String.length (show e +:+ r')))
              (mk_pstate None (show e +:+ r')) None r') as [q Hq]; try done.
  - by apply parses_all.
  - rewrite app_length. lia.
  - rewrite Ht. by apply preParse_opening.
  - unfold r'. by rewrite stops_expandtabs.
  - by rewrite Hq.
Qed.

(** X13.  The parser inverts the printer: the text of a well-formed
    expression (comparisons, negations, chains of [AND] and of [OR] with the
    keywords in any case, parentheses only where the precedence asks for
    them) is parsed to the tree of the expression, negations as [[!, x]],
    a chain as one flat list, parentheses without a trace.  Text after the
    expression that continues it with no operator and no keyword is
    ignored. *)
Theorem create_ast_show e :
  well_formed_logic e = true →
  create_ast_as_list (show e) = Ok [tree_of e]
  ∧ ∀ r, stops 4 r = true → create_ast_as_list (show e +:+ r) = Ok [tree_of e].
Proof.
  intros Hwf. split; [|intros r; by apply create_ast_logic].
  rewrite <- (app_empty_r (show e)). by apply create_ast_logic.
Qed.

Lemma create_ast_show_witness :
  create_ast_as_list "[a]='1' and ![b]<>'2' OR !([c(3)]>='x' Or [e][d]<'y') OR [f]='z'"
  = Ok [NList [NList [NList [NField (mk_myField "a" None None); NStr "="; NStr "1"];
                      NStr "AND";
                      NList [NStr "!";
                             NList [NField (mk_myField "b" None None); NStr "<>";
                                    NStr "2"]]];
               NStr "OR";
               NList [NStr "!";
                      NList [NList [NField (mk_myField "c" None (Some "3"));
                                    NStr ">="; NStr "x"];
                             NStr "OR";
                             NList [NField (mk_myField "d" (Some "e") None);
                                    NStr "<"; NStr "y"]]];
               NStr "OR";
               NList [NField (mk_myField "f" None None); NStr "="; NStr "z"]]].
Proof.
  exact (proj1 (create_ast_show
    (Chain Disj "OR"
       (Chain Conj "and"
          (Cmp (Spec.mk_comparison (mk_myField "a" None None) "=" "1"))
          [Neg (Cmp (Spec.mk_comparison (mk_myField "b" None None) "<>" "2"))])
       [Neg (Chain Disj "Or"
               (Cmp (Spec.mk_comparison (mk_myField "c" None (Some "3")) ">=" "x"))
               [Cmp (Spec.mk_comparison (mk_myField "d" (Some "e") None) "<" "y")]);
        Cmp (Spec.mk_comparison (mk_myField "f" None None) "=" "z")])
    eq_refl)).
Defined.

End expressions.

(** ** The three stages on the text of an expression *)

Section pipeline.
Import Substitution.

Lemma tree_of_list e : ∃ l, tree_of e = NList l.
Proof. destruct e; cbn [tree_of Spec.leaf]; eauto. Qed.

Lemma collapse_substituted data e :
  well_formed_logic e = true → collapse (substituted data e) = boolean_of data e.
Proof.
  destruct e as [c|e|k w e es]; [done..|]. intros Hwf.
  destruct (well_formed_chain _ _ _ _ Hwf) as (_ & _ & Hne & _).
  by destruct es.
Qed.

Lemma is_connective_keyword k : is_connective (NStr (keyword k)) = true.
Proof. by destruct k. Qed.

(** The truth of a chain is defined only when the truth of every operand
    is. *)
Lemma truth_value_chain data k w e es :
  is_Some (truth_value data (Chain k w e es)) →
  is_Some (truth_value data e) ∧ Forall (λ x, is_Some (truth_value data x)) es.
Proof.
  cbn [truth_value]. generalize (truth_value data e) as acc.
  induction es as [|x es IH]; intros acc; cbn [foldl]; [by split|].
  intros H. apply IH in H as [Hacc Hes].
  destruct acc as [a|]; [|by destruct Hacc].
  destruct (truth_value data x) as [b|] eqn:E; [|by destruct Hacc].
  split; [done|]. constructor; [by rewrite E|done].
Qed.

Lemma loop_tree data results index e rest scratch :
  lookup_value data (tree_of e) = Ok (substituted data e) →
  well_formed_logic e = true →
  loop (lookup_value data) data results index (tree_of e :: rest) scratch
  = loop (lookup_value data) data results (S index) rest
      (scratch ++ [boolean_of data e]).
Proof.
  intros He Hwf. destruct (tree_of_list e) as [l Hl]. rewrite Hl in *.
  rewrite loop_list, He. cbn [mbind result_bind].
  by rewrite collapse_substituted.
Qed.

Lemma loop_operand_trees data results k es :
  Forall (λ x, lookup_value data (tree_of x) = Ok (substituted data x)) es →
  forallb well_formed_logic es = true →
  ∀ index scratch,
    loop (lookup_value data) data results index (operand_trees k es) scratch
    = Ok (scratch ++ foldr (λ x l, NStr (keyword k) :: boolean_of data x :: l) [] es).
Proof.
  induction 1 as [|x es Hx _ IH]; intros Hwf index scratch.
  - cbn [operand_trees foldr]. by rewrite loop_nil, app_nil_r.
  - cbn [forallb] in Hwf. apply andb_prop in Hwf as [Hx' Hwf].
    cbn [operand_trees foldr]. rewrite loop_text, is_connective_keyword.
    rewrite loop_tree by done. fold (operand_trees k es). rewrite IH by done.
    by rewrite <- !List.app_assoc.
Qed.

(** The substitution on the tree of an expression whose comparisons all
    have a truth under the data source. *)
Lemma lookup_logic data e :
  well_formed_logic e = true → is_Some (truth_value data e) →
  lookup_value data (tree_of e) = Ok (substituted data e).
Proof.
  induction e as [c|e IH|k w e es IHe IHes] using logic_nested_ind;
    intros Hwf Hval.
  - destruct Hval as [b Hb]. cbn [truth_value] in Hb.
    cbn [tree_of substituted boolean_of]. rewrite Hb. cbn [default].
    apply lookup_value_leaf; [|done]. by apply well_formed_operator.
  - cbn [tree_of substituted boolean_of truth_value well_formed_logic] in *.
    rewrite lookup_value_list, loop_text.
    change (is_connective (NStr "!")) with false. cbn iota.
    rewrite loop_tree by auto. by rewrite loop_nil.
  - destruct (well_formed_chain _ _ _ _ Hwf) as (Hw & He & Hne & Hes).
    destruct (truth_value_chain _ _ _ _ _ Hval) as [Hve Hves].
    rewrite tree_of_chain. cbn [substituted].
    rewrite lookup_value_list, loop_tree by auto.
    rewrite loop_operand_trees; [done| |done].
    rewrite Forall_forall in IHes, Hves |- *. rewrite forallb_forall in Hes.
    intros x Hx. apply IHes; [done| |by apply Hves].
    apply Hes. by apply list_elem_of_In.
Qed.

(** *** The evaluator on the boolean tree of an expression *)

Lemma connective_keyword k :
  Spec.connective (keyword k) = Some (match k with Conj => andb | Disj => orb end).
Proof. by destruct k. Qed.

Lemma alternating_cons v c v' pairs :
  Spec.alternating (NList (v :: NStr c :: v' :: pairs))
  = bool_decide (is_Some (Spec.connective c)) && Spec.alternating v'
    && Spec.alternating (NList (v :: pairs)).
Proof.
  cbn [Spec.alternating].
  destruct (Spec.alternating v), (bool_decide _), (Spec.alternating v'); done.
Qed.

Lemma fold_value_cons v c f v' pairs :
  Spec.connective c = Some f →
  Spec.fold_value (NList (v :: NStr c :: v' :: pairs))
  = Spec.fold_value
      (NList (NBool (f (Spec.fold_value v) (Spec.fold_value v')) :: pairs)).
Proof. intros Hc. cbn [Spec.fold_value]. by rewrite Hc. Qed.

Lemma boolean_of_alternating data e :
  well_formed_logic e = true → Spec.alternating (boolean_of data e) = true.
Proof.
  induction e as [c|e IH|k w e es IHe IHes] using logic_nested_ind;
    intros Hwf; [done|by apply IH|].
  destruct (well_formed_chain _ _ _ _ Hwf) as (_ & He & _ & Hes).
  cbn [boolean_of]. specialize (IHe He). clear Hwf.
  induction IHes as [|x es Hx _ IH].
  - cbn [foldr Spec.alternating]. by rewrite IHe.
  - cbn [forallb] in Hes. apply andb_prop in Hes as [Hx' Hes].
    cbn [foldr]. rewrite alternating_cons, connective_keyword, Hx, IH by done.
    done.
Qed.

Lemma foldl_none {A} (f : option bool → A → option bool) es :
  (∀ x, f None x = None) → foldl f None es = None.
Proof. intros Hf. induction es as [|x es IH]; [done|]. cbn [foldl]. by rewrite Hf. Qed.

Lemma fold_value_chain data k es :
  Forall (λ x, ∀ b, truth_value data x = Some b →
                    Spec.fold_value (boolean_of data x) = b) es →
  ∀ v b,
    foldl (λ acc x,
             match acc, truth_value data x with
             | Some a, Some b =>
                 Some (match k with Conj => a && b | Disj => a || b end)
             | _, _ => None
             end) (Some (Spec.fold_value v)) es = Some b →
    Spec.fold_value
      (NList (v :: foldr (λ x l, NStr (keyword k) :: boolean_of data x :: l) [] es))
    = b.
Proof.
  induction 1 as [|x es Hx _ IH]; intros v b.
  - cbn [foldl foldr Spec.fold_value]. by intros [= <-].
  - cbn [foldl foldr]. destruct (truth_value data x) as [bx|] eqn:E.
    + intros H. rewrite (fold_value_cons _ _ _ _ _ (connective_keyword k)).
      rewrite (Hx bx eq_refl). apply IH. cbn [Spec.fold_value].
      by destruct k.
    + by rewrite foldl_none.
Qed.

Lemma boolean_of_value data e b :
  truth_value data e = Some b → Spec.fold_value (boolean_of data e) = b.
Proof.
  revert b.
  induction e as [c|e IH|k w e es IHe IHes] using logic_nested_ind; intros b.
  - cbn [truth_value boolean_of Spec.fold_value]. by intros ->.
  - apply IH.
  - cbn [truth_value boolean_of]. intros H.
    destruct (truth_value data e) as [a|] eqn:E; [|by rewrite foldl_none in H].
    apply fold_value_chain; [done|]. by rewrite (IHe a eq_refl).
Qed.

Lemma substitute_logic data e :
  well_formed_logic e = true → is_Some (truth_value data e) →
  substitute [tree_of e] data = Ok [boolean_of data e].
Proof.
  intros Hwf Hval. unfold substitute, field_value_lookup.
  rewrite lookup_value_list, loop_tree; [by rewrite loop_nil| |done].
  by apply lookup_logic.
Qed.

Lemma evaluate_logic data e b :
  well_formed_logic e = true → truth_value data e = Some b →
  evaluate [boolean_of data e] = Ok b.
Proof.
  intros Hwf Hval.
  pose proof (evaluates_all (NList [boolean_of data e])) as Hrun.
  unfold evaluates in Hrun. cbn [Spec.alternating Spec.fold_value] in Hrun.
  rewrite boolean_of_alternating in Hrun by done. specialize (Hrun eq_refl).
  unfold evaluate. rewrite boolean_expr_evaluate_run, Hrun.
  cbn [mbind result_bind]. by rewrite (boolean_of_value data e b).
Qed.

(** X14.  On the text of a well-formed expression whose comparisons all have
    a truth under the data source, the three stages return the conjunction
    of the operands of every [AND] chain and the disjunction of those of
    every [OR] chain, with the parentheses respected, and for a negation the
    value of its operand: the substitution returns the boolean tree of the
    expression, in which no [!] is left. *)
Theorem pipeline_on_expression e data b :
  well_formed_logic e = true → truth_value data e = Some b →
  substitute [tree_of e] data = Ok [boolean_of data e]
  ∧ Spec.parse_and_evaluate (show e) data = Ok b
  ∧ ∀ r, stops 4 r = true → Spec.parse_and_evaluate (show e +:+ r) data = Ok b.
Proof.
  intros Hwf Hval.
  assert (substitute [tree_of e] data = Ok [boolean_of data e]) as Hsub
    by (apply substitute_logic; [done|by rewrite Hval]).
  assert (∀ r, stops 4 r = true →
               Spec.parse_and_evaluate (show e +:+ r) data = Ok b) as Hrun.
  { intros r Hr. unfold Spec.parse_and_evaluate.
    rewrite create_ast_logic by done. cbn [mbind result_bind].
    rewrite Hsub. cbn [mbind result_bind]. by apply evaluate_logic. }
  split; [done|]. split; [|done].
  rewrite <- (app_empty_r (show e)). by apply Hrun.
Qed.

Lemma pipeline_on_expression_witness :
  Spec.parse_and_evaluate "[a]='1' and !([b]<>'2' or [c(3)]>='x')"
    {[ "a" := PyStr "1"; "b" := PyStr "2"; "c" := PyStr "w" ]}
  = Ok false.
Proof.
  exact (proj1 (proj2 (pipeline_on_expression
    (Chain Conj "and"
       (Cmp (Spec.mk_comparison (mk_myField "a" None None) "=" "1"))
       [Neg (Chain Disj "or"
               (Cmp (Spec.mk_comparison (mk_myField "b" None None) "<>" "2"))
               [Cmp (Spec.mk_comparison (mk_myField "c" None (Some "3")) ">=" "x")])])
    {[ "a" := PyStr "1"; "b" := PyStr "2"; "c" := PyStr "w" ]} false
    eq_refl eq_refl))).
Defined.

(** X15.  The outcomes of the three stages on any text and data source: a
    text the grammar rejects gives [ParseException]; a tree with a field the
    data source does not hold gives [KeyError]; otherwise the result is a
    boolean, or [IndexError] when the boolean tree leaves the evaluator
    without a value. *)
Theorem pipeline_outcome s data :
  match create_ast_as_list s with
  | Ok ast =>
      if resolves data (NList ast)
      then (∃ b, Spec.parse_and_evaluate s data = Ok b)
           ∨ Spec.parse_and_evaluate s data = Err IndexError
      else Spec.parse_and_evaluate s data = Err KeyError
  | Err e => e = ParseException ∧ Spec.parse_and_evaluate s data = Err ParseException
  end.
Proof.
  unfold Spec.parse_and_evaluate.
  destruct (create_ast_as_list s) as [ast|e] eqn:E; cbn [mbind result_bind].
  - destruct (create_ast_as_list_parsed s ast E) as (n & -> & Hn).
    pose proof (substitutes_all data (NList [n])) as H. unfold substitutes in H.
    rewrite parsed_items in H by (cbn; by rewrite parsed_item_ok).
    specialize (H eq_refl). unfold substitute, field_value_lookup.
    destruct (resolves data (NList [n])).
    + destruct H as [out Hout]. rewrite Hout. cbn [mbind result_bind].
      destruct (evaluate out) as [b|e] eqn:Ev; [left; eauto|right].
      f_equal. eapply evaluate_boolean_tree; [|done].
      by eapply lookup_value_boolean.
    + by rewrite H.
  - apply create_ast_error in E as ->. done.
Qed.

End pipeline.

(** ** The layout of a comparison *)

Section layout.
Import PP Spec.

Ltac run_bind := cbn [mbind result_bind app].

Lemma preParse_blank q ws c t :
  blank ws = true → white_chars c = false →
  preParse (mk_pstate q (ws +:+ String c t))
  = mk_pstate (last_char q ws) (String c t).
Proof.
  unfold blank. revert q. induction ws as [|x ws IH]; intros q Hws Hc.
  - rewrite app_empty. by apply preParse_char.
  - cbn [all_chars] in Hws. apply andb_prop in Hws as [Hx Hws].
    rewrite app_String. unfold preParse. cbn [prev rest skip_whitespace].
    rewrite Hx. apply (IH (Some x) Hws Hc).
Qed.

Lemma field_reference_layout st p f ws c s :
  preParse st = mk_pstate p (myField_str f +:+ ws +:+ String c s) →
  field_reference f = true → blank ws = true → operator_char c = true →
  Grammar.field st
  = Ok ([NField f], mk_pstate (Some "]"%char) (ws +:+ String c s)).
Proof.
  intros Hst [[Hfld Hev]%andb_prop Hopt]%andb_prop Hblank Hc.
  pose proof (preParse_blank (Some "]"%char) ws c s Hblank
                (operator_char_not_white _ Hc)) as Hrest.
  pose proof (operator_char_not_white _ Hc) as Hws.
  pose proof (operator_char_not_bracket _ Hc) as Hbr.
  destruct f as [fld [ev|] [opt|]]; cbn [field event check] in *;
    unfold myField_str in Hst; cbn [field event check truthy str_opt] in Hst.
  - (* [event][field(option)] *)
    cbn [optional_identifier] in Hev, Hopt.
    destruct (identifier_inv _ Hev) as [Hev' _].
    destruct (identifier_inv _ Hopt) as [Hopt' _].
    apply String.eqb_neq in Hev', Hopt'. rewrite Hev', Hopt' in Hst.
    cbn [negb] in Hst. norm_text_in Hst.
    unfold Grammar.field, MatchFirst, Grammar.varcheck_in_event, set_parse_action.
    unfold And at 1. unfold Grammar.event.
    erewrite QuotedString_match; [|done|by apply identifier_quotable].
    run_bind.
    erewrite brace_check_match; [|first [exact Hrest|by apply preParse_char]|done..].
    done.
  - (* [event][field] *)
    cbn [optional_identifier] in Hev.
    destruct (identifier_inv _ Hev) as [Hev' _].
    apply String.eqb_neq in Hev'. rewrite Hev' in Hst.
    cbn [negb] in Hst. norm_text_in Hst.
    unfold Grammar.field, MatchFirst, Grammar.varcheck_in_event, set_parse_action.
    unfold And at 1. unfold Grammar.event.
    erewrite QuotedString_match; [|done|by apply identifier_quotable].
    run_bind.
    erewrite brace_check_bare; [|first [exact Hrest|by apply preParse_char]|done].
    run_bind.
    unfold Grammar.variable_in_event, set_parse_action, And, Grammar.event.
    erewrite QuotedString_match; [|done|by apply identifier_quotable].
    run_bind.
    erewrite QuotedString_match;
      [|first [exact Hrest|by apply preParse_char]|by apply identifier_quotable].
    done.
  - (* [field(option)] *)
    cbn [optional_identifier] in Hopt.
    destruct (identifier_inv _ Hopt) as [Hopt' _].
    apply String.eqb_neq in Hopt'. rewrite Hopt' in Hst.
    cbn [negb] in Hst. norm_text_in Hst.
    assert (all_chars (quotable "]") (fld +:+ String "(" (opt +:+ ")")) = true)
      as Hbody.
    { rewrite all_chars_app, identifier_quotable by done.
      cbn [all_chars andb]. rewrite all_chars_app, identifier_quotable by done.
      done. }
    assert (preParse st = mk_pstate p
              (String "[" ((fld +:+ String "(" (opt +:+ ")")) +:+ String "]" (ws +:+ String c s))))
      as Hst' by (by norm_text).
    unfold Grammar.field, MatchFirst, Grammar.varcheck_in_event, set_parse_action.
    unfold And at 1. unfold Grammar.event.
    erewrite QuotedString_match; [|exact Hst'|done].
    run_bind.
    erewrite brace_check_mismatch; [|first [exact Hrest|by apply preParse_char]|done].
    run_bind.
    unfold Grammar.variable_in_event, set_parse_action, And, Grammar.event.
    erewrite QuotedString_match; [|exact Hst'|done].
    run_bind.
    erewrite QuotedString_mismatch; [|first [exact Hrest|by apply preParse_char]|done].
    run_bind.
    unfold Grammar.variable_in_check, set_parse_action.
    erewrite brace_check_match; [|done..].
    done.
  - (* [field] *)
    norm_text_in Hst.
    unfold Grammar.field, MatchFirst, Grammar.varcheck_in_event, set_parse_action.
    unfold And at 1. unfold Grammar.event.
    erewrite QuotedString_match; [|done|by apply identifier_quotable].
    run_bind.
    erewrite brace_check_mismatch; [|first [exact Hrest|by apply preParse_char]|done].
    run_bind.
    unfold Grammar.variable_in_event, set_parse_action, And, Grammar.event.
    erewrite QuotedString_match; [|done|by apply identifier_quotable].
    run_bind.
    erewrite QuotedString_mismatch; [|first [exact Hrest|by apply preParse_char]|done].
    run_bind.
    unfold Grammar.variable_in_check, set_parse_action.
    erewrite brace_check_bare; [|done..].
    run_bind.
    unfold Grammar.variable, set_parse_action.
    erewrite QuotedString_match; [|done|by apply identifier_quotable].
    done.
Qed.

Lemma operator_layout st p o c t :
  preParse st = mk_pstate p (o +:+ String c t) →
  is_operator o = true → operator_char c = false →
  ∃ p', Grammar.operator st = Ok ([o], mk_pstate p' (String c t)).
Proof.
  intros Hst Ho Hc. unfold operator_char in Hc.
  apply orb_false_elim in Hc as [[E1 _]%orb_false_elim E2].
  rewrite Ascii.eqb_sym in E1, E2.
  unfold Grammar.operator, oneOf. rewrite Hst. cbn [rest].
  destruct (is_operator_cases _ Ho) as [-> | [-> | [-> | [-> | [-> | ->]]]]];
    norm_text; unfold longest_match; cbn [foldl starts_with id];
    rewrite ?E1, ?E2; eexists; reflexivity.
Qed.

Lemma value_layout st p q v r :
  q = "'"%char ∨ q = "034"%char →
  preParse st = mk_pstate p (String q (v +:+ String q r)) →
  all_chars (quotable q) v = true →
  Grammar.value st = Ok ([v], mk_pstate (Some q) r).
Proof.
  intros Hq Hst Hv. unfold Grammar.value, MatchFirst. destruct Hq as [-> | ->].
  - rewrite (QuotedString_mismatch "034" "034" st p _ _ Hst) by done.
    by apply (QuotedString_match "'" "'" st p).
  - by rewrite (QuotedString_match "034" "034" st p v r).
Qed.

Lemma white_not_operator c : white_chars c = true → operator_char c = false.
Proof.
  intros H. destruct (operator_char c) eqn:E; [|done].
  apply operator_char_not_white in E. congruence.
Qed.

(** What follows an operator, whitespace or the quote, starts no longer
    operator. *)
Lemma blank_quote_head ws q u :
  blank ws = true → q = "'"%char ∨ q = "034"%char →
  ∃ c t, ws +:+ String q u = String c t ∧ operator_char c = false.
Proof.
  intros Hws Hq. destruct ws as [|x ws].
  - rewrite app_empty. eexists _, _. split; [done|]. by destruct Hq as [-> | ->].
  - rewrite app_String. eexists _, _. split; [done|].
    unfold blank in Hws. cbn [all_chars] in Hws.
    apply andb_prop in Hws as [Hx _]. by apply white_not_operator.
Qed.

Lemma quote_not_white q : q = "'"%char ∨ q = "034"%char → white_chars q = false.
Proof. by intros [-> | ->]. Qed.

Lemma expression_layout st p f o v ws1 ws2 q r :
  preParse st
  = mk_pstate p (myField_str f +:+ ws1 +:+ o +:+ ws2
                 +:+ String q (v +:+ String q r)) →
  field_reference f = true → is_operator o = true →
  q = "'"%char ∨ q = "034"%char → all_chars (quotable q) v = true →
  blank ws1 = true → blank ws2 = true →
  Grammar.expression st
  = Ok ([NList [NField f; NStr o; NStr v]], mk_pstate (Some q) r).
Proof.
  intros Hst Hf Ho Hq Hv H1 H2.
  destruct (operator_head o (ws2 +:+ String q (v +:+ String q r)) Ho)
    as (x & t & Hx & Hxc).
  destruct (blank_quote_head ws2 q (v +:+ String q r) H2 Hq)
    as (y & u & Hy & Hyc).
  rewrite Hx in Hst.
  unfold Grammar.expression, Group. unfold And at 1.
  rewrite (field_reference_layout _ _ _ _ _ _ Hst Hf H1 Hxc). run_bind.
  unfold And, text.
  destruct (operator_layout (mk_pstate (Some "]"%char) (ws1 +:+ String x t))
              (last_char (Some "]"%char) ws1) o y u) as [p' Hop]; [|done..|].
  { rewrite preParse_blank by (by apply operator_char_not_white || done).
    by rewrite <- Hx, Hy. }
  rewrite Hop. run_bind.
  rewrite (value_layout (mk_pstate p' (String y u)) (last_char p' ws2) q v r);
    [done|done| |done].
  rewrite <- Hy. apply preParse_blank; [done|by apply quote_not_white].
Qed.

Lemma myField_str_head f r : ∃ t, myField_str f +:+ r = String "[" t.
Proof.
  unfold myField_str.
  destruct (truthy (event f)), (truthy (check f)); norm_text; eauto.
Qed.

Lemma level4_layout fuel st p f o v ws1 ws2 q r :
  preParse st
  = mk_pstate p (myField_str f +:+ ws1 +:+ o +:+ ws2
                 +:+ String q (v +:+ String q r)) →
  field_reference f = true → is_operator o = true →
  q = "'"%char ∨ q = "034"%char → all_chars (quotable q) v = true →
  blank ws1 = true → blank ws2 = true → stops 4 r = true →
  level4 fuel st = Ok ([NList [NField f; NStr o; NStr v]], mk_pstate (Some q) r).
Proof.
  intros Hst Hf Ho Hq Hv H1 H2 Hr.
  apply (level_lift 1 4 fuel); [lia..|done|]. cbn [level]. unfold level1.
  destruct (myField_str_head f (ws1 +:+ o +:+ ws2 +:+ String q (v +:+ String q r)))
    as [t Ht].
  eapply unary_right_level0; [by rewrite Hst, Ht|done|].
  unfold level0, MatchFirst. by erewrite expression_layout.
Qed.

(** *** Tabs in the whitespace *)

Lemma blank_spaces n : blank (String.concat "" (replicate n " ")) = true.
Proof. induction n as [|n IH]; [done|]. by rewrite spaces_succ. Qed.

Lemma blank_app a b : blank a = true → blank b = true → blank (a +:+ b) = true.
Proof. unfold blank. rewrite all_chars_app. by intros -> ->. Qed.

(** [expandtabs] turns whitespace into whitespace. *)
Lemma expandtabs_blank ws t column :
  blank ws = true →
  ∃ ws' column',
    expandtabs_from column (ws +:+ t) = ws' +:+ expandtabs_from column' t
    ∧ blank ws' = true.
Proof.
  revert column. induction ws as [|x ws IH]; intros column Hws.
  - exists "", column. by rewrite !app_empty.
  - unfold blank in Hws. cbn [all_chars] in Hws.
    apply andb_prop in Hws as [Hx Hws]. rewrite app_String.
    cbn [expandtabs_from]. destruct (Ascii.eqb x "009").
    + destruct (IH (column + (8 - column mod 8))%nat Hws) as (ws' & column' & -> & H).
      exists (String.concat "" (replicate (8 - column mod 8) " ") +:+ ws'), column'.
      split; [by rewrite app_assoc|]. apply blank_app; [apply blank_spaces|done].
    + destruct (Ascii.eqb x "010" || Ascii.eqb x "013").
      * destruct (IH 0%nat Hws) as (ws' & column' & -> & H).
        exists (String x ws'), column'. split; [by rewrite app_String|].
        unfold blank in *. cbn [all_chars]. by rewrite Hx, H.
      * destruct (IH (S column) Hws) as (ws' & column' & -> & H).
        exists (String x ws'), column'. split; [by rewrite app_String|].
        unfold blank in *. cbn [all_chars]. by rewrite Hx, H.
Qed.

Lemma no_tab_myField_str f : field_reference f = true → no_tab (myField_str f).
Proof.
  intros Hf.
  pose proof (no_tab_comparison (mk_comparison f "=" "")) as H.
  unfold well_formed, comparison_text in H. cbn [lhs op literal] in H.
  rewrite Hf in H. specialize (H eq_refl). unfold no_tab in *.
  rewrite all_chars_app in H. by apply andb_prop in H as [H _].
Qed.

Lemma no_tab_operator o : is_operator o = true → no_tab o.
Proof.
  by intros [-> | [-> | [-> | [-> | [-> | ->]]]]]%is_operator_cases.
Qed.

(** X16.  The layout of a comparison is free: whitespace (tabs and line
    breaks too) before the field reference, around the operator and before
    the literal is ignored, and the literal may stand between single or
    between double quotes; the tree is the same triple. *)
Theorem create_ast_layout f o v q ws0 ws1 ws2 r :
  field_reference f = true → is_operator o = true →
  q = "'"%char ∨ q = "034"%char →
  all_chars (quotable q) v = true → no_tab v →
  blank ws0 = true → blank ws1 = true → blank ws2 = true → stops 4 r = true →
  create_ast_as_list (ws0 +:+ myField_str f +:+ ws1 +:+ o +:+ ws2
                      +:+ String q (v +:+ String q r))
  = Ok [NList [NField f; NStr o; NStr v]].
Proof.
  intros Hf Ho Hq Hv Htab H0 H1 H2 Hr.
  unfold create_ast_as_list, Grammar.parse_string, expandtabs.
  destruct (expandtabs_blank ws0
              (myField_str f +:+ ws1 +:+ o +:+ ws2 +:+ String q (v +:+ String q r))
              0 H0) as (w0 & c0 & -> & B0).
  destruct (expandtabs_app (myField_str f)
              (ws1 +:+ o +:+ ws2 +:+ String q (v +:+ String q r)) c0
              (no_tab_myField_str f Hf)) as [c1 ->].
  destruct (expandtabs_blank ws1 (o +:+ ws2 +:+ String q (v +:+ String q r)) c1 H1)
    as (w1 & c2 & -> & B1).
  destruct (expandtabs_app o (ws2 +:+ String q (v +:+ String q r)) c2
              (no_tab_operator o Ho)) as [c3 ->].
  destruct (expandtabs_blank ws2 (String q (v +:+ String q r)) c3 H2)
    as (w2 & c4 & -> & B2).
  assert (no_tab (String q (v +:+ String q ""))) as Hlit.
  { unfold no_tab in *. cbn [all_chars]. rewrite all_chars_app, Htab.
    cbn [all_chars]. by destruct Hq as [-> | ->]. }
  replace (String q (v +:+ String q r)) with (String q (v +:+ String q "") +:+ r)
    by (by norm_text).
  destruct (expandtabs_app _ r c4 Hlit) as [c5 ->].
  set (r' := expandtabs_from c5 r).
  replace (String q (v +:+ String q "") +:+ r') with (String q (v +:+ String q r'))
    by (by norm_text).
  rewrite grammar_levels.
  destruct (myField_str_head f (w1 +:+ o +:+ w2 +:+ String q (v +:+ String q r')))
    as [t Ht].
  rewrite (level4_layout _ _ (last_char None w0) f o v w1 w2 q r'); try done.
  - rewrite Ht. rewrite preParse_blank by done. by rewrite <- Ht.
  - unfold r'. by rewrite stops_expandtabs.
Qed.

Lemma create_ast_layout_witness :
  create_ast_as_list (" " +:+ myField_str (mk_myField "a" (Some "e") None)
                      +:+ String "009" "" +:+ ">=" +:+ " " +:+
                      String "034" ("x y" +:+ String "034" "  "))
  = Ok [NList [NField (mk_myField "a" (Some "e") None); NStr ">="; NStr "x y"]].
Proof.
  exact (create_ast_layout (mk_myField "a" (Some "e") None) ">=" "x y" "034"
           " " (String "009" "") " " "  "
           eq_refl eq_refl (or_intror eq_refl) eq_refl eq_refl eq_refl eq_refl
           eq_refl eq_refl).
Defined.

(** X17.  [myField.__str__] is faithful on field references whose name and
    qualifiers are identifiers: two of them with the same text are equal.
    An empty event or checkbox option is written like an absent one. *)
Theorem myField_str_faithful :
  (∀ f g, field_reference f = true → field_reference g = true →
          myField_str f = myField_str g → f = g)
  ∧ (∀ name, myField_str (mk_myField name (Some "") (Some ""))
             = myField_str (mk_myField name None None)).
Proof.
  split; [|done]. intros f g Hf Hg Heq.
  pose proof (create_ast_comparison (mk_comparison f "=" "")) as Pf.
  pose proof (create_ast_comparison (mk_comparison g "=" "")) as Pg.
  unfold well_formed, comparison_text, leaf in Pf, Pg.
  cbn [lhs op literal] in Pf, Pg. rewrite Hf in Pf. rewrite Hg in Pg.
  specialize (Pf eq_refl). specialize (Pg eq_refl).
  rewrite Heq in Pf. rewrite Pf in Pg. by injection Pg.
Qed.

Lemma myField_str_faithful_witness :
  myField_str (mk_myField "age" (Some "v1") None) = "[v1][age]"
  ∧ mk_myField "age" (Some "v1") None = mk_myField "age" (Some "v1") None
  ∧ myField_str (mk_myField "age" (Some "") (Some ""))
    = myField_str (mk_myField "age" None None).
Proof.
  split; [reflexivity|]. split.
  - exact (proj1 myField_str_faithful (mk_myField "age" (Some "v1") None)
             (mk_myField "age" (Some "v1") None) eq_refl eq_refl eq_refl).
  - exact (proj2 myField_str_faithful "age").
Defined.

End layout.

